(** * strace-tui: a shallow embedding of the trace parser, the address
    resolver, the process graph and the view model, with the properties
    of their specification.

    Text is modelled as [list ascii]: a Rust [&str] is a sequence of
    UTF-8 bytes, and [str::find], [starts_with] and slicing work on byte
    positions.  Whitespace ([trim], [trim_start], [split_whitespace]) is
    the full Unicode White_Space set, matched on its UTF-8 encodings.
    The other character classes ([is_alphanumeric], [is_uppercase],
    [to_lowercase]) are taken on their ASCII part, and the parsers that
    mix character counts with byte positions ([parse_arguments],
    [take_until_any]) are modelled on byte positions: the properties
    that depend on these are stated for ASCII text, or, for the search,
    for any lowercase mapping. *)

From Stdlib Require Import Ascii String List ZArith QArith Qabs Qround Bool Lia DecimalString.
From stdpp Require Import base gmap list strings sorting.

Import ListNotations.
Open Scope list_scope.

(* ================================================================= *)
(** ** Text helpers *)

Abbreviation str := (list ascii).

Definition txt (x : string) : str := list_ascii_of_string x.

Definition ascii_eqb (a b : ascii) : bool := Ascii.eqb a b.

(** The double quote, and literals written with a backquote for it. *)
Definition dquote : ascii := ascii_of_nat 34.
Definition txtq (x : string) : str :=
  map (fun c => if Ascii.eqb c "`" then dquote else c) (list_ascii_of_string x).

Definition in_range (lo hi : nat) (c : ascii) : bool :=
  (lo <=? nat_of_ascii c) && (nat_of_ascii c <=? hi).

(** Text made of ASCII characters only (every byte below 128). *)
Definition ascii_text (t : str) : bool := forallb (fun c => nat_of_ascii c <? 128) t.

(** [char::is_whitespace] on the one-byte characters: tab, newline,
    vertical tab, form feed, carriage return and space. *)
Definition is_whitespace (c : ascii) : bool :=
  in_range 9 13 c || (nat_of_ascii c =? 32).

(** nom's [space0]/[space1] accept spaces and tabs. *)
Definition is_space (c : ascii) : bool :=
  (nat_of_ascii c =? 32) || (nat_of_ascii c =? 9).

Definition is_digit (c : ascii) : bool := in_range 48 57 c.
Definition is_upper (c : ascii) : bool := in_range 65 90 c.
Definition is_lower (c : ascii) : bool := in_range 97 122 c.
Definition is_alphanumeric (c : ascii) : bool :=
  is_digit c || is_upper c || is_lower c.
Definition is_hexdigit (c : ascii) : bool :=
  is_digit c || in_range 65 70 c || in_range 97 102 c.

(** [char::is_whitespace] on the characters of two and three bytes:
    U+0085 and U+00A0 (C2 85, C2 A0); U+1680 (E1 9A 80); U+2000 to
    U+200A (E2 80 80 to E2 80 8A), U+2028, U+2029 and U+202F (E2 80 A8,
    A9, AF); U+205F (E2 81 9F); U+3000 (E3 80 80). *)
Definition ws2 (c d : ascii) : bool :=
  (nat_of_ascii c =? 194) && ((nat_of_ascii d =? 133) || (nat_of_ascii d =? 160)).

Definition ws3 (c d e : ascii) : bool :=
  let c := nat_of_ascii c in
  let d := nat_of_ascii d in
  let e := nat_of_ascii e in
  ((c =? 225) && (d =? 154) && (e =? 128)) ||
  ((c =? 226) && (d =? 128) &&
     (((128 <=? e) && (e <=? 138)) || (e =? 168) || (e =? 169) || (e =? 175))) ||
  ((c =? 226) && (d =? 129) && (e =? 159)) ||
  ((c =? 227) && (d =? 128) && (e =? 128)).

(** [char::to_lowercase] on ASCII. *)
Definition to_lower_char (c : ascii) : ascii :=
  if is_upper c then ascii_of_nat (nat_of_ascii c + 32) else c.
Definition to_lowercase (t : str) : str := map to_lower_char t.

Fixpoint str_eqb (a b : str) : bool :=
  match a, b with
  | [], [] => true
  | x :: a', y :: b' => ascii_eqb x y && str_eqb a' b'
  | _, _ => false
  end.

Fixpoint starts_with (p t : str) : bool :=
  match p, t with
  | [], _ => true
  | x :: p', y :: t' => ascii_eqb x y && starts_with p' t'
  | _ :: _, [] => false
  end.

(** [str::find]: byte index of the first occurrence. *)
Fixpoint find (p t : str) : option nat :=
  if starts_with p t then Some 0
  else match t with
       | [] => None
       | _ :: t' => option_map S (find p t')
       end.

Definition contains (p t : str) : bool :=
  match find p t with Some _ => true | None => false end.

Fixpoint take_while (f : ascii -> bool) (t : str) : str * str :=
  match t with
  | c :: t' => if f c then let (a, r) := take_while f t' in (c :: a, r) else ([], t)
  | [] => ([], [])
  end.

Fixpoint drop_while (f : ascii -> bool) (t : str) : str :=
  match t with
  | c :: t' => if f c then drop_while f t' else t
  | [] => []
  end.

(** Does a character of the patterns [w1], [w2], [w3] (on one, two
    and three bytes) start the text?  Removal of such characters at the
    start of the text. *)
Definition starts_pat (w1 : ascii -> bool) (w2 : ascii -> ascii -> bool)
    (w3 : ascii -> ascii -> ascii -> bool) (t : str) : bool :=
  match t with
  | c :: r =>
      w1 c || match r with
              | d :: r' => w2 c d || match r' with e :: _ => w3 c d e | [] => false end
              | [] => false
              end
  | [] => false
  end.

Fixpoint strip (w1 : ascii -> bool) (w2 : ascii -> ascii -> bool)
    (w3 : ascii -> ascii -> ascii -> bool) (t : str) : str :=
  match t with
  | [] => []
  | c :: r =>
      if w1 c then strip w1 w2 w3 r else
      match r with
      | d :: r' =>
          if w2 c d then strip w1 w2 w3 r' else
          match r' with
          | e :: r'' => if w3 c d e then strip w1 w2 w3 r'' else t
          | [] => t
          end
      | [] => t
      end
  end.

(** [trim_start], [trim_end] and [trim]: the end is stripped on the
    reversed bytes, with the byte patterns read backwards. *)
Definition trim_start (t : str) : str := strip is_whitespace ws2 ws3 t.
Definition trim_end (t : str) : str :=
  rev (strip is_whitespace (fun c d => ws2 d c) (fun c d e => ws3 e d c) (rev t)).
Definition trim (t : str) : str := trim_end (trim_start t).

(** Does a whitespace character start the text? *)
Definition starts_ws (t : str) : bool := starts_pat is_whitespace ws2 ws3 t.

(** The bytes up to the first whitespace character. *)
Fixpoint take_word (t : str) : str :=
  match t with
  | [] => []
  | c :: r => if starts_ws t then [] else c :: take_word r
  end.

(** [str::split_whitespace().next()] *)
Definition first_word (t : str) : option str :=
  match take_word (trim_start t) with
  | [] => None
  | w => Some w
  end.

Definition digit_val (c : ascii) : nat := nat_of_ascii c - 48.

Fixpoint digits_value (acc : Z) (t : str) : Z :=
  match t with
  | [] => acc
  | c :: t' => digits_value (10 * acc + Z.of_nat (digit_val c)) t'
  end.

(** [str::parse::<u32>]: optional [+], one or more digits, in range. *)
Definition parse_u32 (t : str) : option Z :=
  let body := match t with "+"%char :: t' => t' | _ => t end in
  if (negb (length body =? 0)) && forallb is_digit body then
    let v := digits_value 0 body in
    if (v <? 2 ^ 32)%Z then Some v else None
  else None.

(** [str::parse::<i32>]: optional sign, one or more digits, in range. *)
Definition parse_i32 (t : str) : option Z :=
  let '(neg, body) := match t with
                      | "+"%char :: t' => (false, t')
                      | "-"%char :: t' => (true, t')
                      | _ => (false, t)
                      end in
  if (negb (length body =? 0)) && forallb is_digit body then
    let v := digits_value 0 body in
    let v := if neg then (- v)%Z else v in
    if ((- 2 ^ 31 <=? v) && (v <? 2 ^ 31))%Z then Some v else None
  else None.

(* ================================================================= *)
(** ** Data model (parser/types.rs) *)

Record Errno := { code : str; message : str }.

Record ResolvedFrame := {
  rf_function : str;
  file : str;
  rf_line : N;
  column : option N;
  is_inlined : bool
}.

Record BacktraceFrame := {
  binary : str;
  function : option str;
  offset : option str;
  address : str;
  resolved : option (list ResolvedFrame)
}.

Record SignalInfo := { signal_name : str; details : str }.

Record ExitInfo := { exit_code : Z; killed : bool }.

(** [duration] is an [f64]; it is modelled by the rational it denotes.
    [unfinished_entry_idx]/[resumed_entry_idx] are the cross-reference
    fields read by the view model (tui/app.rs); the parser never sets
    them, so [SyscallEntry::new] leaves them [None] and they stay so. *)
Record SyscallEntry := {
  pid : Z;
  timestamp : str;
  syscall_name : str;
  arguments : str;
  return_value : option str;
  errno : option Errno;
  duration : option Q;
  backtrace : list BacktraceFrame;
  is_unfinished : bool;
  is_resumed : bool;
  signal : option SignalInfo;
  exit_info : option ExitInfo;
  unfinished_entry_idx : option nat;
  resumed_entry_idx : option nat
}.

Definition SyscallEntry_new (p : Z) (ts name : str) : SyscallEntry :=
  {| pid := p; timestamp := ts; syscall_name := name; arguments := [];
     return_value := None; errno := None; duration := None; backtrace := [];
     is_unfinished := false; is_resumed := false; signal := None;
     exit_info := None; unfinished_entry_idx := None; resumed_entry_idx := None |}.

(** Field updates, one per assignment the Rust code performs. *)
Definition set_arguments (e : SyscallEntry) (a : str) : SyscallEntry :=
  {| pid := pid e; timestamp := timestamp e; syscall_name := syscall_name e;
     arguments := a; return_value := return_value e; errno := errno e;
     duration := duration e; backtrace := backtrace e;
     is_unfinished := is_unfinished e; is_resumed := is_resumed e;
     signal := signal e; exit_info := exit_info e;
     unfinished_entry_idx := unfinished_entry_idx e;
     resumed_entry_idx := resumed_entry_idx e |}.

Definition set_outcome (e : SyscallEntry) (rv : option str) (er : option Errno)
    (d : option Q) : SyscallEntry :=
  {| pid := pid e; timestamp := timestamp e; syscall_name := syscall_name e;
     arguments := arguments e; return_value := rv; errno := er;
     duration := d; backtrace := backtrace e;
     is_unfinished := is_unfinished e; is_resumed := is_resumed e;
     signal := signal e; exit_info := exit_info e;
     unfinished_entry_idx := unfinished_entry_idx e;
     resumed_entry_idx := resumed_entry_idx e |}.

Definition set_flags (e : SyscallEntry) (unf res : bool) : SyscallEntry :=
  {| pid := pid e; timestamp := timestamp e; syscall_name := syscall_name e;
     arguments := arguments e; return_value := return_value e; errno := errno e;
     duration := duration e; backtrace := backtrace e;
     is_unfinished := unf; is_resumed := res;
     signal := signal e; exit_info := exit_info e;
     unfinished_entry_idx := unfinished_entry_idx e;
     resumed_entry_idx := resumed_entry_idx e |}.

Definition set_special (e : SyscallEntry) (sg : option SignalInfo)
    (ex : option ExitInfo) : SyscallEntry :=
  {| pid := pid e; timestamp := timestamp e; syscall_name := syscall_name e;
     arguments := arguments e; return_value := return_value e; errno := errno e;
     duration := duration e; backtrace := backtrace e;
     is_unfinished := is_unfinished e; is_resumed := is_resumed e;
     signal := sg; exit_info := ex;
     unfinished_entry_idx := unfinished_entry_idx e;
     resumed_entry_idx := resumed_entry_idx e |}.

Definition push_frame (e : SyscallEntry) (f : BacktraceFrame) : SyscallEntry :=
  {| pid := pid e; timestamp := timestamp e; syscall_name := syscall_name e;
     arguments := arguments e; return_value := return_value e; errno := errno e;
     duration := duration e; backtrace := backtrace e ++ [f];
     is_unfinished := is_unfinished e; is_resumed := is_resumed e;
     signal := signal e; exit_info := exit_info e;
     unfinished_entry_idx := unfinished_entry_idx e;
     resumed_entry_idx := resumed_entry_idx e |}.

(** [ParseError] (parser/mod.rs).  The messages keep the text the code
    writes; the part nom formats from its own error value is left out. *)
Inductive ParseError :=
| InvalidFormat (msg : str)
| InvalidSyscall (msg : str)
| InvalidBacktrace (msg : str)
| Io (msg : str).

Inductive Result (A : Type) :=
| Ok (a : A)
| Err (e : ParseError).
Arguments Ok {A} a.
Arguments Err {A} e.

(* ================================================================= *)
(** ** nom combinators on [&str]: [Some (rest, output)] or an error *)

Definition take_while1 (f : ascii -> bool) (t : str) : option (str * str) :=
  let '(a, r) := take_while f t in
  match a with [] => None | _ => Some (r, a) end.

Definition digit1 (t : str) : option (str * str) := take_while1 is_digit t.
Definition space0 (t : str) : str := drop_while is_space t.
Definition space1 (t : str) : option str :=
  match take_while1 is_space t with Some (r, _) => Some r | None => None end.

Definition char_ (c : ascii) (t : str) : option str :=
  match t with x :: t' => if ascii_eqb x c then Some t' else None | [] => None end.

Definition tag (p t : str) : option str :=
  if starts_with p t then Some (skipn (length p) t) else None.

(** [recognize]: the consumed prefix of the input. *)
Definition recognized (t rest : str) : str := firstn (length t - length rest) t.

(* ================================================================= *)
(** ** Line parser (parser/line_parser.rs) *)

(** [parse_timestamp]: [digit1 ':' digit1 ':' digit1 ('.' digit1)?]. *)
Definition parse_timestamp (t : str) : option (str * str) :=
  match digit1 t with None => None | Some (r, _) =>
  match char_ ":" r with None => None | Some r =>
  match digit1 r with None => None | Some (r, _) =>
  match char_ ":" r with None => None | Some r =>
  match digit1 r with None => None | Some (r, _) =>
  let r := match char_ "." r with
           | Some r' => match digit1 r' with Some (r'', _) => r'' | None => r end
           | None => r
           end in
  Some (r, recognized t r)
  end end end end end.

(** [pid.parse().unwrap_or(0)] *)
Definition pid_of (d : str) : Z :=
  match parse_u32 d with Some v => v | None => 0%Z end.

Definition parse_pid_and_timestamp (t : str) : option (str * (Z * str)) :=
  match digit1 t with None => None | Some (r, p) =>
  match space1 r with None => None | Some r =>
  match parse_timestamp r with None => None | Some (r, ts) =>
  match space1 r with None => None | Some r =>
  Some (r, (pid_of p, ts))
  end end end end.

Definition parse_timestamp_only (t : str) : option (str * (Z * str)) :=
  match parse_timestamp t with None => None | Some (r, ts) =>
  match space1 r with None => None | Some r => Some (r, (0%Z, ts)) end end.

Definition parse_pid_only (t : str) : option (str * (Z * str)) :=
  match digit1 t with None => None | Some (r, p) =>
  match space1 r with None => None | Some r => Some (r, (pid_of p, [])) end end.

(** The four prefix shapes, in the order the code tries them; the last
    one always succeeds, so the [map_err] branch is unreachable. *)
Definition parse_prefix (t : str) : str * (Z * str) :=
  match parse_pid_and_timestamp t with Some x => x | None =>
  match parse_timestamp_only t with Some x => x | None =>
  match parse_pid_only t with Some x => x | None => (t, (0%Z, [])) end end end.

Definition is_name_char (c : ascii) : bool :=
  is_alphanumeric c || ascii_eqb c "_" || ascii_eqb c "$".

Definition parse_syscall_name (t : str) : option (str * str) :=
  take_while1 is_name_char t.

(** The scan of [parse_arguments]: index of the [)] that brings the
    depth counter to zero; only [(] and [)] move it. *)
Fixpoint find_close (cs : str) (depth : Z) (i : nat) : option nat :=
  match cs with
  | [] => None
  | c :: cs' =>
      if ascii_eqb c "(" then find_close cs' (depth + 1) (S i)
      else if ascii_eqb c ")" then
        if (depth - 1 =? 0)%Z then Some i else find_close cs' (depth - 1) (S i)
      else find_close cs' depth (S i)
  end.

(** [trim_end_matches([',', ' '])] *)
Definition trim_end_commas (t : str) : str :=
  rev (drop_while (fun c => ascii_eqb c "," || ascii_eqb c " ") (rev t)).

Definition parse_arguments (t : str) : option (str * str) :=
  let r := space0 t in
  match char_ "(" r with None => None | Some rest =>
  match find (txt "<unfinished") rest with
  | Some u => Some (skipn u rest, trim_end_commas (firstn u rest))
  | None =>
      match find_close rest 1 0 with
      | None => Some ([], rest)
      | Some e => Some (skipn (e + 1) rest, firstn e rest)
      end
  end end.

(** [parse_return_value]: [space0 '=' space0] then the first of
    [0x<hex>], [-?<digits>], [?(+name)?], [NULL]. *)
Definition parse_return_value (t : str) : option (str * str) :=
  let r := space0 t in
  match char_ "=" r with None => None | Some r =>
  let r := space0 r in
  let alt_hex :=
    match tag (txt "0x") r with
    | Some r1 => match take_while1 is_hexdigit r1 with
                 | Some (r2, _) => Some r2 | None => None end
    | None => None
    end in
  let alt_int :=
    let r1 := match char_ "-" r with Some r' => r' | None => r end in
    match digit1 r1 with Some (r2, _) => Some r2 | None => None end in
  let alt_unknown :=
    match char_ "?" r with
    | Some r1 =>
        Some (match char_ "+" r1 with
              | Some r2 => match take_while1 (fun c => is_alphanumeric c || ascii_eqb c "_") r2 with
                           | Some (r3, _) => r3 | None => r1 end
              | None => r1
              end)
    | None => None
    end in
  let alt_null := tag (txt "NULL") r in
  let pick := match alt_hex with Some x => Some x | None =>
              match alt_int with Some x => Some x | None =>
              match alt_unknown with Some x => Some x | None => alt_null end end end in
  match pick with
  | Some r' => Some (r', recognized r r')
  | None => None
  end end.

Definition parse_errno (t : str) : option (str * Errno) :=
  let r := space0 t in
  match take_while1 (fun c => is_upper c || is_digit c) r with
  | None => None
  | Some (rest, cd) =>
      let msg := match find (txt "(") rest with
                 | Some st => match find (txt ")") (skipn st rest) with
                              | Some e => firstn (e - 1) (skipn (st + 1) rest)
                              | None => [] end
                 | None => [] end in
      Some (rest, {| code := cd; message := msg |})
  end.

Definition pow10 (n : nat) : Z := (10 ^ Z.of_nat n)%Z.

(** [f64::from_str] on the shapes [parse_duration] recognizes: [D],
    [.D] and [D.D] (the empty text is an error, read as [0.0]). *)
Definition parse_f64 (t : str) : option Q :=
  let '(ip, r) := take_while is_digit t in
  match r with
  | [] => match ip with [] => None | _ => Some (inject_Z (digits_value 0 ip)) end
  | c :: fp =>
      if ascii_eqb c "." && forallb is_digit fp && negb (length fp =? 0) then
        Some (inject_Z (digits_value 0 ip) +
              Qmake (digits_value 0 fp) (Z.to_pos (pow10 (length fp))))%Q
      else None
  end.

Definition parse_duration (t : str) : option (str * Q) :=
  let r := space0 t in
  match char_ "<" r with None => None | Some r1 =>
  let r2 := match digit1 r1 with Some (x, _) => x | None => r1 end in
  let r3 := match char_ "." r2 with
            | Some x => match digit1 x with Some (y, _) => y | None => r2 end
            | None => r2 end in
  match char_ ">" r3 with None => None | Some r4 =>
  let d := match parse_f64 (recognized r1 r3) with Some q => q | None => 0%Q end in
  Some (r4, d)
  end end.

(** [parse_resumed_line] *)
Definition parse_resumed_line (p : Z) (ts : str) (input0 : str) : Result SyscallEntry :=
  let input := trim_start input0 in
  let name :=
    match find (txt "<...") input with
    | Some st =>
        let after_dots := trim_start (skipn (st + 4) input) in
        match find (txt "resumed>") after_dots with
        | Some e => trim (firstn e after_dots)
        | None => txt "unknown"
        end
    | None => txt "unknown"
    end in
  let entry := set_flags (SyscallEntry_new p ts name) false true in
  match find (txt "resumed>") input with
  | None => Ok entry
  | Some pos =>
      let after_resumed := trim_start (skipn (pos + 8) input) in
      let '(entry, ret_part) :=
        match find (txt ") = ") after_resumed with
        | Some rs =>
            (set_arguments entry (trim (firstn (rs + 1) after_resumed)),
             Some (skipn (rs + 1) after_resumed))
        | None =>
            (entry, option_map (fun eq => skipn eq after_resumed) (find (txt "=") after_resumed))
        end in
      match ret_part with
      | None => Ok entry
      | Some rp =>
          match parse_return_value rp with
          | None => Ok entry
          | Some (rest, rv) =>
              let er := if starts_with (txt "-1") rv then
                          match parse_errno rest with Some (_, x) => Some x | None => None end
                        else None in
              let d := match parse_duration rest with Some (_, x) => Some x | None => None end in
              Ok (set_outcome entry (Some rv) er d)
          end
      end
  end.

(** [parse_signal_line] *)
Definition parse_signal_line (line : str) : Result SyscallEntry :=
  let '(_, (p, ts)) := parse_prefix line in
  let entry := SyscallEntry_new p ts (txt "signal") in
  match find (txt "---") line with
  | None => Ok entry
  | Some st =>
      let after_start := skipn (st + 3) line in
      match find (txt "---") after_start with
      | None => Ok entry
      | Some e =>
          let signal_text := trim (firstn e after_start) in
          let nm := match first_word signal_text with Some w => w | None => txt "UNKNOWN" end in
          Ok (set_special entry (Some {| signal_name := nm; details := signal_text |}) None)
      end
  end.

(** [after_start.split("with").nth(1)] *)
Definition split_with_nth1 (t : str) : option str :=
  match find (txt "with") t with
  | None => None
  | Some i =>
      let r := skipn (i + 4) t in
      match find (txt "with") r with Some j => Some (firstn j r) | None => Some r end
  end.

(** [parse_exit_line] *)
Definition parse_exit_line (line : str) : Result SyscallEntry :=
  let '(_, (p, ts)) := parse_prefix line in
  let entry := SyscallEntry_new p ts (txt "exit") in
  match find (txt "+++") line with
  | None => Ok entry
  | Some st =>
      let after_start := skipn (st + 3) line in
      let ec :=
        if contains (txt "exited with") after_start then
          match split_with_nth1 after_start with
          | Some part => match first_word part with
                         | Some w => match parse_i32 w with Some v => v | None => 0%Z end
                         | None => 0%Z end
          | None => 0%Z
          end
        else 0%Z in
      Ok (set_special entry None
            (Some {| exit_code := ec; killed := contains (txt "killed") after_start |}))
  end.

(** [parse_strace_line] *)
Definition parse_strace_line (line : str) : Result SyscallEntry :=
  if contains (txt "+++") line then parse_exit_line line
  else if contains (txt "---") line then parse_signal_line line
  else
    let '(rest, (p, ts)) := parse_prefix line in
    if starts_with (txt "<...") (trim_start rest) then parse_resumed_line p ts rest
    else
      match parse_syscall_name rest with
      | None => Err (InvalidSyscall (txt "Failed to parse syscall name"))
      | Some (rest, name) =>
          match parse_arguments rest with
          | None => Err (InvalidSyscall (txt "Failed to parse arguments"))
          | Some (rest, args) =>
              let entry := set_arguments (SyscallEntry_new p ts name) args in
              if contains (txt "<unfinished") rest then Ok (set_flags entry true false)
              else
                let '(rest, rv) := match parse_return_value rest with
                                   | Some (r, v) => (r, Some v)
                                   | None => (rest, None) end in
                let er := match rv with
                          | Some v => if starts_with (txt "-1") v || starts_with (txt "?") v then
                                        match parse_errno rest with Some (_, x) => Some x | None => None end
                                      else None
                          | None => None end in
                let d := match parse_duration rest with Some (_, x) => Some x | None => None end in
                Ok (set_outcome entry rv er d)
          end
      end.

(* ================================================================= *)
(** ** Backtrace parser (parser/backtrace_parser.rs) *)

Definition is_open_bracket (c : ascii) : bool := ascii_eqb c "(" || ascii_eqb c "[".

(** [take_until_any(&['(', '['])]: fails when the stop character is at
    position 0, which includes the empty input. *)
Definition take_until_any (t : str) : option (str * str) :=
  let pos := length (fst (take_while (fun c => negb (is_open_bracket c)) t)) in
  if pos =? 0 then None else Some (skipn pos t, firstn pos t).

(** [parse_function_info]: [(function+offset)], [(function)], [(+offset)], [()]. *)
Definition parse_function_info (t : str) : option (str * (str * option str)) :=
  match char_ "(" t with None => None | Some r =>
  match find (txt ")") r with None => None | Some e =>
  let content := firstn e r in
  let rest := skipn (e + 1) r in
  match find (txt "+") content with
  | Some p => Some (rest, (firstn p content, Some (skipn (p + 1) content)))
  | None => Some (rest, (content, None))
  end end end.

(** [parse_address]: [space0 '[' "0x" hex+ ']'], returning ["0x" hex+]. *)
Definition parse_address (t : str) : option (str * str) :=
  let r := space0 t in
  match char_ "[" r with None => None | Some r1 =>
  match tag (txt "0x") r1 with None => None | Some r2 =>
  match take_while1 is_hexdigit r2 with None => None | Some (r3, _) =>
  match char_ "]" r3 with None => None | Some r4 =>
  Some (r4, recognized r1 r3)
  end end end end.

Definition mk_frame (b : str) (fn off : option str) (addr : str) : BacktraceFrame :=
  {| binary := b; function := fn; offset := off; address := addr; resolved := None |}.

Definition parse_frame (t : str) : option BacktraceFrame :=
  match take_until_any t with None => None | Some (rest, b) =>
  let bin := trim b in
  let with_fn :=
    if starts_with (txt "(") rest then
      match parse_function_info rest with
      | Some (rest2, (fn, off)) =>
          let addr := match parse_address rest2 with Some (_, a) => a | None => [] end in
          Some (mk_frame bin (Some fn) off addr)
      | None => None
      end
    else None in
  match with_fn with
  | Some f => Some f
  | None =>
      let addr := match parse_address rest with Some (_, a) => a | None => [] end in
      Some (mk_frame bin None None addr)
  end end.

Definition parse_backtrace_line (line : str) : Result BacktraceFrame :=
  match trim_start line with
  | c :: rest =>
      if ascii_eqb c ">" then
        match parse_frame (trim_start rest) with
        | Some f => Ok f
        | None => Err (InvalidBacktrace (txt "Failed to parse frame"))
        end
      else Err (InvalidBacktrace (txt "Line doesn't start with '>'"))
  | [] => Err (InvalidBacktrace (txt "Line doesn't start with '>'"))
  end.

(* ================================================================= *)
(** ** Stitching parser (parser/mod.rs) *)

Record StraceParser := {
  unfinished : gmap Z nat;
  errors : list (nat * ParseError);
  line_number : nat
}.

Definition StraceParser_new : StraceParser :=
  {| unfinished := ∅; errors := []; line_number := 0 |}.

Definition push_error (st : StraceParser) (e : ParseError) : StraceParser :=
  {| unfinished := unfinished st; errors := errors st ++ [(line_number st, e)];
     line_number := line_number st |}.

(** The merge of [parse_lines]: the fields the code copies from the
    resumed half into the pending entry. *)
Definition merge_resumed (u r : SyscallEntry) : SyscallEntry :=
  set_flags (set_outcome u (return_value r) (errno r) (duration r)) false false.

(** The body of the [for line in lines] loop, with the loop's local
    [entries] and [current_entry].  [None] is the panic of
    [entries.get_mut(unfinished).unwrap()]. *)
Definition parse_line_step (st : StraceParser) (entries : list SyscallEntry)
    (current : option SyscallEntry) (line : str)
    : option (StraceParser * list SyscallEntry * option SyscallEntry) :=
  let st := {| unfinished := unfinished st; errors := errors st;
               line_number := S (line_number st) |} in
  if length (trim line) =? 0 then Some (st, entries, current)
  else if starts_with (txt ">") (trim_start line) then
    match current with
    | Some e =>
        match parse_backtrace_line line with
        | Ok f => Some (st, entries, Some (push_frame e f))
        | Err er => Some (push_error st er, entries, current)
        end
    | None => Some (st, entries, None)
    end
  else
    let entries := match current with Some e => entries ++ [e] | None => entries end in
    match parse_strace_line line with
    | Ok e =>
        if is_unfinished e then
          Some ({| unfinished := <[pid e := length entries]> (unfinished st);
                   errors := errors st; line_number := line_number st |},
                entries, Some e)
        else if is_resumed e then
          match unfinished st !! pid e with
          | Some i =>
              let st := {| unfinished := delete (pid e) (unfinished st);
                           errors := errors st; line_number := line_number st |} in
              match entries !! i with
              | Some u => Some (st, <[i := merge_resumed u e]> entries, None)
              | None => None
              end
          | None =>
              Some (push_error st (InvalidFormat (txt "resumed without unfinished")),
                    entries, Some e)
          end
        else Some (st, entries, Some e)
    | Err er => Some (push_error st er, entries, None)
    end.

Fixpoint parse_lines_loop (st : StraceParser) (entries : list SyscallEntry)
    (current : option SyscallEntry) (lines : list str)
    : option (StraceParser * list SyscallEntry * option SyscallEntry) :=
  match lines with
  | [] => Some (st, entries, current)
  | l :: ls =>
      match parse_line_step st entries current l with
      | Some (st', es', cur') => parse_lines_loop st' es' cur' ls
      | None => None
      end
  end.

(** [StraceParser::parse_lines]: the final parser state and the entries. *)
Definition parse_lines (st : StraceParser) (lines : list str)
    : option (StraceParser * list SyscallEntry) :=
  match parse_lines_loop st [] None lines with
  | Some (st', es, cur) =>
      Some (st', match cur with Some e => es ++ [e] | None => es end)
  | None => None
  end.

(* ================================================================= *)
(** ** Address resolver (parser/resolver.rs) *)

(** What [addr2line] hands back for one frame of [find_frames]. *)
Record Location := {
  loc_file : option str;
  loc_line : option N;
  loc_column : option N
}.

(** [fi_function]: [None] when the frame has no function name,
    [Some None] when [demangle()] fails, [Some (Some n)] otherwise. *)
Record FrameInfo := {
  location : option Location;
  fi_function : option (option str)
}.

(** One call of [frames_iter.next()]: [Ok(Some frame)] or [Err(_)];
    the end of the list is [Ok(None)]. *)
Inductive FrameStep :=
| FOk (f : FrameInfo)
| FErr.

Record Addr2LineResolver (Loader : Type) := {
  loaders : gmap string Loader;
  cache : gmap string (option (list ResolvedFrame));
  (** the binaries passed to [addr2line::Loader::new], in call order *)
  loader_attempts : list str
}.
Arguments loaders {Loader} _.
Arguments cache {Loader} _.
Arguments loader_attempts {Loader} _.

(** [u64::from_str_radix(s, 16)]: optional [+], hex digits, in range. *)
Fixpoint hex_value (acc : Z) (t : str) : Z :=
  match t with
  | [] => acc
  | c :: t' =>
      let v := if is_digit c then Z.of_nat (nat_of_ascii c - 48)
               else if is_upper c then Z.of_nat (nat_of_ascii c - 55)
               else Z.of_nat (nat_of_ascii c - 87) in
      hex_value (16 * acc + v) t'
  end.

Definition from_str_radix16 (t : str) : option Z :=
  let body := match t with "+"%char :: t' => t' | _ => t end in
  if negb (length body =? 0) && forallb is_hexdigit body then
    let v := hex_value 0 body in if (v <? 2 ^ 64)%Z then Some v else None
  else None.

(** [strip_prefix("0x").unwrap_or(s)] *)
Definition strip_0x (t : str) : str :=
  if starts_with (txt "0x") t then skipn 2 t else t.

Definition key_of (b a : str) : string := string_of_list_ascii (b ++ txt ":" ++ a).

(** The [loop] over [frames_iter] in [resolve_address]; [None] is the
    early return of [location.file?] / [location.line?]. *)
Fixpoint collect_frames (items : list FrameStep) : option (list ResolvedFrame) :=
  match items with
  | [] => Some []
  | FErr :: _ => Some []
  | FOk fr :: rest =>
      match location fr with
      | None => collect_frames rest
      | Some loc =>
          if match loc_file loc with Some f => str_eqb f (txt "??") | None => false end
          then collect_frames rest
          else
            let fname := match fi_function fr with
                         | Some (Some n) => n
                         | _ => txt "<unknown>"
                         end in
            match loc_file loc, loc_line loc with
            | Some f, Some ln =>
                match collect_frames rest with
                | Some rs => Some ({| rf_function := fname; file := f; rf_line := ln;
                                      column := loc_column loc; is_inlined := false |} :: rs)
                | None => None
                end
            | _, _ => None
            end
      end
  end.

Definition set_inlined (r : ResolvedFrame) (b : bool) : ResolvedFrame :=
  {| rf_function := rf_function r; file := file r; rf_line := rf_line r;
     column := column r; is_inlined := b |}.

(** "Mark all but the last as inlined" *)
Definition mark_inlined (rs : list ResolvedFrame) : list ResolvedFrame :=
  let n := length rs in
  imap (fun i r => if (1 <? n) && (i <? n - 1) then set_inlined r true else r) rs.

Definition set_resolved (f : BacktraceFrame) (r : option (list ResolvedFrame)) : BacktraceFrame :=
  {| binary := binary f; function := function f; offset := offset f;
     address := address f; resolved := r |}.

Section Resolver.

(** The library interface of §6: [Loader::new] and [find_frames]. *)
Context {Loader : Type}.
Variable loader_new : str -> option Loader.
Variable find_frames : Loader -> Z -> option (list FrameStep).

Abbreviation RState := (Addr2LineResolver Loader).

Definition Addr2LineResolver_new : RState :=
  {| loaders := ∅; cache := ∅; loader_attempts := [] |}.

Definition get_loader (st : RState) (b : str) : RState * option Loader :=
  match loaders st !! string_of_list_ascii b with
  | Some l => (st, Some l)
  | None =>
      let st := {| loaders := loaders st; cache := cache st;
                   loader_attempts := loader_attempts st ++ [b] |} in
      match loader_new b with
      | Some l => ({| loaders := <[string_of_list_ascii b := l]> (loaders st);
                      cache := cache st; loader_attempts := loader_attempts st |}, Some l)
      | None => (st, None)
      end
  end.

Definition resolve_address (st : RState) (b a : str)
    : RState * option (list ResolvedFrame) :=
  let '(st, lo) := get_loader st b in
  match lo with
  | None => (st, None)
  | Some l =>
      match from_str_radix16 (strip_0x a) with
      | None => (st, None)
      | Some addr =>
          match find_frames l addr with
          | None => (st, None)
          | Some items =>
              match collect_frames items with
              | None => (st, None)
              | Some rs =>
                  let rs := mark_inlined rs in
                  (st, match rs with [] => None | _ => Some rs end)
              end
          end
      end
  end.

Definition resolve_frame (st : RState) (f : BacktraceFrame) : RState * BacktraceFrame :=
  let k := key_of (binary f) (address f) in
  match cache st !! k with
  | Some c => (st, set_resolved f c)
  | None =>
      let '(st, r) := resolve_address st (binary f) (address f) in
      ({| loaders := loaders st; cache := <[k := r]> (cache st);
          loader_attempts := loader_attempts st |}, set_resolved f r)
  end.

End Resolver.

(* ================================================================= *)
(** ** Process graph (tui/process_graph.rs) *)

Inductive Color :=
| Blue | Green | Yellow | Magenta | Cyan | LightBlue | LightGreen | LightMagenta
| White | Red | Gray | DarkGray.

Definition GRAPH_COLORS : list Color :=
  [Blue; Green; Yellow; Magenta; Cyan; LightBlue; LightGreen; LightMagenta].

Definition graph_color (index : nat) : Color :=
  nth (index mod length GRAPH_COLORS) GRAPH_COLORS White.

Record ProcessInfo := {
  pi_pid : Z;
  pcolumn : nat;
  color : Color;
  first_entry_idx : nat;
  last_entry_idx : nat;
  parent_pid : option Z
}.

Record ProcessGraph := {
  processes : gmap Z ProcessInfo;
  max_columns : nat;
  enabled : bool
}.

Definition is_fork_syscall (n : str) : bool :=
  str_eqb n (txt "fork") || str_eqb n (txt "vfork") || str_eqb n (txt "clone")
  || str_eqb n (txt "clone3").

Definition is_wait_syscall (n : str) : bool :=
  str_eqb n (txt "wait4") || str_eqb n (txt "waitid") || str_eqb n (txt "waitpid").

(** [ret.trim().parse::<u32>()] on the return value, kept when positive. *)
Definition positive_return (e : SyscallEntry) : option Z :=
  match return_value e with
  | Some r => match parse_u32 (trim r) with
              | Some v => if (0 <? v)%Z then Some v else None
              | None => None
              end
  | None => None
  end.

(** [HashMap::entry(k).or_insert(v)] *)
Definition or_insert (k : Z) (v : nat) (m : gmap Z nat) : gmap Z nat :=
  match m !! k with Some _ => m | None => <[k := v]> m end.

Record FirstPass := {
  pid_first_seen : gmap Z nat;
  pid_last_seen : gmap Z nat;
  fork_relationships : list (nat * Z * Z)
}.

Definition first_pass_step (fp : FirstPass) (idx : nat) (e : SyscallEntry) : FirstPass :=
  let p := pid e in
  let first := or_insert p idx (pid_first_seen fp) in
  let last := <[p := idx]> (pid_last_seen fp) in
  let '(first, last, forks) :=
    match (if is_fork_syscall (syscall_name e) then positive_return e else None) with
    | Some child => (or_insert child idx first, <[child := idx]> last,
                     fork_relationships fp ++ [(idx, p, child)])
    | None => (first, last, fork_relationships fp)
    end in
  let last :=
    match (if is_wait_syscall (syscall_name e) then positive_return e else None) with
    | Some w => <[w := idx]> last
    | None => last
    end in
  {| pid_first_seen := first; pid_last_seen := last; fork_relationships := forks |}.

Fixpoint first_pass_from (fp : FirstPass) (idx : nat) (es : list SyscallEntry) : FirstPass :=
  match es with
  | [] => fp
  | e :: es' => first_pass_from (first_pass_step fp idx e) (S idx) es'
  end.

Definition first_pass (es : list SyscallEntry) : FirstPass :=
  first_pass_from {| pid_first_seen := ∅; pid_last_seen := ∅; fork_relationships := [] |} 0 es.

(** An element of [pids_ordered]: [(pid, idx, end)]. *)
Abbreviation Event := (Z * nat * bool)%type.

Definition ev_pid (x : Event) : Z := fst (fst x).
Definition ev_idx (x : Event) : nat := snd (fst x).
Definition ev_end (x : Event) : bool := snd x.

(** [sort_by_key(|(_, idx, _)| idx)] is a stable sort; this insertion
    sort places an element before every later element with an equal key. *)
Fixpoint insert_by_idx (x : Event) (l : list Event) : list Event :=
  match l with
  | [] => [x]
  | y :: l' => if ev_idx x <=? ev_idx y then x :: y :: l' else y :: insert_by_idx x l'
  end.

Definition sort_by_idx (l : list Event) : list Event := fold_right insert_by_idx [] l.

(** [pids_ordered] before the sort: [fs] and [ls] are the iteration
    orders of [pid_first_seen] and [pid_last_seen], which [HashMap]
    leaves unspecified. *)
Definition pids_ordered (fs ls : list (Z * nat)) : list Event :=
  sort_by_idx (map (fun '(p, i) => (p, i, false)) fs ++ map (fun '(p, i) => (p, i, true)) ls).

(** [free_columns.sort_unstable()] then [remove(0)], or a fresh column. *)
Definition take_column (free : list nat) (maxc : nat) : nat * list nat * nat :=
  match merge_sort Nat.le free with
  | c :: rest => (c, rest, maxc)
  | [] => (maxc, [], S maxc)
  end.

Record AssignState := {
  a_processes : gmap Z ProcessInfo;
  free_columns : list nat;
  a_max_columns : nat;
  a_index : nat
}.

Definition assign_step (last : gmap Z nat) (forks : list (nat * Z * Z))
    (st : AssignState) (x : Event) : AssignState :=
  let '(p, i, is_end) := x in
  if is_end then
    {| a_processes := a_processes st;
       free_columns := match a_processes st !! p with
                       | Some info => free_columns st ++ [pcolumn info]
                       | None => free_columns st
                       end;
       a_max_columns := a_max_columns st; a_index := S (a_index st) |}
  else
    let '(c, free, maxc) := take_column (free_columns st) (a_max_columns st) in
    let parent := option_map (fun '(_, par, _) => par)
                    (List.find (fun '(_, _, ch) => (ch =? p)%Z) forks) in
    let info := {| pi_pid := p; pcolumn := c; color := graph_color (a_index st);
                   first_entry_idx := i;
                   last_entry_idx := match last !! p with Some l => l | None => i end;
                   parent_pid := parent |} in
    {| a_processes := <[p := info]> (a_processes st); free_columns := free;
       a_max_columns := maxc; a_index := S (a_index st) |}.

Definition assign_init : AssignState :=
  {| a_processes := ∅; free_columns := []; a_max_columns := 0; a_index := 0 |}.

(** [ProcessGraph::build], for the given iteration orders of the two maps. *)
Definition ProcessGraph_build (fs ls : list (Z * nat)) (es : list SyscallEntry) : ProcessGraph :=
  let fp := first_pass es in
  let st := fold_left (assign_step (pid_last_seen fp) (fork_relationships fp))
                      (pids_ordered fs ls) assign_init in
  {| processes := a_processes st; max_columns := a_max_columns st;
     enabled := 1 <? a_max_columns st |}.

(** Sort key of an event: ends sort after starts at the same index. *)
Definition ev_key (x : Event) : nat := 2 * ev_idx x + (if ev_end x then 1 else 0).

(** [p] has started, resp. ended, among the events [pre]. *)
Definition started (pre : list Event) (p : Z) : Prop := exists i, In (p, i, false) pre.
Definition ended (pre : list Event) (p : Z) : Prop := exists i, In (p, i, true) pre.

(** Invariant of the lane assignment after the events [pre]: assigned
    processes have started and hold a column below [max_columns]; a live
    process's column is not free and no two live processes share one; the
    free columns are distinct and below [max_columns]. *)
Definition lane_inv (pre : list Event) (S : AssignState) : Prop :=
  (forall p info, a_processes S !! p = Some info -> started pre p /\ pcolumn info < a_max_columns S) /\
  (forall p, started pre p -> a_processes S !! p <> None) /\
  (forall p info, a_processes S !! p = Some info -> ~ ended pre p -> ~ In (pcolumn info) (free_columns S)) /\
  (forall p q ip iq, p <> q -> a_processes S !! p = Some ip -> a_processes S !! q = Some iq ->
     ~ ended pre p -> ~ ended pre q -> pcolumn ip <> pcolumn iq) /\
  (forall c, In c (free_columns S) -> c < a_max_columns S) /\
  NoDup (free_columns S).

(* ================================================================= *)
(** ** View model (tui/app.rs) *)

(** [split_arguments]: the loop over [args.chars()] with its locals
    [depth] (an [i32]), [in_string], [escape_next], [current] and
    [result]; the pushes of the trimmed last piece and of the
    whole-string fallback follow the loop.  The loop runs over the
    bytes: the characters it tests are ASCII, and the bytes of a
    multi-byte character are all at least 128, so each of them takes
    the default branch as the whole character does.  [depth += 1] and
    [depth -= 1] wrap around modulo 2^32 as in a release build (a debug
    build panics on the overflow instead). *)
Definition wrap_i32 (z : Z) : Z := ((z + 2^31) mod 2^32 - 2^31)%Z.

Definition push_trimmed (result : list str) (current : str) : list str :=
  let t := trim current in
  if length t =? 0 then result else result ++ [t].

Fixpoint split_loop (cs : str) (depth : Z) (in_string escape_next : bool)
    (current : str) (result : list str) : list str :=
  match cs with
  | [] => push_trimmed result current
  | ch :: cs' =>
      if escape_next then split_loop cs' depth in_string false (current ++ [ch]) result
      else if ascii_eqb ch "\" then split_loop cs' depth in_string true (current ++ [ch]) result
      else if ascii_eqb ch dquote then
        split_loop cs' depth (negb in_string) false (current ++ [ch]) result
      else if (ascii_eqb ch "(" || ascii_eqb ch "{" || ascii_eqb ch "[") && negb in_string then
        split_loop cs' (wrap_i32 (depth + 1)) in_string false (current ++ [ch]) result
      else if (ascii_eqb ch ")" || ascii_eqb ch "}" || ascii_eqb ch "]") && negb in_string then
        split_loop cs' (wrap_i32 (depth - 1)) in_string false (current ++ [ch]) result
      else if ascii_eqb ch "," && negb in_string && (depth =? 0)%Z then
        split_loop cs' depth in_string false [] (push_trimmed result current)
      else split_loop cs' depth in_string false (current ++ [ch]) result
  end.

Definition split_arguments (args : str) : list str :=
  let result := split_loop args 0 false false [] [] in
  match result with
  | [] => if negb (length (trim args) =? 0) then [trim args] else []
  | _ => result
  end.













(* ================================================================= *)
(** ** View model (tui/app.rs): display lines, rebuild and search *)

Inductive TreeElement := Null | Space | Vertical | Branch | LastBranch.

Definition TreeElement_eqb (x y : TreeElement) : bool :=
  match x, y with
  | Null, Null | Space, Space | Vertical, Vertical | Branch, Branch
  | LastBranch, LastBranch => true
  | _, _ => false
  end.

Definition MAX_TREE_DEPTH : nat := 4.

(** [[TreeElement; MAX_TREE_DEPTH]]: a list of length four. *)
Abbreviation TreePrefix := (list TreeElement).

Definition base_prefix : TreePrefix := [Null; Null; Null; Null].

(** [iter().position(pred)]. *)
Fixpoint position {A} (p : A -> bool) (l : list A) : option nat :=
  match l with
  | [] => None
  | x :: l' => if p x then Some 0 else option_map S (position p l')
  end.

(** Length of [iter().take_while(pred)]. *)
Fixpoint prefix_run {A} (p : A -> bool) (l : list A) : nat :=
  match l with
  | [] => 0
  | x :: l' => if p x then S (prefix_run p l') else 0
  end.

Definition build_tree_prefix (parent_prefix : TreePrefix) (is_last_child : bool) : TreePrefix :=
  let depth := default MAX_TREE_DEPTH (position (TreeElement_eqb Null) parent_prefix) in
  if MAX_TREE_DEPTH <=? depth then parent_prefix
  else <[depth := if is_last_child then LastBranch else Branch]> parent_prefix.

(** The last element of the run before the first [Null] is replaced. *)
Definition build_nested_prefix (parent_prefix : TreePrefix) (parent_is_last : bool) : TreePrefix :=
  let run := prefix_run (fun e => negb (TreeElement_eqb e Null)) parent_prefix in
  match run with
  | 0 => parent_prefix
  | S k => <[k := if negb parent_is_last then Vertical else Space]> parent_prefix
  end.

Module DisplayLine.
Inductive t :=
  | SyscallHeader (entry_idx : nat) (is_hidden : bool) (is_search_match : bool)
  | ArgumentsHeader (entry_idx : nat) (tree_prefix : TreePrefix) (is_search_match : bool)
  | ArgumentLine (entry_idx arg_idx : nat) (tree_prefix : TreePrefix) (is_search_match : bool)
  | ReturnValue (entry_idx : nat) (tree_prefix : TreePrefix) (is_search_match : bool)
  | Error (entry_idx : nat) (tree_prefix : TreePrefix) (is_search_match : bool)
  | Duration (entry_idx : nat) (tree_prefix : TreePrefix) (is_search_match : bool)
  | Signal (entry_idx : nat) (tree_prefix : TreePrefix) (is_search_match : bool)
  | Exit (entry_idx : nat) (tree_prefix : TreePrefix) (is_search_match : bool)
  | EntryReference (entry_idx : nat) (tree_prefix : TreePrefix) (is_search_match : bool)
  | BacktraceHeader (entry_idx : nat) (tree_prefix : TreePrefix) (is_search_match : bool)
  | BacktraceFrame (entry_idx frame_idx : nat) (tree_prefix : TreePrefix) (is_search_match : bool)
  | BacktraceResolved (entry_idx frame_idx resolved_idx : nat) (tree_prefix : TreePrefix)
      (is_search_match : bool).

Definition entry_idx (l : t) : nat :=
  match l with
  | SyscallHeader i _ _ | ArgumentsHeader i _ _ | ArgumentLine i _ _ _
  | ReturnValue i _ _ | Error i _ _ | Duration i _ _ | Signal i _ _ | Exit i _ _
  | EntryReference i _ _ | BacktraceHeader i _ _ | BacktraceFrame i _ _ _
  | BacktraceResolved i _ _ _ _ => i
  end.

(** [*is_search_match = b], on every variant. *)
Definition set_search_match (l : t) (b : bool) : t :=
  match l with
  | SyscallHeader i h _ => SyscallHeader i h b
  | ArgumentsHeader i p _ => ArgumentsHeader i p b
  | ArgumentLine i a p _ => ArgumentLine i a p b
  | ReturnValue i p _ => ReturnValue i p b
  | Error i p _ => Error i p b
  | Duration i p _ => Duration i p b
  | Signal i p _ => Signal i p b
  | Exit i p _ => Exit i p b
  | EntryReference i p _ => EntryReference i p b
  | BacktraceHeader i p _ => BacktraceHeader i p b
  | BacktraceFrame i f p _ => BacktraceFrame i f p b
  | BacktraceResolved i f r p _ => BacktraceResolved i f r p b
  end.
End DisplayLine.

Record SearchState := {
  active : bool;
  query : str;
  matches : list nat;
  current_match_idx : nat;
  original_position : nat;
  original_scroll : nat
}.

(** The fields of [App] that the display-line list, the cursor and the
    search read or write (the resolver, summary, filter modal and flags
    are left out). *)
Record App := {
  entries : list SyscallEntry;
  display_lines : list DisplayLine.t;
  selected_line : nat;
  scroll_offset : nat;
  expanded_items : gset nat;
  expanded_arguments : gset nat;
  expanded_backtraces : gset nat;
  last_visible_height : nat;
  hidden_syscalls : gset string;
  show_hidden : bool;
  search_state : SearchState
}.

Definition with_lines (a : App) (dls : list DisplayLine.t) (sel scr : nat) (ss : SearchState) : App :=
  {| entries := entries a; display_lines := dls; selected_line := sel; scroll_offset := scr;
     expanded_items := expanded_items a; expanded_arguments := expanded_arguments a;
     expanded_backtraces := expanded_backtraces a; last_visible_height := last_visible_height a;
     hidden_syscalls := hidden_syscalls a; show_hidden := show_hidden a; search_state := ss |}.

Definition with_show_hidden (a : App) (b : bool) : App :=
  {| entries := entries a; display_lines := display_lines a; selected_line := selected_line a;
     scroll_offset := scroll_offset a; expanded_items := expanded_items a;
     expanded_arguments := expanded_arguments a; expanded_backtraces := expanded_backtraces a;
     last_visible_height := last_visible_height a; hidden_syscalls := hidden_syscalls a;
     show_hidden := b; search_state := search_state a |}.

Definition with_matches (ss : SearchState) (ms : list nat) (cur : nat) : SearchState :=
  {| active := active ss; query := query ss; matches := ms; current_match_idx := cur;
     original_position := original_position ss; original_scroll := original_scroll ss |}.

(** The top-level detail items of an expanded entry, in display order. *)
Inductive Item := IArguments | IReturn | IError | IDuration | ISignal | IExit | IReference | IBacktrace.

Definition is_Some_b {A} (o : option A) : bool := match o with Some _ => true | None => false end.

Definition opt_item (b : bool) (it : Item) : list Item := if b then [it] else [].

Definition items_of (entry : SyscallEntry) : list Item :=
  opt_item (negb (length (arguments entry) =? 0)) IArguments ++
  opt_item (is_Some_b (return_value entry)) IReturn ++
  opt_item (is_Some_b (errno entry)) IError ++
  opt_item (is_Some_b (duration entry)) IDuration ++
  opt_item (is_Some_b (signal entry)) ISignal ++
  opt_item (is_Some_b (exit_info entry)) IExit ++
  opt_item (is_Some_b (unfinished_entry_idx entry) || is_Some_b (resumed_entry_idx entry)) IReference ++
  opt_item (negb (length (backtrace entry) =? 0)) IBacktrace.

(** [(0..n).map(|i| is_last = i == n - 1)] for the children of a node. *)
Fixpoint enumerate_from {A} (i : nat) (l : list A) : list (nat * A) :=
  match l with
  | [] => []
  | x :: l' => (i, x) :: enumerate_from (S i) l'
  end.

Definition argument_lines (idx : nat) (entry : SyscallEntry) (prefix : TreePrefix)
    (is_last : bool) : list DisplayLine.t :=
  let args := split_arguments (arguments entry) in
  let nested_base := build_nested_prefix prefix is_last in
  map (fun '(arg_idx, _) =>
         DisplayLine.ArgumentLine idx arg_idx
           (build_tree_prefix nested_base (arg_idx =? length args - 1)) false)
      (enumerate_from 0 args).

(** [all_frames]: resolved frames replace the raw frame they come from. *)
Definition all_frames (entry : SyscallEntry) : list (nat * option nat) :=
  flat_map (fun '(frame_idx, frame) =>
              match resolved frame with
              | Some rs => map (fun r => (frame_idx, Some r)) (seq 0 (length rs))
              | None => [(frame_idx, None)]
              end)
           (enumerate_from 0 (backtrace entry)).

Definition backtrace_lines (idx : nat) (entry : SyscallEntry) (prefix : TreePrefix)
    (is_last : bool) : list DisplayLine.t :=
  let nested_base := build_nested_prefix prefix is_last in
  let fs := all_frames entry in
  map (fun '(idx_in_list, (frame_idx, ro)) =>
         let item_prefix := build_tree_prefix nested_base (idx_in_list =? length fs - 1) in
         match ro with
         | Some resolved_idx => DisplayLine.BacktraceResolved idx frame_idx resolved_idx item_prefix false
         | None => DisplayLine.BacktraceFrame idx frame_idx item_prefix false
         end)
      (enumerate_from 0 fs).

Definition item_lines (a : App) (idx : nat) (entry : SyscallEntry) (it : Item)
    (prefix : TreePrefix) (is_last : bool) : list DisplayLine.t :=
  match it with
  | IArguments =>
      DisplayLine.ArgumentsHeader idx prefix false ::
      (if bool_decide (idx ∈ expanded_arguments a) then argument_lines idx entry prefix is_last else [])
  | IReturn => [DisplayLine.ReturnValue idx prefix false]
  | IError => [DisplayLine.Error idx prefix false]
  | IDuration => [DisplayLine.Duration idx prefix false]
  | ISignal => [DisplayLine.Signal idx prefix false]
  | IExit => [DisplayLine.Exit idx prefix false]
  | IReference => [DisplayLine.EntryReference idx prefix false]
  | IBacktrace =>
      DisplayLine.BacktraceHeader idx prefix false ::
      (if bool_decide (idx ∈ expanded_backtraces a) then backtrace_lines idx entry prefix is_last else [])
  end.

Fixpoint details_from (a : App) (idx : nat) (entry : SyscallEntry) (total_items item_idx : nat)
    (its : list Item) : list DisplayLine.t :=
  match its with
  | [] => []
  | it :: its' =>
      let is_last := item_idx =? total_items - 1 in
      item_lines a idx entry it (build_tree_prefix base_prefix is_last) is_last ++
      details_from a idx entry total_items (S item_idx) its'
  end.

Definition entry_lines (a : App) (idx : nat) (entry : SyscallEntry) : list DisplayLine.t :=
  let is_hidden := bool_decide (string_of_list_ascii (syscall_name entry) ∈ hidden_syscalls a) in
  if is_hidden && negb (show_hidden a) then []
  else DisplayLine.SyscallHeader idx is_hidden false ::
       (if bool_decide (idx ∈ expanded_items a)
        then let its := items_of entry in details_from a idx entry (length its) 0 its
        else []).

Definition build_display_lines (a : App) : list DisplayLine.t :=
  flat_map (fun '(idx, entry) => entry_lines a idx entry) (enumerate_from 0 (entries a)).

(** [Display] of unsigned and signed integers and of [bool]. *)
Definition fmt_N (n : N) : str := txt (DecimalString.NilZero.string_of_uint (N.to_uint n)).
Definition fmt_nat (n : nat) : str := fmt_N (N.of_nat n).
Definition fmt_Z (z : Z) : str := if (z <? 0)%Z then txt "-" ++ fmt_N (Z.to_N (- z)) else fmt_N (Z.to_N z).
Definition fmt_bool (b : bool) : str := if b then txt "true" else txt "false".

Definition get_line_text (a : App) (line : DisplayLine.t) : str :=
  (* [self.entries[*entry_idx]]: the index always comes from the
     enumeration of [entries], so the [None] arm is not reached. *)
  let with_entry (i : nat) (k : SyscallEntry -> str) : str :=
    match entries a !! i with Some e => k e | None => [] end in
  match line with
  | DisplayLine.SyscallHeader i _ _ =>
      with_entry i (fun e => syscall_name e ++ txt " " ++ arguments e ++ txt " " ++
                             default [] (return_value e))
  | DisplayLine.ArgumentLine i arg_idx _ _ =>
      with_entry i (fun e => default [] (split_arguments (arguments e) !! arg_idx))
  | DisplayLine.ArgumentsHeader _ _ _ => txt "Arguments"
  | DisplayLine.ReturnValue i _ _ =>
      with_entry i (fun e => txt "Return: " ++ default (txt "?") (return_value e))
  | DisplayLine.Error i _ _ =>
      with_entry i (fun e => match errno e with
                             | Some er => txt "Error: " ++ code er ++ txt " " ++ message er
                             | None => [] end)
  | DisplayLine.Signal i _ _ =>
      with_entry i (fun e => match signal e with
                             | Some sg => txt "Signal: " ++ signal_name sg
                             | None => [] end)
  | DisplayLine.Exit i _ _ =>
      with_entry i (fun e => match exit_info e with
                             | Some ex => txt "Exit: code=" ++ fmt_Z (exit_code ex) ++
                                          txt " killed=" ++ fmt_bool (killed ex)
                             | None => [] end)
  | DisplayLine.EntryReference i _ _ =>
      with_entry i (fun e => match unfinished_entry_idx e, resumed_entry_idx e with
                             | Some u, _ => txt "Resumed from entry #" ++ fmt_nat (u + 1)
                             | None, Some r => txt "See resumed in entry #" ++ fmt_nat (r + 1)
                             | None, None => [] end)
  | DisplayLine.BacktraceHeader _ _ _ => txt "Backtrace"
  | DisplayLine.BacktraceFrame i fi _ _ =>
      with_entry i (fun e => match backtrace e !! fi with
                             | Some f => binary f ++ txt " " ++ address f
                             | None => [] end)
  | DisplayLine.BacktraceResolved i fi ri _ _ =>
      with_entry i (fun e => match backtrace e !! fi with
                             | Some f => match resolved f with
                                         | Some rs => match rs !! ri with
                                                      | Some r => rf_function r ++ txt " " ++ file r ++
                                                                  txt ":" ++ fmt_N (rf_line r)
                                                      | None => [] end
                                         | None => [] end
                             | None => [] end)
  | DisplayLine.Duration _ _ _ => []
  end.

(** The indices of the [true] flags, in order. *)
Fixpoint true_indices (i : nat) (flags : list bool) : list nat :=
  match flags with
  | [] => []
  | b :: fl => if b then i :: true_indices (S i) fl else true_indices (S i) fl
  end.

Definition ensure_visible (a : App) : App :=
  let sel := selected_line a in
  let scr := if sel <? scroll_offset a then sel
             else if scroll_offset a + last_visible_height a <=? sel
                  then sel - last_visible_height a + 1
                  else scroll_offset a in
  with_lines a (display_lines a) sel scr (search_state a).

(** [update_search_matches_internal] for the lowercase mapping [lower]
    of [str::to_lowercase]. *)
Definition update_search_matches_with (lower : str -> str) (a : App) (move_cursor : bool) : App :=
  let ss := search_state a in
  if length (query ss) =? 0 then
    with_lines a (map (fun l => DisplayLine.set_search_match l false) (display_lines a))
      (selected_line a) (scroll_offset a) (with_matches ss [] (current_match_idx ss))
  else
    let query_lower := lower (query ss) in
    let flags := map (fun l => contains query_lower (lower (get_line_text a l)))
                     (display_lines a) in
    let dls := zip_with DisplayLine.set_search_match (display_lines a) flags in
    let ms := true_indices 0 flags in
    match ms with
    | [] => with_lines a dls (selected_line a) (scroll_offset a) (with_matches ss [] (current_match_idx ss))
    | _ =>
        let match_idx := default 0 (position (fun i => selected_line a <=? i) ms) in
        let a1 := with_lines a dls (selected_line a) (scroll_offset a) (with_matches ss ms match_idx) in
        if move_cursor
        then ensure_visible (with_lines a1 dls (default 0 (ms !! match_idx)) (scroll_offset a1) (search_state a1))
        else a1
    end.

(** The search with [str::to_lowercase] taken on ASCII. *)
Definition update_search_matches_internal (a : App) (move_cursor : bool) : App :=
  update_search_matches_with to_lowercase a move_cursor.

Definition rebuild_display_lines (a : App) : App :=
  let current_entry_idx := option_map DisplayLine.entry_idx (display_lines a !! selected_line a) in
  let cursor_screen_pos := selected_line a - scroll_offset a in
  let dls := build_display_lines a in
  let sel := if (length dls <=? selected_line a) && negb (length dls =? 0)
             then length dls - 1 else selected_line a in
  let a1 := with_lines a dls sel (scroll_offset a) (search_state a) in
  let a2 := match matches (search_state a1) with
            | [] => a1
            | _ => update_search_matches_internal a1 false
            end in
  match current_entry_idx with
  | Some ei =>
      let keep := match display_lines a2 !! selected_line a2 with
                  | Some x => DisplayLine.entry_idx x =? ei
                  | None => false
                  end in
      if keep then a2
      else
        let s := default 0 (position (fun l => ei <=? DisplayLine.entry_idx l) (display_lines a2)) in
        with_lines a2 (display_lines a2) s (s - cursor_screen_pos) (search_state a2)
  | None => a2
  end.

Definition toggle_show_hidden (a : App) : App :=
  rebuild_display_lines (with_show_hidden a (negb (show_hidden a))).

(** Rendering (tui/ui.rs).  The box-drawing glyphs are written as their
    UTF-8 bytes: U+2502 is E2 94 82, U+251C is E2 94 9C, U+2514 is
    E2 94 94 and U+2500 is E2 94 80. *)
Definition bytes (l : list nat) : str := map ascii_of_nat l.

Fixpoint prefix_elems_to_string (ps : TreePrefix) : str :=
  match ps with
  | [] => []
  | Null :: _ => []
  | Space :: ps' => txt "   " ++ prefix_elems_to_string ps'
  | Vertical :: ps' => bytes [226; 148; 130] ++ txt "  " ++ prefix_elems_to_string ps'
  | Branch :: ps' => bytes [226; 148; 156; 226; 148; 128] ++ txt " " ++ prefix_elems_to_string ps'
  | LastBranch :: ps' => bytes [226; 148; 148; 226; 148; 128] ++ txt " " ++ prefix_elems_to_string ps'
  end.

Definition tree_prefix_to_string (prefix : TreePrefix) : str := txt "  " ++ prefix_elems_to_string prefix.

Definition zero_pad (width : nat) (t : str) : str := repeat "0"%char (width - length t) ++ t.

(** [format!("{:.6}", x)] on the rational [x]: rounded to six decimals,
    half to even. *)
Definition fmt6 (x : Q) : str :=
  let neg := Qlt_le_dec x 0 in
  let ax := Qabs x in
  let scaled := Qmult ax (inject_Z (10 ^ 6)) in
  let n := Qfloor scaled in
  let r := Qminus scaled (inject_Z n) in
  let n' := if Qlt_le_dec (1 # 2) r then (n + 1)%Z
            else if Qeq_bool r (1 # 2) then (if Z.odd n then n + 1 else n)%Z else n in
  let sign := match neg with left _ => txt "-" | right _ => [] end in
  sign ++ fmt_Z (n' / 10 ^ 6) ++ txt "." ++ zero_pad 6 (fmt_Z (n' mod 10 ^ 6)).

(** The row the renderer draws for a [Duration] line; [None] when the
    entry has no duration (the row is skipped). *)
Definition render_duration_row (a : App) (line : DisplayLine.t) : option str :=
  match line with
  | DisplayLine.Duration i prefix _ =>
      match entries a !! i with
      | Some e => match duration e with
                  | Some dur => Some (tree_prefix_to_string prefix ++ txt "Duration: " ++ fmt6 dur ++ txt "s")
                  | None => None
                  end
      | None => None
      end
  | _ => None
  end.

(* ================================================================= *)
(** ** Further code: graph rows, parser invariants, resolver loop, navigation, filter list *)

Definition get_color_for_column (column : nat) : Color :=
  nth (column mod length GRAPH_COLORS) GRAPH_COLORS White.

(** [is_active_at]: [processes.values().any(..)]; [any] does not depend
    on the iteration order. *)
Definition is_active_at (g : ProcessGraph) (column entry_idx : nat) : bool :=
  existsb (fun '(_, info) => (pcolumn info =? column) && (first_entry_idx info <=? entry_idx)
                             && (entry_idx <=? last_entry_idx info))
          (map_to_list (processes g)).

(** The glyphs of the graph, as Unicode scalar values. *)
Definition ch_star : N := 42.
Definition ch_hline : N := 9472.   (* U+2500 *)
Definition ch_vline : N := 9474.   (* U+2502 *)
Definition ch_fork : N := 9488.    (* U+2510 *)
Definition ch_wait : N := 9496.    (* U+2518 *)
Definition ch_space : N := 32.

(** [arguments.split(',').next()]: the text before the first comma. *)
Definition first_comma_piece (t : str) : str :=
  fst (take_while (fun c => negb (ascii_eqb c ",")) t).

Definition render_graph_for_entry (g : ProcessGraph) (entry_idx : nat) (entry : SyscallEntry)
    : list (N * Color) :=
  if negb (enabled g) then [] else
  let p := pid entry in
  let child_pid := if is_fork_syscall (syscall_name entry) then positive_return entry else None in
  let keep (w : Z) := (0 <? w)%Z && negb (w =? p)%Z in
  let filt (o : option Z) := match o with Some w => if keep w then Some w else None | None => None end in
  let waited_pid :=
    if is_wait_syscall (syscall_name entry) then
      match filt (match return_value entry with Some r => parse_u32 (trim r) | None => None end) with
      | Some w => Some w
      | None => filt (parse_u32 (trim (first_comma_piece (arguments entry))))
      end
    else None in
  let col_of (q : Z) := match processes g !! q with Some i => pcolumn i | None => 0 end in
  let current_column := col_of p in
  let cell (other : nat) (corner : N) (col : nat) : N :=
    let min_col := Nat.min current_column other in
    let max_col := Nat.max current_column other in
    if col =? current_column then ch_star
    else if (min_col <? col) && (col <? max_col) then ch_hline
    else if col =? other then corner
    else if is_active_at g col entry_idx then ch_vline
    else ch_space in
  map (fun col =>
         let glyph :=
           match child_pid with
           | Some child => cell (col_of child) ch_fork col
           | None =>
               match waited_pid with
               | Some w => cell (col_of w) ch_wait col
               | None => if col =? current_column then ch_star
                         else if is_active_at g col entry_idx then ch_vline
                         else ch_space
               end
           end in
         (glyph, get_color_for_column col))
      (seq 0 (max_columns g)).

Definition count_starts (l : list Event) : nat := length (List.filter (fun x => negb (ev_end x)) l).



Definition avoids (p w : str) : bool := forallb (fun x => forallb (fun y => negb (ascii_eqb y x)) p) w.

Definition no_paren (c : ascii) : bool := negb (ascii_eqb c "(" || ascii_eqb c ")").

Definition digits_ok (t : str) : bool := negb (length t =? 0) && forallb is_digit t.

Definition plain (c : ascii) : bool :=
  is_name_char c || ascii_eqb c " " || ascii_eqb c ":" || ascii_eqb c "(".

Section ResolverFrames.
Context {Loader : Type}.
Variable loader_new : str -> option Loader.
Variable find_frames : Loader -> Z -> option (list FrameStep).

(** [resolve_frames]: [resolve_frame] on each frame in order. *)
Fixpoint resolve_frames (st : Addr2LineResolver Loader) (fs : list BacktraceFrame)
    : Addr2LineResolver Loader * list BacktraceFrame :=
  match fs with
  | [] => (st, [])
  | f :: fs' =>
      let '(st1, f1) := resolve_frame loader_new find_frames st f in
      let '(st2, fs2) := resolve_frames st1 fs' in
      (st2, f1 :: fs2)
  end.

Definition cache_size (st : Addr2LineResolver Loader) : nat := size (cache st).

End ResolverFrames.

Definition scroll_page (a : App) (up half : bool) : App :=
  let len := length (display_lines a) in
  if len =? 0 then a else
  let h := last_visible_height a in
  let page_size := if half then h / 2 else h in
  let '(scr, sel) :=
    if up then
      let amount := Nat.min page_size (scroll_offset a) in
      (scroll_offset a - amount, selected_line a - amount)
    else
      let max_scroll := len - h in
      let amount := Nat.min page_size (max_scroll - scroll_offset a) in
      (Nat.min (scroll_offset a + amount) max_scroll, Nat.min (selected_line a + amount) (len - 1)) in
  let min_visible := scr in
  let max_visible := Nat.min (scr + h) len - 1 in
  let sel := if sel <? min_visible then min_visible
             else if max_visible <? sel then max_visible else sel in
  with_lines a (display_lines a) sel scr (search_state a).

(** [iter().rposition(pred)]: the index, from the front, of the last
    element satisfying [pred]. *)
Definition rposition {A} (p : A -> bool) (l : list A) : option nat :=
  match position p (rev l) with
  | Some k => Some (length l - 1 - k)
  | None => None
  end.

Definition search_next (a : App) : App :=
  let ss := search_state a in
  match matches ss with
  | [] => a
  | _ =>
      let cur := match position (fun i => selected_line a <? i) (matches ss) with
                 | Some m => m
                 | None => 0
                 end in
      let line := default 0 (matches ss !! cur) in
      ensure_visible (with_lines a (display_lines a) line (scroll_offset a)
                        (with_matches ss (matches ss) cur))
  end.

Definition search_previous (a : App) : App :=
  let ss := search_state a in
  match matches ss with
  | [] => a
  | _ =>
      let cur := match rposition (fun i => i <? selected_line a) (matches ss) with
                 | Some m => m
                 | None => length (matches ss) - 1
                 end in
      let line := default 0 (matches ss !! cur) in
      ensure_visible (with_lines a (display_lines a) line (scroll_offset a)
                        (with_matches ss (matches ss) cur))
  end.

Definition entry_visible (a : App) (entry : SyscallEntry) : bool :=
  negb (bool_decide (string_of_list_ascii (syscall_name entry) ∈ hidden_syscalls a) && negb (show_hidden a)).

Definition is_header (l : DisplayLine.t) : bool :=
  match l with DisplayLine.SyscallHeader _ _ _ => true | _ => false end.

Definition detail_of (idx : nat) (l : DisplayLine.t) : Prop :=
  DisplayLine.entry_idx l = idx /\ is_header l = false.

(** [App::new]: the per-name counts of the non-empty syscall names,
    [HashMap::entry(..).or_insert(0) += 1]. *)
Definition count_step (m : gmap string nat) (e : SyscallEntry) : gmap string nat :=
  if length (syscall_name e) =? 0 then m
  else let k := string_of_list_ascii (syscall_name e) in
       <[k := default 0 (m !! k) + 1]> m.

Definition syscall_counts (es : list SyscallEntry) : gmap string nat :=
  foldl count_step ∅ es.

Definition name_le (x y : string * nat) : Prop := Stdlib.Strings.String.leb x.1 y.1 = true.

#[global] Instance name_le_dec : RelDecision name_le.
Proof. intros x y. unfold name_le. apply _. Defined.

(** [syscall_counts.into_iter().collect()] followed by the stable
    [sort_by(|a, b| a.0.cmp(&b.0))]; [String]'s order is the byte-wise
    lexicographic one, which is [String.compare] on these byte strings.
    The names are distinct, so the order in which the map is read does
    not change the result. *)
Definition syscall_list (es : list SyscallEntry) : list (string * nat) :=
  merge_sort name_le (map_to_list (syscall_counts es)).

Definition name_count (n : string) (es : list SyscallEntry) : nat :=
  length (List.filter (fun e => Stdlib.Strings.String.eqb (string_of_list_ascii (syscall_name e)) n) es).

(* ================================================================= *)
(** * Properties *)

(* ----------------------------------------------------------------- *)
(** ** [split_arguments] *)

Lemma ascii_eqb_true a b : ascii_eqb a b = true -> a = b.
Proof. unfold ascii_eqb. apply Ascii.eqb_eq. Qed.







(** Trimming on the UTF-8 encodings of the whitespace characters. *)
Lemma str_len_ind (P : str -> Prop) :
  (forall t, (forall u, length u < length t -> P u) -> P t) -> forall t, P t.
Proof.
  intros H t. remember (length t) as n eqn:En. revert t En.
  induction n as [n IH] using lt_wf_ind. intros t ->. apply H.
  intros u Hu. exact (IH _ Hu u eq_refl).
Qed.

Section Strip.
Variables (w1 : ascii -> bool) (w2 : ascii -> ascii -> bool) (w3 : ascii -> ascii -> ascii -> bool).

Lemma strip_stop t : starts_pat w1 w2 w3 t = false -> strip w1 w2 w3 t = t.
Proof.
  destruct t as [|c [|d [|e r]]]; cbn; intros H; [reflexivity| | |];
    destruct (w1 c); try discriminate; try reflexivity;
    destruct (w2 c d); try discriminate; try reflexivity;
    destruct (w3 c d e); try discriminate; reflexivity.
Qed.






Lemma strip_snoc l c : w1 c = false -> (forall x, w2 x c = false) -> (forall x y, w3 x y c = false) ->
  strip w1 w2 w3 (l ++ [c]) = strip w1 w2 w3 l ++ [c].
Proof.
  intros H1 H2 H3. induction l as [l IH] using str_len_ind.
  destruct l as [|x r]; [cbn; rewrite H1; reflexivity|].
  rewrite <- app_comm_cons. cbn [strip].
  destruct (w1 x); [apply IH; simpl; lia|].
  destruct r as [|d r']; [cbn; rewrite H2; reflexivity|]. cbn [app].
  destruct (w2 x d); [apply IH; simpl; lia|].
  destruct r' as [|e r'']; [cbn; rewrite H3; reflexivity|]. cbn [app].
  destruct (w3 x d e); [apply IH; simpl; lia|reflexivity].
Qed.

End Strip.

Lemma ws_ascii x y z : nat_of_ascii x < 128 ->
  ws2 x y = false /\ ws2 y x = false /\ ws3 x y z = false /\ ws3 y x z = false /\ ws3 y z x = false.
Proof.
  intros H. unfold ws2, ws3. cbv zeta.
  repeat match goal with
  | |- context [nat_of_ascii x =? ?k] =>
      replace (nat_of_ascii x =? k) with false by (symmetry; apply Nat.eqb_neq; lia)
  | |- context [?k <=? nat_of_ascii x] =>
      replace (k <=? nat_of_ascii x) with false by (symmetry; apply Nat.leb_gt; lia)
  end.
  rewrite ?andb_false_r, ?andb_false_l, ?orb_false_r, ?orb_false_l, ?andb_false_r.
  repeat split.
Qed.



Lemma starts_ws_stop x t : is_whitespace x = false -> nat_of_ascii x < 128 -> starts_ws (x :: t) = false.
Proof.
  intros Hw Hx. unfold starts_ws. cbn. rewrite Hw.
  destruct t as [|d [|e r]]; [reflexivity| |].
  - destruct (ws_ascii x d d Hx) as (H1 & _). rewrite H1. reflexivity.
  - destruct (ws_ascii x d e Hx) as (H1 & _ & H3 & _). rewrite H1, H3. reflexivity.
Qed.

Lemma trim_start_stop x t : is_whitespace x = false -> nat_of_ascii x < 128 -> trim_start (x :: t) = x :: t.
Proof. intros Hw Hx. apply strip_stop, starts_ws_stop; assumption. Qed.


Lemma trim_snoc l c : is_whitespace c = false -> nat_of_ascii c < 128 ->
  trim (l ++ [c]) = trim_start l ++ [c].
Proof.
  intros Hw Hc. unfold trim, trim_start.
  rewrite strip_snoc; [|exact Hw|intros x; apply (ws_ascii c x x Hc)|intros x y; apply (ws_ascii c x y Hc)].
  unfold trim_end. rewrite rev_app_distr. cbn [rev app]. rewrite strip_stop; [cbn [rev]; rewrite rev_involutive; reflexivity|].
  cbn. rewrite Hw. destruct (rev (strip is_whitespace ws2 ws3 l)) as [|d [|e r]]; [reflexivity| |].
  - destruct (ws_ascii c d d Hc) as (_ & H2 & _). rewrite H2. reflexivity.
  - destruct (ws_ascii c d e Hc) as (_ & H2 & _). destruct (ws_ascii c e d Hc) as (_ & _ & _ & _ & H5).
    rewrite H2, H5. reflexivity.
Qed.
















(* ----------------------------------------------------------------- *)
(** ** Search and rebuild of the display-line list *)
Lemma true_indices_map {A} (g : A -> bool) (l : list A) k :
  true_indices k (map g l) =
  List.filter (fun i => match l !! (i - k) with Some x => g x | None => false end) (seq k (length l)).
Proof.
  revert k. induction l as [|x l IH]; intros k; simpl; [reflexivity|].
  rewrite Nat.sub_diag. simpl. rewrite IH.
  assert (Hf : List.filter (fun i => match l !! (i - S k) with Some x0 => g x0 | None => false end) (seq (S k) (length l))
             = List.filter (fun i => match (x :: l) !! (i - k) with Some x0 => g x0 | None => false end) (seq (S k) (length l))).
  { apply filter_ext_in. intros i Hi. apply in_seq in Hi.
    replace (i - k) with (S (i - S k)) by lia. reflexivity. }
  rewrite Hf. destruct (g x); reflexivity.
Qed.

Lemma contains_nil p : p <> [] -> contains p [] = false.
Proof. destruct p; [congruence|]. intros _. reflexivity. Qed.

Lemma update_search_matches_with_matches lower a mv :
  matches (search_state (update_search_matches_with lower a mv)) =
  if length (query (search_state a)) =? 0 then []
  else true_indices 0 (map (fun l => contains (lower (query (search_state a)))
                                              (lower (get_line_text a l))) (display_lines a)).
Proof.
  unfold update_search_matches_with.
  destruct (length (query (search_state a)) =? 0); [reflexivity|].
  destruct (true_indices 0 _) eqn:E; [reflexivity|].
  destruct mv; reflexivity.
Qed.

(** C8: for any lowercase mapping [lower] that, as [str::to_lowercase],
    sends the empty text to itself and a non-empty text to a non-empty
    one, and for a non-empty query, the search matches are exactly the
    indices of the display lines whose [get_line_text], lowercased,
    contains the lowercased query, in increasing order; a [Duration]
    line, whose [get_line_text] is empty, never matches; an empty query
    clears the matches. *)
Theorem C8_search_text (lower : str -> str) (Hnil : lower [] = [])
    (Hne : forall t, t <> [] -> lower t <> []) (a : App) (mv : bool) :
  (query (search_state a) = [] ->
   matches (search_state (update_search_matches_with lower a mv)) = []) /\
  (query (search_state a) <> [] ->
   matches (search_state (update_search_matches_with lower a mv)) =
     List.filter (fun i => match display_lines a !! i with
                           | Some l => contains (lower (query (search_state a)))
                                                (lower (get_line_text a l))
                           | None => false end)
                 (seq 0 (length (display_lines a))) /\
   (forall i ei p b, display_lines a !! i = Some (DisplayLine.Duration ei p b) ->
      ~ In i (matches (search_state (update_search_matches_with lower a mv))))).
Proof.
  rewrite update_search_matches_with_matches. split.
  - intros ->. reflexivity.
  - intros Hq.
    assert (Hl : (length (query (search_state a)) =? 0) = false).
    { destruct (query (search_state a)); [congruence|reflexivity]. }
    rewrite Hl, true_indices_map.
    assert (Heq : List.filter (fun i => match display_lines a !! (i - 0) with
                   | Some x => contains (lower (query (search_state a))) (lower (get_line_text a x))
                   | None => false end) (seq 0 (length (display_lines a)))
             = List.filter (fun i => match display_lines a !! i with
                   | Some l => contains (lower (query (search_state a))) (lower (get_line_text a l))
                   | None => false end) (seq 0 (length (display_lines a)))).
    { apply filter_ext. intros i. rewrite Nat.sub_0_r. reflexivity. }
    rewrite Heq. split; [reflexivity|].
    intros i ei p b Hi Hin. apply filter_In in Hin as [_ Hc].
    rewrite Hi in Hc. simpl in Hc. rewrite Hnil, contains_nil in Hc; [discriminate|].
    apply Hne, Hq.
Qed.

Lemma C8_cex :
  let a0 := {| entries := [set_outcome (SyscallEntry_new 1 (txt "10:00:00") (txt "nanosleep"))
                             None None (Some (1 # 1000))];
               display_lines := []; selected_line := 0; scroll_offset := 0;
               expanded_items := {[0]}; expanded_arguments := ∅; expanded_backtraces := ∅;
               last_visible_height := 20; hidden_syscalls := ∅; show_hidden := false;
               search_state := {| active := true; query := txt "duration"; matches := [];
                                  current_match_idx := 0; original_position := 0;
                                  original_scroll := 0 |} |} in
  let a := with_lines a0 (build_display_lines a0) 0 0 (search_state a0) in
  display_lines a !! 1 = Some (DisplayLine.Duration 0 [LastBranch; Null; Null; Null] false) /\
  render_duration_row a (DisplayLine.Duration 0 [LastBranch; Null; Null; Null] false) =
    Some (tree_prefix_to_string [LastBranch; Null; Null; Null] ++ txt "Duration: 0.001000s") /\
  contains (to_lowercase (query (search_state a)))
    (to_lowercase (tree_prefix_to_string [LastBranch; Null; Null; Null] ++ txt "Duration: 0.001000s")) = true /\
  ~ In 1 (matches (search_state (update_search_matches_internal a true))).
Proof.
  vm_compute. split; [reflexivity|]. split; [reflexivity|]. split; [reflexivity|]. intros [].
Qed.

Lemma update_search_matches_internal_cursor a :
  selected_line (update_search_matches_internal a false) = selected_line a /\
  scroll_offset (update_search_matches_internal a false) = scroll_offset a /\
  length (display_lines (update_search_matches_internal a false)) = length (display_lines a).
Proof.
  unfold update_search_matches_internal, update_search_matches_with.
  destruct (length (query (search_state a)) =? 0); simpl.
  - rewrite length_map. auto.
  - destruct (true_indices 0 _); simpl; rewrite length_zip_with, length_map, Nat.min_id; auto.
Qed.

(** C7: after [rebuild_display_lines] the cursor is on a line whenever
    there is one; the scroll offset is left as it was, or, when the
    cursor is moved back to its entry, set to the new cursor line minus
    the cursor's previous screen row.  No bound in terms of the visible
    height is applied. *)
Theorem C7_rebuild_cursor (a : App) :
  (display_lines (rebuild_display_lines a) <> [] ->
   selected_line (rebuild_display_lines a) < length (display_lines (rebuild_display_lines a))) /\
  (scroll_offset (rebuild_display_lines a) = scroll_offset a \/
   scroll_offset (rebuild_display_lines a) =
     selected_line (rebuild_display_lines a) - (selected_line a - scroll_offset a)).
Proof.
  unfold rebuild_display_lines.
  set (dls := build_display_lines a).
  set (sel := if (length dls <=? selected_line a) && negb (length dls =? 0)
              then length dls - 1 else selected_line a).
  set (a1 := with_lines a dls sel (scroll_offset a) (search_state a)).
  assert (H1 : dls <> [] -> sel < length dls).
  { intros Hne. subst sel. destruct dls as [|x l]; [congruence|]. simpl length.
    destruct (S (length l) <=? selected_line a) eqn:E; simpl.
    - lia.
    - apply Nat.leb_gt in E. exact E. }
  set (a2 := match matches (search_state a1) with [] => a1 | _ => update_search_matches_internal a1 false end).
  assert (H2 : selected_line a2 = sel /\ scroll_offset a2 = scroll_offset a /\
               length (display_lines a2) = length dls).
  { subst a2. destruct (matches (search_state a1)).
    - subst a1. simpl. auto.
    - destruct (update_search_matches_internal_cursor a1) as (-> & -> & ->). subst a1. simpl. auto. }
  destruct H2 as (Hs & Hsc & Hl).
  assert (Hpos : forall P, display_lines a2 <> [] ->
            default 0 (position P (display_lines a2)) < length (display_lines a2)).
  { intros P. generalize (display_lines a2). intros l Hne.
    destruct l as [|x l]; [congruence|]. simpl.
    destruct (P x); simpl; [lia|].
    assert (forall l', default 0 (option_map S (position P l')) <= length l').
    { induction l' as [|y l' IH]; simpl; [lia|]. destruct (P y); simpl; [lia|].
      destruct (position P l'); simpl in *; lia. }
    specialize (H l). lia. }
  destruct (option_map DisplayLine.entry_idx (display_lines a !! selected_line a)) as [ei|].
  - destruct (match display_lines a2 !! selected_line a2 with
              | Some x => DisplayLine.entry_idx x =? ei | None => false end); simpl.
    + split; [|left; exact Hsc]. intros Hne. rewrite Hs.
      assert (dls <> []) by (intros E; apply Hne; apply length_zero_iff_nil; rewrite Hl, E; reflexivity).
      rewrite Hl. auto.
    + split; [apply Hpos|right; reflexivity].
  - split; [|left; exact Hsc]. intros Hne. rewrite Hs.
    assert (dls <> []) by (intros E; apply Hne; apply length_zero_iff_nil; rewrite Hl, E; reflexivity).
    rewrite Hl. auto.
Qed.

Lemma C7_cex :
  let a0 := {| entries := [SyscallEntry_new 1 (txt "10:00:00") (txt "read");
                           SyscallEntry_new 1 (txt "10:00:01") (txt "write");
                           SyscallEntry_new 1 (txt "10:00:02") (txt "close")];
               display_lines := []; selected_line := 1; scroll_offset := 1;
               expanded_items := ∅; expanded_arguments := ∅; expanded_backtraces := ∅;
               last_visible_height := 2; hidden_syscalls := {["close"%string]}; show_hidden := true;
               search_state := {| active := false; query := []; matches := [];
                                  current_match_idx := 0; original_position := 0;
                                  original_scroll := 0 |} |} in
  let a := with_lines a0 (build_display_lines a0) 1 1 (search_state a0) in
  let a' := toggle_show_hidden a in
  length (display_lines a) = 3 /\ scroll_offset a <= length (display_lines a) - last_visible_height a /\
  length (display_lines a') = 2 /\ last_visible_height a' = 2 /\ selected_line a' = 1 /\
  scroll_offset a' = 1 /\ length (display_lines a') - last_visible_height a' = 0.
Proof. vm_compute. repeat split; lia. Qed.

Lemma C7_rebuild_cursor_witness :
  let a := {| entries := [SyscallEntry_new 1 (txt "10:00:00") (txt "read")];
              display_lines := [DisplayLine.SyscallHeader 0 false false]; selected_line := 3;
              scroll_offset := 0; expanded_items := ∅; expanded_arguments := ∅;
              expanded_backtraces := ∅; last_visible_height := 2; hidden_syscalls := ∅;
              show_hidden := false;
              search_state := {| active := false; query := []; matches := [];
                                 current_match_idx := 0; original_position := 0;
                                 original_scroll := 0 |} |} in
  display_lines (rebuild_display_lines a) <> [] /\
  selected_line (rebuild_display_lines a) < length (display_lines (rebuild_display_lines a)).
Proof.
  intros a.
  assert (H : display_lines (rebuild_display_lines a) <> []) by (vm_compute; discriminate).
  split; [exact H|]. exact (proj1 (C7_rebuild_cursor a) H).
Defined.

Lemma C8_search_text_witness :
  let a := {| entries := [SyscallEntry_new 1 (txt "10:00:00") (txt "read");
                          SyscallEntry_new 1 (txt "10:00:01") (txt "write")];
              display_lines := [DisplayLine.SyscallHeader 0 false false;
                                DisplayLine.SyscallHeader 1 false false];
              selected_line := 0; scroll_offset := 0; expanded_items := ∅;
              expanded_arguments := ∅; expanded_backtraces := ∅; last_visible_height := 2;
              hidden_syscalls := ∅; show_hidden := false;
              search_state := {| active := true; query := txt "WRI"; matches := [];
                                 current_match_idx := 0; original_position := 0;
                                 original_scroll := 0 |} |} in
  to_lowercase [] = [] /\ (forall t, t <> [] -> to_lowercase t <> []) /\
  query (search_state a) <> [] /\
  matches (search_state (update_search_matches_with to_lowercase a true)) = [1].
Proof.
  intros a.
  assert (H0 : to_lowercase [] = []) by reflexivity.
  assert (H1 : forall t, t <> [] -> to_lowercase t <> []) by (intros [|c t] H; [congruence|discriminate]).
  assert (H : query (search_state a) <> []) by (vm_compute; discriminate).
  split; [exact H0|]. split; [exact H1|]. split; [exact H|].
  rewrite (proj1 (proj2 (C8_search_text to_lowercase H0 H1 a true) H)). vm_compute. reflexivity.
Defined.

(* ----------------------------------------------------------------- *)
(** ** Line, backtrace and stitching parsers; the resolver *)

Lemma starts_with_app p t : starts_with p t = true -> t = p ++ skipn (length p) t.
Proof.
  revert t. induction p as [|x p IH]; intros t H; simpl; [reflexivity|].
  destruct t as [|y t]; [discriminate|]. simpl in H.
  apply andb_true_iff in H as [Hxy H]. unfold ascii_eqb in Hxy. apply Ascii.eqb_eq in Hxy. subst y.
  simpl. f_equal. apply IH, H.
Qed.

Lemma tag_app p t r : tag p t = Some r -> t = p ++ r.
Proof.
  unfold tag. destruct (starts_with p t) eqn:E; [|discriminate].
  intros [= <-]. apply starts_with_app, E.
Qed.

Lemma take_while_app f t a r : take_while f t = (a, r) -> t = a ++ r /\ forallb f a = true.
Proof.
  revert a r. induction t as [|c t IH]; intros a r H; simpl in H.
  - injection H as <- <-. auto.
  - destruct (f c) eqn:Ec.
    + destruct (take_while f t) as [a' r'] eqn:E. injection H as <- <-.
      destruct (IH _ _ eq_refl) as [-> Hf]. simpl. rewrite Ec, Hf. auto.
    + injection H as <- <-. auto.
Qed.

Lemma take_while1_app f t r a :
  take_while1 f t = Some (r, a) -> t = a ++ r /\ a <> [] /\ forallb f a = true.
Proof.
  unfold take_while1. destruct (take_while f t) as [a' r'] eqn:E.
  destruct a' as [|c a']; [discriminate|]. intros [= <- <-].
  destruct (take_while_app _ _ _ _ E) as [-> Hf]. split; [reflexivity|]. split; [discriminate|exact Hf].
Qed.

Lemma recognized_app p r : recognized (p ++ r) r = p.
Proof.
  unfold recognized. rewrite length_app, Nat.add_sub, firstn_app, Nat.sub_diag, firstn_all. simpl.
  apply app_nil_r.
Qed.

Lemma parse_address_shape t r a :
  parse_address t = Some (r, a) ->
  exists h, a = txt "0x" ++ h /\ h <> [] /\ forallb is_hexdigit h = true.
Proof.
  unfold parse_address.
  destruct (char_ "[" (space0 t)) as [r1|]; [|discriminate].
  destruct (tag (txt "0x") r1) as [r2|] eqn:Et; [|discriminate].
  destruct (take_while1 is_hexdigit r2) as [[r3 h]|] eqn:Eh; [|discriminate].
  destruct (char_ "]" r3) as [r4|]; [|discriminate].
  intros [= _ <-].
  apply tag_app in Et. apply take_while1_app in Eh as (-> & Hne & Hf). subst r1.
  exists h. split; [|auto]. rewrite app_assoc, recognized_app. reflexivity.
Qed.

Lemma parse_frame_address t f :
  parse_frame t = Some f ->
  address f = [] \/ exists h, address f = txt "0x" ++ h /\ h <> [] /\ forallb is_hexdigit h = true.
Proof.
  assert (Hopt : forall x, (match parse_address x with Some (_, a) => a | None => [] end) = [] \/
            exists h, (match parse_address x with Some (_, a) => a | None => [] end) = txt "0x" ++ h /\
                      h <> [] /\ forallb is_hexdigit h = true).
  { intros x. destruct (parse_address x) as [[r a]|] eqn:E; [|left; reflexivity].
    right. exact (parse_address_shape _ _ _ E). }
  unfold parse_frame.
  destruct (take_until_any t) as [[rest b]|]; [|discriminate].
  destruct (if starts_with (txt "(") rest then _ else None) as [f'|] eqn:Ew.
  - intros [= <-]. destruct (starts_with (txt "(") rest); [|discriminate].
    destruct (parse_function_info rest) as [[rest2 [fn off]]|]; [|discriminate].
    injection Ew as <-. apply Hopt.
  - intros [= <-]. apply Hopt.
Qed.

(** C4: the address of every frame [parse_backtrace_line] accepts is
    either empty (no bracketed address was found) or ["0x"] followed by
    one or more hexadecimal digits, of either case. *)
Theorem C4_address_shape (line : str) (f : BacktraceFrame) (H : parse_backtrace_line line = Ok f) :
  address f = [] \/ exists h, address f = txt "0x" ++ h /\ h <> [] /\ forallb is_hexdigit h = true.
Proof.
  revert H. unfold parse_backtrace_line.
  destruct (trim_start line) as [|c rest]; [discriminate|].
  destruct (ascii_eqb c ">"); [|discriminate].
  destruct (parse_frame (trim_start rest)) as [f'|] eqn:E; [|discriminate].
  intros [= <-]. exact (parse_frame_address _ _ E).
Qed.

Lemma C4_address_shape_witness :
  parse_backtrace_line (txt " > /usr/lib/libc.so.6(__write+0x14) [0x10e53e]") =
    Ok (mk_frame (txt "/usr/lib/libc.so.6") (Some (txt "__write")) (Some (txt "0x14")) (txt "0x10e53e")) /\
  exists h, txt "0x10e53e" = txt "0x" ++ h /\ h <> [] /\ forallb is_hexdigit h = true.
Proof.
  assert (H : parse_backtrace_line (txt " > /usr/lib/libc.so.6(__write+0x14) [0x10e53e]") =
    Ok (mk_frame (txt "/usr/lib/libc.so.6") (Some (txt "__write")) (Some (txt "0x14")) (txt "0x10e53e")))
    by (vm_compute; reflexivity).
  split; [exact H|].
  destruct (C4_address_shape _ _ H) as [Hn|Hs]; [discriminate Hn|exact Hs].
Defined.

Lemma C4_cex :
  parse_backtrace_line (txt " > /bin/x") = Ok (mk_frame (txt "/bin/x") None None []) /\
  parse_backtrace_line (txt " > /bin/x [0xABC]") = Ok (mk_frame (txt "/bin/x") None None (txt "0xABC")).
Proof. split; vm_compute; reflexivity. Qed.

(** C1: when a resumed line finds the pending index [i] of its PID, the
    step replaces entry [i] by the merge, which takes the return value,
    errno and duration of the resumed half and clears both flags, while
    the arguments and the cross-reference fields stay those of the
    pending entry; on the scenario with the unfinished [read], an
    interleaved [write] and the resumed [read], the [read] entry ends
    with return ["4"], both flags cleared and its arguments ["0"]. *)
Theorem C1_merge_step (st : StraceParser) (entries : list SyscallEntry)
    (current : option SyscallEntry) (line : str) (r u : SyscallEntry) (i : nat)
    (Hne : length (trim line) <> 0)
    (Hbt : starts_with (txt ">") (trim_start line) = false)
    (Hp : parse_strace_line line = Ok r)
    (Hunf : is_unfinished r = false) (Hres : is_resumed r = true)
    (Hi : unfinished st !! pid r = Some i)
    (Hu : (match current with Some e => entries ++ [e] | None => entries end) !! i = Some u) :
  (exists st',
     parse_line_step st entries current line =
       Some (st', <[i := merge_resumed u r]> (match current with Some e => entries ++ [e] | None => entries end), None) /\
     unfinished st' = delete (pid r) (unfinished st) /\ errors st' = errors st) /\
  return_value (merge_resumed u r) = return_value r /\ errno (merge_resumed u r) = errno r /\
  duration (merge_resumed u r) = duration r /\
  is_unfinished (merge_resumed u r) = false /\ is_resumed (merge_resumed u r) = false /\
  arguments (merge_resumed u r) = arguments u /\
  unfinished_entry_idx (merge_resumed u r) = unfinished_entry_idx u /\
  resumed_entry_idx (merge_resumed u r) = resumed_entry_idx u /\
  (exists stf es,
     parse_lines StraceParser_new
       [txt "12345 10:00:00 read(0 <unfinished ...>"; txtq "12346 10:00:01 write(1, `x`, 1) = 1";
        txtq "12345 10:00:02 <... read resumed>, `data`, 4) = 4"] = Some (stf, es) /\
     length es = 2 /\ option_map syscall_name (es !! 0) = Some (txt "read") /\
     option_map return_value (es !! 0) = Some (Some (txt "4")) /\
     option_map is_unfinished (es !! 0) = Some false /\ option_map is_resumed (es !! 0) = Some false /\
     option_map arguments (es !! 0) = Some (txt "0")).
Proof.
  split; [|repeat split; try reflexivity].
  - unfold parse_line_step.
    destruct (length (trim line) =? 0) eqn:E0; [apply Nat.eqb_eq in E0; congruence|].
    rewrite Hbt, Hp, Hunf, Hres. cbn -[delete insert lookup]. rewrite Hi.
    destruct current as [e|]; simpl; rewrite Hu; eexists; (split; [reflexivity|split; reflexivity]).
  - eexists _, _. split; [vm_compute; reflexivity|]. vm_compute. repeat split.
Qed.

Lemma C1_merge_step_witness :
  let u0 := set_flags (set_arguments (SyscallEntry_new 12345 (txt "10:00:00") (txt "read")) (txt "0")) true false in
  let w := match parse_strace_line (txtq "12346 10:00:01 write(1, `x`, 1) = 1") with Ok e => e | Err _ => u0 end in
  let l3 := txtq "12345 10:00:02 <... read resumed>, `data`, 4) = 4" in
  let r := match parse_strace_line l3 with Ok e => e | Err _ => u0 end in
  let st0 := {| unfinished := {[12345%Z := 0]}; errors := []; line_number := 2 |} in
  exists st', parse_line_step st0 [u0] (Some w) l3 = Some (st', <[0 := merge_resumed u0 r]> [u0; w], None).
Proof.
  intros u0 w l3 r st0.
  destruct (C1_merge_step st0 [u0] (Some w) l3 r u0 0
              ltac:(vm_compute; discriminate) ltac:(vm_compute; reflexivity)
              ltac:(vm_compute; reflexivity) ltac:(vm_compute; reflexivity)
              ltac:(vm_compute; reflexivity) ltac:(vm_compute; reflexivity)
              ltac:(vm_compute; reflexivity)) as [(st' & H & _) _].
  exists st'. exact H.
Defined.

Lemma C1_cex :
  let lines := [txt "12345 10:00:00 read(0 <unfinished ...>"; txtq "12346 10:00:01 write(1, `x`, 1) = 1";
                txtq "12345 10:00:02 <... read resumed>, `data`, 4) = 4"] in
  (exists r, parse_strace_line (nth 2 lines []) = Ok r /\ arguments r = txtq ", `data`, 4)") /\
  (exists stf es, parse_lines StraceParser_new lines = Some (stf, es) /\
     option_map arguments (es !! 0) = Some (txt "0") /\
     option_map arguments (es !! 0) <> Some (txt "0" ++ txtq ", `data`, 4)") /\
     option_map unfinished_entry_idx (es !! 0) = Some None /\
     option_map resumed_entry_idx (es !! 0) = Some None).
Proof.
  split.
  - eexists. split; [vm_compute; reflexivity|]. vm_compute. reflexivity.
  - eexists _, _. split; [vm_compute; reflexivity|]. vm_compute.
    split; [reflexivity|]. split; [discriminate|]. split; reflexivity.
Qed.

(** C2: [parse_arguments] counts only [(] and [)] and does not skip
    quoted text: on a regular line whose string argument holds [)] the
    argument text stops inside the string and the return value is lost,
    while [split_arguments] (tui/app.rs), which tracks strings, keeps the
    quoted [)] inside its piece. *)
Theorem C2_quoted_paren_bug :
  (exists e, parse_strace_line (txtq "1 10:00:00 write(1, `)`, 1) = 1") = Ok e /\
     arguments e = txtq "1, `" /\ return_value e = None) /\
  split_arguments (txtq "1, `)`, 1") = [txt "1"; txtq "`)`"; txt "1"].
Proof.
  split; [|vm_compute; reflexivity].
  eexists. split; [vm_compute; reflexivity|]. split; vm_compute; reflexivity.
Qed.

(** C3: a backtrace line that follows a resumed line which completed a
    pending entry is dropped: there is no current entry, so the frame is
    neither attached nor parsed, and no error is recorded; a malformed
    backtrace line with no current entry records no error either. *)
Theorem C3_frame_after_merge_dropped :
  (parse_backtrace_line (txt " > /lib/libc.so.6(read+0x1) [0x10]") =
     Ok (mk_frame (txt "/lib/libc.so.6") (Some (txt "read")) (Some (txt "0x1")) (txt "0x10")) /\
   exists st es,
     parse_lines StraceParser_new
       [txt "1 10:00:00 read(0 <unfinished ...>"; txtq "1 10:00:01 <... read resumed>`x`, 1) = 1";
        txt " > /lib/libc.so.6(read+0x1) [0x10]"] = Some (st, es) /\
     map (fun e => length (backtrace e)) es = [0] /\ errors st = []) /\
  (exists er, parse_backtrace_line (txt " > (") = Err er) /\
  (exists st es, parse_lines StraceParser_new [txt " > ("] = Some (st, es) /\ es = [] /\ errors st = []).
Proof.
  split; [split; [vm_compute; reflexivity|]|split].
  - eexists _, _. split; [vm_compute; reflexivity|]. split; vm_compute; reflexivity.
  - eexists. vm_compute. reflexivity.
  - eexists _, _. split; [vm_compute; reflexivity|]. split; reflexivity.
Qed.

Lemma find_starts_with p t n : find p t = Some n -> starts_with p (skipn n t) = true.
Proof.
  revert n. induction t as [|c t IH]; intros n; simpl.
  - destruct (starts_with p []) eqn:E; [intros [= <-]; exact E|discriminate].
  - destruct (starts_with p (c :: t)) eqn:E; [intros [= <-]; exact E|].
    destruct (find p t) as [m|] eqn:Em; simpl; [|discriminate].
    intros [= <-]. simpl. apply IH. reflexivity.
Qed.

Lemma firstn_S_skipn (t : str) n c rest : skipn n t = c :: rest -> firstn (S n) t = firstn n t ++ [c].
Proof.
  revert t. induction n as [|n IH]; intros t H; destruct t as [|x t]; simpl in *; try discriminate.
  - injection H as -> ->. reflexivity.
  - f_equal. apply IH, H.
Qed.

(** C9: on a resumed line, when [") = "] occurs after ["resumed>"],
    the arguments are the text after ["resumed>"] (leading whitespace
    dropped) up to and including the [)] of the first [") = "], trimmed,
    so they end with that [)] and keep whatever leads them, such as the
    [", "] of the scenario: for the [wait4] line the entry has name
    ["wait4"], return ["24983"] and arguments starting with [", ["]. *)
Theorem C9_resumed_args (p : Z) (ts input : str) (pos rs : nat)
    (Hpos : find (txt "resumed>") (trim_start input) = Some pos)
    (Hrs : find (txt ") = ") (trim_start (skipn (pos + 8) (trim_start input))) = Some rs) :
  (exists e pre,
     parse_resumed_line p ts input = Ok e /\
     arguments e = trim (firstn (rs + 1) (trim_start (skipn (pos + 8) (trim_start input)))) /\
     arguments e = pre ++ [")"%char]) /\
  (exists e,
     parse_strace_line
       (txt "24982 12:58:40 <... wait4 resumed>, [{WIFEXITED(s) && WEXITSTATUS(s) == 0}], 0, NULL) = 24983") = Ok e /\
     syscall_name e = txt "wait4" /\ return_value e = Some (txt "24983") /\
     arguments e = txt ", [{WIFEXITED(s) && WEXITSTATUS(s) == 0}], 0, NULL)").
Proof.
  split.
  - set (after := trim_start (skipn (pos + 8) (trim_start input))) in *.
    pose proof (find_starts_with _ _ _ Hrs) as Hsw.
    destruct (skipn rs after) as [|c rest] eqn:Es; [discriminate|].
    change (txt ") = ") with [")"%char; " "%char; "="%char; " "%char] in Hsw. cbn [starts_with] in Hsw.
    apply andb_true_iff in Hsw as [Hc _]. apply ascii_eqb_true in Hc. subst c.
    assert (Hf : firstn (rs + 1) after = firstn rs after ++ [")"%char]).
    { rewrite Nat.add_1_r. apply (firstn_S_skipn _ _ _ _ Es). }
    unfold parse_resumed_line. rewrite Hpos. fold after. rewrite Hrs.
    destruct (parse_return_value (skipn (rs + 1) after)) as [[rest' rv]|].
    + eexists _, _. split; [reflexivity|]. simpl.
      split; [reflexivity|]. rewrite Hf, trim_snoc by (reflexivity || (vm_compute; lia)). reflexivity.
    + eexists _, _. split; [reflexivity|]. simpl.
      split; [reflexivity|]. rewrite Hf, trim_snoc by (reflexivity || (vm_compute; lia)). reflexivity.
  - eexists. split; [vm_compute; reflexivity|]. vm_compute. repeat split.
Qed.

Lemma C9_resumed_args_witness :
  exists e pre,
    parse_resumed_line 24982 (txt "12:58:40")
      (txt "<... wait4 resumed>, [{WIFEXITED(s) && WEXITSTATUS(s) == 0}], 0, NULL) = 24983") = Ok e /\
    arguments e = txt ", [{WIFEXITED(s) && WEXITSTATUS(s) == 0}], 0, NULL)" /\
    arguments e = pre ++ [")"%char].
Proof.
  destruct (C9_resumed_args 24982 (txt "12:58:40")
              (txt "<... wait4 resumed>, [{WIFEXITED(s) && WEXITSTATUS(s) == 0}], 0, NULL) = 24983")
              11 50 ltac:(vm_compute; reflexivity) ltac:(vm_compute; reflexivity))
    as [(e & pre & H1 & H2 & H3) _].
  exists e, pre. split; [exact H1|]. split; [|exact H3]. rewrite H2. vm_compute. reflexivity.
Defined.

Lemma C9_cex :
  exists e,
    parse_strace_line
      (txt "24982 12:58:40 <... wait4 resumed>, [{WIFEXITED(s) && WEXITSTATUS(s) == 0}], 0, NULL) = 24983") = Ok e /\
    starts_with (txt "[{WIFEXITED") (arguments e) = false.
Proof. eexists. split; [vm_compute; reflexivity|]. vm_compute. reflexivity. Qed.

Section ResolverProps.

Context {Loader : Type}.
Variable loader_new : str -> option Loader.
Variable find_frames : Loader -> Z -> option (list FrameStep).

(** C5: when the binary has no loader yet and building one fails, a
    frame whose key is not in the result cache tries to build the
    loader (one more attempt is logged), records nothing in [loaders],
    caches the empty result under the key [binary:address] and leaves
    the frame unresolved; afterwards a frame with the same key is
    answered from the cache without an attempt.  Since [loaders] is
    unchanged, a later frame of that binary with another key tries
    again. *)
Theorem C5_resolver_retry (st : Addr2LineResolver Loader) (f : BacktraceFrame)
    (Hfail : loader_new (binary f) = None)
    (Hnl : loaders st !! string_of_list_ascii (binary f) = None)
    (Hnc : cache st !! key_of (binary f) (address f) = None) :
  let '(st', f') := resolve_frame loader_new find_frames st f in
  loader_attempts st' = loader_attempts st ++ [binary f] /\
  loaders st' = loaders st /\
  cache st' = <[key_of (binary f) (address f) := None]> (cache st) /\
  resolved f' = None /\
  (forall f2, key_of (binary f2) (address f2) = key_of (binary f) (address f) ->
     resolve_frame loader_new find_frames st' f2 = (st', set_resolved f2 None)).
Proof.
  unfold resolve_frame. rewrite Hnc.
  unfold resolve_address, get_loader. rewrite Hnl, Hfail. simpl.
  repeat split; try reflexivity.
  intros f2 Hk. rewrite Hk. simpl. rewrite lookup_insert_eq. reflexivity.
Qed.

End ResolverProps.

Lemma C5_resolver_retry_witness :
  let f := mk_frame (txt "/bin/x") None None (txt "0x1") in
  let '(st', _) := resolve_frame (Loader := unit) (fun _ => None) (fun _ _ => None)
                     (Addr2LineResolver_new (Loader := unit)) f in
  loader_attempts st' = [txt "/bin/x"] /\ loaders st' = ∅.
Proof.
  pose proof (C5_resolver_retry (Loader := unit) (fun _ => None) (fun _ _ => None)
                (Addr2LineResolver_new (Loader := unit)) (mk_frame (txt "/bin/x") None None (txt "0x1"))
                eq_refl eq_refl eq_refl) as H.
  simpl in H |- *. destruct H as (H1 & H2 & _). split; [exact H1|exact H2].
Defined.

Lemma C5_cex :
  let res := Addr2LineResolver_new (Loader := unit) in
  let f1 := mk_frame (txt "/bin/x") None None (txt "0x1") in
  let f2 := mk_frame (txt "/bin/x") None None (txt "0x2") in
  let '(st1, r1) := resolve_frame (fun _ => None) (fun _ _ => None) res f1 in
  let '(st2, r2) := resolve_frame (fun _ => None) (fun _ _ => None) st1 f2 in
  loader_attempts st2 = [txt "/bin/x"; txt "/bin/x"] /\ resolved r1 = None /\ resolved r2 = None.
Proof. vm_compute. repeat split. Qed.

(** ** Process graph *)

(* Sorting of the events. *)

Lemma insert_by_idx_perm x l : insert_by_idx x l ≡ₚ x :: l.
Proof.
  induction l as [|y l IH]; simpl; [reflexivity|].
  destruct (ev_idx x <=? ev_idx y); [reflexivity|].
  rewrite IH. constructor.
Qed.

Lemma sort_by_idx_perm l : sort_by_idx l ≡ₚ l.
Proof.
  induction l as [|x l IH]; simpl; [reflexivity|].
  rewrite insert_by_idx_perm, IH. reflexivity.
Qed.

Lemma insert_by_idx_sorted x s :
  StronglySorted (fun a b => ev_key a <= ev_key b) s ->
  (ev_end x = true -> Forall (fun y => ev_end y = true) s) ->
  StronglySorted (fun a b => ev_key a <= ev_key b) (insert_by_idx x s).
Proof.
  induction s as [|y s IH]; intros Hs Hx; simpl.
  - repeat constructor.
  - inversion Hs as [|? ? Hs' Hy]; subst.
    destruct (ev_idx x <=? ev_idx y) eqn:E.
    + apply Nat.leb_le in E.
      assert (Hxy : ev_key x <= ev_key y).
      { unfold ev_key. destruct (ev_end x) eqn:Ex, (ev_end y) eqn:Ey; try lia.
        destruct (Nat.eq_dec (ev_idx x) (ev_idx y)); [|lia].
        specialize (Hx eq_refl). inversion Hx; subst. congruence. }
      constructor; [exact Hs|]. constructor; [exact Hxy|].
      eapply Forall_impl; [exact Hy|]. simpl. lia.
    + apply Nat.leb_gt in E. constructor.
      * apply IH; [exact Hs'|]. intros Hxe. specialize (Hx Hxe). inversion Hx; auto.
      * rewrite (insert_by_idx_perm x s).
        constructor; [unfold ev_key; destruct (ev_end x), (ev_end y); lia|exact Hy].
Qed.

Lemma sort_by_idx_sorted_ends l :
  Forall (fun y => ev_end y = true) l ->
  StronglySorted (fun a b => ev_key a <= ev_key b) (sort_by_idx l) /\
  Forall (fun y => ev_end y = true) (sort_by_idx l).
Proof.
  induction l as [|x l IH]; intros Hl; simpl; [split; constructor|].
  inversion Hl as [|? ? Hx Hl']; subst. destruct (IH Hl') as [Hs Hf].
  split.
  - apply insert_by_idx_sorted; [exact Hs|]. intros _. exact Hf.
  - rewrite (insert_by_idx_perm x _). constructor; assumption.
Qed.

Lemma sort_by_idx_sorted s e :
  Forall (fun y => ev_end y = false) s -> Forall (fun y => ev_end y = true) e ->
  StronglySorted (fun a b => ev_key a <= ev_key b) (sort_by_idx (s ++ e)).
Proof.
  intros Hs He. induction s as [|x s IH]; simpl.
  - apply sort_by_idx_sorted_ends, He.
  - inversion Hs as [|? ? Hx Hs']; subst.
    apply insert_by_idx_sorted; [apply IH, Hs'|]. intros Hxe. congruence.
Qed.

(* ---- first pass ---- *)

Lemma insert_lookup_cases (m : gmap Z nat) k v q :
  (<[k := v]> m) !! q = m !! q \/ (<[k := v]> m) !! q = Some v.
Proof.
  destruct (decide (k = q)) as [->|Hne].
  - right. apply lookup_insert_eq.
  - left. apply lookup_insert_ne, Hne.
Qed.

Lemma insert_keep (m : gmap Z nat) k v q : m !! q = Some v -> (<[k := v]> m) !! q = Some v.
Proof.
  intros H. destruct (decide (k = q)) as [->|Hne].
  - apply lookup_insert_eq.
  - rewrite lookup_insert_ne by exact Hne. exact H.
Qed.

Lemma or_insert_cases k v (m : gmap Z nat) q :
  or_insert k v m !! q = m !! q \/ (q = k /\ or_insert k v m !! q = Some v).
Proof.
  unfold or_insert. destruct (m !! k) eqn:E; [left; reflexivity|].
  destruct (decide (k = q)) as [->|Hne].
  - right. split; [reflexivity|apply lookup_insert_eq].
  - left. apply lookup_insert_ne, Hne.
Qed.

Lemma first_pass_step_cases fp n e q :
  ((pid_last_seen (first_pass_step fp n e)) !! q = pid_last_seen fp !! q \/
   (pid_last_seen (first_pass_step fp n e)) !! q = Some n) /\
  ((pid_first_seen (first_pass_step fp n e)) !! q = pid_first_seen fp !! q \/
   ((pid_first_seen (first_pass_step fp n e)) !! q = Some n /\
    (pid_last_seen (first_pass_step fp n e)) !! q = Some n)).
Proof.
  unfold first_pass_step.
  destruct (if is_fork_syscall (syscall_name e) then positive_return e else None) as [child|];
  destruct (if is_wait_syscall (syscall_name e) then positive_return e else None) as [w|]; simpl.
  - split.
    + destruct (insert_lookup_cases (<[child:=n]> (<[pid e:=n]> (pid_last_seen fp))) w n q) as [ -> | -> ]; [|auto].
      destruct (insert_lookup_cases (<[pid e:=n]> (pid_last_seen fp)) child n q) as [ -> | -> ]; [|auto].
      apply insert_lookup_cases.
    + destruct (or_insert_cases child n (or_insert (pid e) n (pid_first_seen fp)) q) as [ -> | [ -> H ] ].
      * destruct (or_insert_cases (pid e) n (pid_first_seen fp) q) as [ -> | [ -> H ] ]; [auto|].
        right. split; [exact H|]. apply insert_keep. apply insert_keep. apply lookup_insert_eq.
      * right. split; [exact H|]. apply insert_keep. apply lookup_insert_eq.
  - split.
    + destruct (insert_lookup_cases (<[pid e:=n]> (pid_last_seen fp)) child n q) as [ -> | -> ]; [|auto].
      apply insert_lookup_cases.
    + destruct (or_insert_cases child n (or_insert (pid e) n (pid_first_seen fp)) q) as [ -> | [ -> H ] ].
      * destruct (or_insert_cases (pid e) n (pid_first_seen fp) q) as [ -> | [ -> H ] ]; [auto|].
        right. split; [exact H|]. apply insert_keep. apply lookup_insert_eq.
      * right. split; [exact H|]. apply lookup_insert_eq.
  - split.
    + destruct (insert_lookup_cases (<[pid e:=n]> (pid_last_seen fp)) w n q) as [ -> | -> ]; [|auto].
      apply insert_lookup_cases.
    + destruct (or_insert_cases (pid e) n (pid_first_seen fp) q) as [ -> | [ -> H ] ]; [auto|].
      right. split; [exact H|]. apply insert_keep. apply lookup_insert_eq.
  - split.
    + apply insert_lookup_cases.
    + destruct (or_insert_cases (pid e) n (pid_first_seen fp) q) as [ -> | [ -> H ] ]; [auto|].
      right. split; [exact H|]. apply lookup_insert_eq.
Qed.

Lemma first_pass_from_bounds fp n es :
  (forall q f, pid_first_seen fp !! q = Some f -> f < n /\ exists l, pid_last_seen fp !! q = Some l /\ f <= l) ->
  forall q f, pid_first_seen (first_pass_from fp n es) !! q = Some f ->
    exists l, pid_last_seen (first_pass_from fp n es) !! q = Some l /\ f <= l.
Proof.
  revert fp n. induction es as [|e es IH]; intros fp n Hinv; simpl.
  - intros q f Hq. destruct (Hinv q f Hq) as [_ H]. exact H.
  - apply IH. intros q f Hq.
    destruct (first_pass_step_cases fp n e q) as [HL [HF|[HF HL']]].
    + rewrite HF in Hq. destruct (Hinv q f Hq) as [Hlt (l & Hl & Hfl)].
      split; [lia|]. destruct HL as [ -> | -> ]; eexists; split; [exact Hl|lia|reflexivity|lia].
    + rewrite HF in Hq. injection Hq as <-. split; [lia|]. exists n. split; [exact HL'|lia].
Qed.

Lemma first_pass_first_le_last es q f :
  pid_first_seen (first_pass es) !! q = Some f ->
  exists l, pid_last_seen (first_pass es) !! q = Some l /\ f <= l.
Proof.
  apply first_pass_from_bounds. intros q' f' H. simpl in H. rewrite lookup_empty in H. discriminate.
Qed.

(* ---- the event list ---- *)

Lemma in_map_flag (l : list (Z * nat)) (fl : bool) p i b :
  In (p, i, b) (map (fun '(p, i) => (p, i, fl)) l) <-> b = fl /\ In (p, i) l.
Proof.
  rewrite in_map_iff. split.
  - intros ([p' i'] & Heq & Hin). injection Heq as <- <- <-. auto.
  - intros [-> Hin]. exists (p, i). auto.
Qed.

Lemma in_perm_map_to_list (l : list (Z * nat)) (m : gmap Z nat) p i :
  l ≡ₚ map_to_list m -> In (p, i) l <-> m !! p = Some i.
Proof.
  intros Hp. split.
  - intros H. apply (Permutation_in _ Hp) in H. apply list_elem_of_In in H.
    apply elem_of_map_to_list in H. exact H.
  - intros H. apply elem_of_map_to_list in H. apply list_elem_of_In in H.
    apply (Permutation_in _ (Permutation_sym Hp)) in H. exact H.
Qed.

Lemma NoDup_map_flag (l : list (Z * nat)) (fl : bool) :
  NoDup l -> NoDup (map (fun '(p, i) => (p, i, fl)) l).
Proof.
  induction 1 as [|[p i] l Hn _ IH]; simpl; constructor; [|exact IH].
  intros Hin. apply list_elem_of_In, in_map_flag in Hin as [_ Hin]. apply Hn, list_elem_of_In, Hin.
Qed.

Section Events.

Variables (F L : gmap Z nat) (fs ls : list (Z * nat)).
Hypothesis Hfs : fs ≡ₚ map_to_list F.
Hypothesis Hls : ls ≡ₚ map_to_list L.

Lemma pids_ordered_perm :
  pids_ordered fs ls ≡ₚ map (fun '(p, i) => (p, i, false)) fs ++ map (fun '(p, i) => (p, i, true)) ls.
Proof. apply sort_by_idx_perm. Qed.

Lemma pids_ordered_in p i b :
  In (p, i, b) (pids_ordered fs ls) <-> (b = false /\ F !! p = Some i) \/ (b = true /\ L !! p = Some i).
Proof.
  split.
  - intros H. apply (Permutation_in _ pids_ordered_perm) in H. apply in_app_or in H as [H|H].
    + apply in_map_flag in H as [-> H]. left. split; [reflexivity|]. apply (in_perm_map_to_list _ _ _ _ Hfs), H.
    + apply in_map_flag in H as [-> H]. right. split; [reflexivity|]. apply (in_perm_map_to_list _ _ _ _ Hls), H.
  - intros H. apply (Permutation_in _ (Permutation_sym pids_ordered_perm)). apply in_or_app.
    destruct H as [[-> H]|[-> H]].
    + left. apply in_map_flag. split; [reflexivity|]. apply (in_perm_map_to_list _ _ _ _ Hfs), H.
    + right. apply in_map_flag. split; [reflexivity|]. apply (in_perm_map_to_list _ _ _ _ Hls), H.
Qed.

Lemma pids_ordered_NoDup : NoDup (pids_ordered fs ls).
Proof.
  rewrite pids_ordered_perm. apply NoDup_app. split; [|split].
  - apply NoDup_map_flag. rewrite Hfs. apply NoDup_map_to_list.
  - intros x Hx Hy. apply list_elem_of_In in Hx, Hy. destruct x as [[p i] b].
    apply in_map_flag in Hx as [-> _]. apply in_map_flag in Hy as [Hb _]. discriminate.
  - apply NoDup_map_flag. rewrite Hls. apply NoDup_map_to_list.
Qed.

Lemma pids_ordered_sorted : StronglySorted (fun a b => ev_key a <= ev_key b) (pids_ordered fs ls).
Proof.
  apply sort_by_idx_sorted.
  - apply Forall_forall. intros [[p i] b] H. apply list_elem_of_In, in_map_flag in H as [-> _]. reflexivity.
  - apply Forall_forall. intros [[p i] b] H. apply list_elem_of_In, in_map_flag in H as [-> _]. reflexivity.
Qed.

End Events.

(* The lane invariant. *)



Lemma take_column_spec free maxc c rest maxc' :
  take_column free maxc = (c, rest, maxc') ->
  (free <> [] -> c :: rest ≡ₚ free /\ maxc' = maxc /\ forall x, In x free -> c <= x) /\
  (free = [] -> c = maxc /\ rest = [] /\ maxc' = S maxc).
Proof.
  unfold take_column.
  pose proof (merge_sort_Permutation Nat.le free) as Hp.
  pose proof (StronglySorted_merge_sort Nat.le free) as Hs.
  destruct (merge_sort Nat.le free) as [|c' rest'] eqn:E.
  - intros [= <- <- <-]. apply Permutation_nil in Hp. subst free. split; [congruence|auto].
  - intros [= <- <- <-]. split.
    + intros _. split; [exact Hp|]. split; [reflexivity|].
      intros x Hx. apply (Permutation_in _ (Permutation_sym Hp)) in Hx. destruct Hx as [<-|Hx]; [lia|].
      inversion Hs as [|? ? _ Hf]; subst. rewrite Forall_forall in Hf. apply Hf, list_elem_of_In, Hx.
    + intros ->. apply Permutation_sym, Permutation_nil in Hp. discriminate.
Qed.

Lemma started_snoc pre x q : started (pre ++ [x]) q <-> started pre q \/ exists i, x = (q, i, false).
Proof.
  unfold started. split.
  - intros [i Hi]. apply in_app_or in Hi as [Hi|[Hi|[]]]; [left; eauto|right; eauto].
  - intros [[i Hi]|[i ->]]; exists i; apply in_or_app; [left; exact Hi|right; left; reflexivity].
Qed.

Lemma ended_snoc pre x q : ended (pre ++ [x]) q <-> ended pre q \/ exists i, x = (q, i, true).
Proof.
  unfold ended. split.
  - intros [i Hi]. apply in_app_or in Hi as [Hi|[Hi|[]]]; [left; eauto|right; eauto].
  - intros [[i Hi]|[i ->]]; exists i; apply in_or_app; [left; exact Hi|right; left; reflexivity].
Qed.

Section Assign.

Variables (last : gmap Z nat) (forks : list (nat * Z * Z)).

Lemma assign_step_end S p i :
  a_processes (assign_step last forks S (p, i, true)) = a_processes S /\
  a_max_columns (assign_step last forks S (p, i, true)) = a_max_columns S /\
  free_columns (assign_step last forks S (p, i, true)) =
    match a_processes S !! p with Some info => free_columns S ++ [pcolumn info] | None => free_columns S end.
Proof. simpl. auto. Qed.

Lemma assign_step_start S p i :
  exists c rest maxc' info,
    take_column (free_columns S) (a_max_columns S) = (c, rest, maxc') /\ pcolumn info = c /\
    a_processes (assign_step last forks S (p, i, false)) = <[p := info]> (a_processes S) /\
    free_columns (assign_step last forks S (p, i, false)) = rest /\
    a_max_columns (assign_step last forks S (p, i, false)) = maxc'.
Proof.
  simpl. destruct (take_column (free_columns S) (a_max_columns S)) as [[c rest] maxc'].
  do 4 eexists. split; [reflexivity|]. split; [|split; [reflexivity|split; reflexivity]]. reflexivity.
Qed.

Lemma assign_step_inv pre S x :
  lane_inv pre S ->
  (forall p i, x = (p, i, false) -> ~ started pre p) ->
  (forall p i, x = (p, i, true) -> ~ ended pre p) ->
  lane_inv (pre ++ [x]) (assign_step last forks S x).
Proof.
  intros (I1 & I2 & I3 & I4 & I5 & I6) Hs He. unfold lane_inv.
  destruct x as [[p i] [|]].
  - (* an end event *)
    destruct (assign_step_end S p i) as (-> & -> & ->).
    specialize (He p i eq_refl).
    assert (Hnend : forall q, ~ ended (pre ++ [(p, i, true)]) q -> ~ ended pre q /\ q <> p).
    { intros q Hq. split; [intros H; apply Hq, ended_snoc; left; exact H|].
      intros ->. apply Hq, ended_snoc. right. eauto. }
    split; [|split; [|split; [|split; [|split]]]].
    + intros q info Hq. destruct (I1 q info Hq) as [H1 H2]. split; [|exact H2].
      apply started_snoc. left. exact H1.
    + intros q Hq. apply started_snoc in Hq as [Hq|[j Hj]]; [apply I2, Hq|discriminate].
    + intros q info Hq Hnq. destruct (Hnend q Hnq) as [Hnq' Hqp].
      destruct (a_processes S !! p) as [ip|] eqn:Ep; [|apply (I3 q info Hq Hnq')].
      intros Hin. apply in_app_or in Hin as [Hin|[Hin|[]]]; [apply (I3 q info Hq Hnq' Hin)|].
      apply (I4 p q ip info); auto.
    + intros q r iq ir Hqr Hq Hr Hnq Hnr.
      apply (I4 q r iq ir Hqr Hq Hr); [apply Hnend, Hnq|apply Hnend, Hnr].
    + intros c Hc. destruct (a_processes S !! p) as [ip|] eqn:Ep; [|apply I5, Hc].
      apply in_app_or in Hc as [Hc|[<-|[]]]; [apply I5, Hc|apply (I1 p ip Ep)].
    + destruct (a_processes S !! p) as [ip|] eqn:Ep; [|exact I6].
      apply NoDup_app. split; [exact I6|]. split; [|apply NoDup_singleton].
      intros y Hy1 Hy2. apply list_elem_of_singleton in Hy2. subst y.
      apply (I3 p ip Ep He), list_elem_of_In, Hy1.
  - (* a start event *)
    destruct (assign_step_start S p i) as (c & rest & maxc' & info & Ht & Hc & -> & -> & ->).
    specialize (Hs p i eq_refl).
    assert (Hnone : a_processes S !! p = None).
    { destruct (a_processes S !! p) as [ip|] eqn:Ep; [|reflexivity].
      exfalso. apply Hs, (I1 p ip Ep). }
    assert (Hend : forall q, ended (pre ++ [(p, i, false)]) q <-> ended pre q).
    { intros q. rewrite ended_snoc. split; [intros [H|[j Hj]]; [exact H|discriminate]|auto]. }
    apply take_column_spec in Ht as [HA HB].
    assert (U : (forall y, In y rest -> In y (free_columns S)) /\ ~ In c rest /\ NoDup rest /\
                a_max_columns S <= maxc' /\ c < maxc' /\
                (forall q iq, a_processes S !! q = Some iq -> ~ ended pre q -> c <> pcolumn iq)).
    { destruct (free_columns S) as [|f0 fr] eqn:Ef.
      - destruct (HB eq_refl) as (-> & -> & ->). split; [intros y []|].
        split; [intros []|]. split; [constructor|]. split; [lia|]. split; [lia|].
        intros q iq Hq _. destruct (I1 q iq Hq). lia.
      - assert (Hne : f0 :: fr <> []) by discriminate.
        destruct (HA Hne) as (Hp & -> & Hmin).
        assert (Hcin : In c (f0 :: fr)) by (apply (Permutation_in _ Hp); left; reflexivity).
        assert (Hnd : NoDup (c :: rest)) by (rewrite Hp; exact I6).
        split; [intros y Hy; apply (Permutation_in _ Hp); right; exact Hy|].
        split; [intros Hin; apply NoDup_cons in Hnd as [Hn _]; apply Hn, list_elem_of_In, Hin|].
        split; [apply NoDup_cons in Hnd as [_ Hn]; exact Hn|].
        split; [lia|]. split; [apply I5, Hcin|].
        intros q iq Hq Hnq Heq. apply (I3 q iq Hq Hnq). rewrite <- Heq. exact Hcin. }
    destruct U as (U1 & U2 & U3 & U4 & U5 & U6).
    split; [|split; [|split; [|split; [|split]]]].
    + intros q iq Hq. destruct (decide (p = q)) as [<-|Hpq].
      * rewrite lookup_insert_eq in Hq. injection Hq as <-. split; [apply started_snoc; right; eauto|].
        rewrite Hc. exact U5.
      * rewrite lookup_insert_ne in Hq by exact Hpq. destruct (I1 q iq Hq) as [H1 H2].
        split; [apply started_snoc; left; exact H1|lia].
    + intros q Hq. destruct (decide (p = q)) as [<-|Hpq].
      * rewrite lookup_insert_eq. discriminate.
      * rewrite lookup_insert_ne by exact Hpq. apply started_snoc in Hq as [Hq|[j Hj]].
        -- apply I2, Hq.
        -- injection Hj as ->. congruence.
    + intros q iq Hq Hnq. rewrite Hend in Hnq. destruct (decide (p = q)) as [<-|Hpq].
      * rewrite lookup_insert_eq in Hq. injection Hq as <-. rewrite Hc. exact U2.
      * rewrite lookup_insert_ne in Hq by exact Hpq. intros Hin. apply (I3 q iq Hq Hnq), U1, Hin.
    + intros q r iq ir Hqr Hq Hr Hnq Hnr. rewrite Hend in Hnq, Hnr.
      destruct (decide (p = q)) as [<-|Hpq]; destruct (decide (p = r)) as [<-|Hpr].
      * congruence.
      * rewrite lookup_insert_eq in Hq. injection Hq as <-. rewrite lookup_insert_ne in Hr by exact Hpr.
        rewrite Hc. apply (U6 r ir Hr Hnr).
      * rewrite lookup_insert_eq in Hr. injection Hr as <-. rewrite lookup_insert_ne in Hq by exact Hpq.
        rewrite Hc. intros Heq. apply (U6 q iq Hq Hnq). symmetry. exact Heq.
      * rewrite lookup_insert_ne in Hq by exact Hpq. rewrite lookup_insert_ne in Hr by exact Hpr.
        apply (I4 q r iq ir); assumption.
    + intros y Hy. specialize (I5 y (U1 y Hy)). lia.
    + exact U3.
Qed.

End Assign.

Lemma sorted_before {A} (R : A -> A -> Prop) pre y post :
  StronglySorted R (pre ++ y :: post) -> forall z, In z pre -> R z y.
Proof.
  induction pre as [|a pre IH]; simpl; [intros _ _ []|].
  intros Hs z [<-|Hz]; apply StronglySorted_inv in Hs as [Hs Hf].
  - rewrite Forall_forall in Hf. apply Hf, list_elem_of_In, in_or_app. right. left. reflexivity.
  - apply IH; assumption.
Qed.

Section Lanes.

Variables (last : gmap Z nat) (forks : list (nat * Z * Z)) (evs : list Event).
Hypothesis H_nd : NoDup evs.
Hypothesis H_fn : forall p i j b, In (p, i, b) evs -> In (p, j, b) evs -> i = j.
Hypothesis H_sorted : StronglySorted (fun a b => ev_key a <= ev_key b) evs.
Hypothesis H_fl : forall p f l, In (p, f, false) evs -> In (p, l, true) evs -> f <= l.

Abbreviation run l := (fold_left (assign_step last forks) l assign_init).

Lemma lane_inv_init : lane_inv [] assign_init.
Proof.
  unfold lane_inv; simpl.
  split; [|split; [|split; [|split; [|split]]]].
  - intros p info H. rewrite lookup_empty in H. discriminate.
  - intros p [i []].
  - intros p info H. rewrite lookup_empty in H. discriminate.
  - intros p q ip iq _ H. rewrite lookup_empty in H. discriminate.
  - intros c [].
  - constructor.
Qed.

Lemma nodup_not_twice (pre : list Event) x post : NoDup (pre ++ x :: post) -> ~ In x pre.
Proof.
  intros Hnd Hin. apply NoDup_app in Hnd as (_ & Hd & _).
  apply (Hd x); [apply list_elem_of_In, Hin|left].
Qed.

Lemma lane_inv_prefix pre post : evs = pre ++ post -> lane_inv pre (run pre).
Proof.
  revert post. induction pre as [|x pre IH] using rev_ind; intros post Hevs.
  - apply lane_inv_init.
  - rewrite fold_left_app. simpl.
    assert (Hevs' : evs = pre ++ x :: post) by (rewrite Hevs, <- app_assoc; reflexivity).
    assert (Hx : In x evs) by (rewrite Hevs'; apply in_or_app; right; left; reflexivity).
    apply assign_step_inv; [apply (IH (x :: post) Hevs')| |].
    + intros p i -> [j Hj].
      assert (Hj' : In (p, j, false) evs) by (rewrite Hevs'; apply in_or_app; left; exact Hj).
      rewrite (H_fn p j i false Hj' Hx) in Hj.
      rewrite Hevs' in H_nd. apply (nodup_not_twice _ _ _ H_nd Hj).
    + intros p i -> [j Hj].
      assert (Hj' : In (p, j, true) evs) by (rewrite Hevs'; apply in_or_app; left; exact Hj).
      rewrite (H_fn p j i true Hj' Hx) in Hj.
      rewrite Hevs' in H_nd. apply (nodup_not_twice _ _ _ H_nd Hj).
Qed.

Lemma run_stable post S p :
  (forall i, ~ In (p, i, false) post) ->
  a_processes (fold_left (assign_step last forks) post S) !! p = a_processes S !! p.
Proof.
  revert S. induction post as [|[[q i] b] post IH]; intros S Hp; cbn [fold_left]; [reflexivity|].
  rewrite IH by (intros j Hj; apply (Hp j); right; exact Hj).
  destruct b; [destruct (assign_step_end last forks S q i) as (-> & _); reflexivity|].
  destruct (assign_step_start last forks S q i) as (c & rest & maxc' & info & _ & _ & -> & _ & _).
  rewrite lookup_insert_ne; [reflexivity|].
  intros ->. apply (Hp i). left. reflexivity.
Qed.

Lemma start_not_after pre post p i : evs = pre ++ post -> In (p, i, false) pre ->
  forall j, ~ In (p, j, false) post.
Proof.
  intros Hevs Hi j Hj.
  assert (Hj' : In (p, j, false) evs) by (rewrite Hevs; apply in_or_app; right; exact Hj).
  assert (Hi' : In (p, i, false) evs) by (rewrite Hevs; apply in_or_app; left; exact Hi).
  rewrite (H_fn p j i false Hj' Hi') in Hj.
  rewrite Hevs in H_nd. apply NoDup_app in H_nd as (_ & Hd & _).
  apply (Hd (p, i, false)); apply list_elem_of_In; assumption.
Qed.

Lemma lanes_asym pre post a b fa la fb ia ib :
  evs = pre ++ (b, fb, false) :: post -> a <> b ->
  In (a, fa, false) pre -> In (a, la, true) evs -> fb <= la ->
  a_processes (run evs) !! a = Some ia -> a_processes (run evs) !! b = Some ib ->
  pcolumn ia <> pcolumn ib.
Proof.
  intros Hevs Hab Ha Hla Hle Hia Hib.
  set (x := (b, fb, false)).
  assert (Hevs2 : evs = (pre ++ [x]) ++ post) by (rewrite Hevs, <- app_assoc; reflexivity).
  assert (Hx : In x evs) by (rewrite Hevs; apply in_or_app; right; left; reflexivity).
  pose proof (lane_inv_prefix _ _ Hevs2) as (I1 & I2 & I3 & I4 & I5 & I6).
  assert (Hsb := sorted_before _ _ _ _ ltac:(rewrite <- Hevs; exact H_sorted)).
  rewrite Hevs2, fold_left_app in Hia, Hib.
  rewrite run_stable in Hia.
  2:{ apply (start_not_after (pre ++ [x]) post a fa Hevs2). apply in_or_app. left. exact Ha. }
  rewrite run_stable in Hib.
  2:{ apply (start_not_after (pre ++ [x]) post b fb Hevs2). apply in_or_app. right. left. reflexivity. }
  apply (I4 a b ia ib Hab Hia Hib).
  - intros Hend. apply ended_snoc in Hend as [[j Hj]|[j Hj]]; [|discriminate].
    assert (Hj' : In (a, j, true) evs) by (rewrite Hevs; apply in_or_app; left; exact Hj).
    rewrite (H_fn a j la true Hj' Hla) in Hj.
    specialize (Hsb _ Hj). unfold ev_key, ev_idx, ev_end in Hsb. simpl in Hsb. lia.
  - intros Hend. apply ended_snoc in Hend as [[j Hj]|[j Hj]]; [|discriminate].
    assert (Hj' : In (b, j, true) evs) by (rewrite Hevs; apply in_or_app; left; exact Hj).
    specialize (H_fl b fb j Hx Hj').
    specialize (Hsb _ Hj). unfold ev_key, ev_idx, ev_end in Hsb. simpl in Hsb. lia.
Qed.

Lemma lanes_disjoint a b fa la fb lb ia ib :
  a <> b ->
  In (a, fa, false) evs -> In (a, la, true) evs ->
  In (b, fb, false) evs -> In (b, lb, true) evs ->
  fa <= lb -> fb <= la ->
  a_processes (run evs) !! a = Some ia -> a_processes (run evs) !! b = Some ib ->
  pcolumn ia <> pcolumn ib.
Proof.
  intros Hab Hfa Hla Hfb Hlb Hle1 Hle2 Hia Hib.
  apply in_split in Hfb as (pre & post & Hevs).
  assert (Hfa' := Hfa). rewrite Hevs in Hfa'. apply in_app_or in Hfa' as [Hin|[Heq|Hin]].
  - apply (lanes_asym pre post a b fa la fb ia ib); assumption.
  - injection Heq as Heq. congruence.
  - apply in_split in Hin as (post1 & post2 & Hpost).
    intros Heq. symmetry in Heq. revert Heq.
    apply (lanes_asym (pre ++ (b, fb, false) :: post1) post2 b a fb lb fa ib ia); auto.
    + rewrite Hevs, Hpost, <- app_assoc. reflexivity.
    + apply in_or_app. right. left. reflexivity.
Qed.

End Lanes.

Lemma first_pass_functional es p i j b
  (F := pid_first_seen (first_pass es)) (L := pid_last_seen (first_pass es)) :
  ((b = false /\ F !! p = Some i) \/ (b = true /\ L !! p = Some i)) ->
  ((b = false /\ F !! p = Some j) \/ (b = true /\ L !! p = Some j)) -> i = j.
Proof. intros [[-> H1]|[-> H1]] [[H H2]|[H H2]]; try discriminate; congruence. Qed.

(** C6: for every entry list and every iteration order of the two maps,
    after [ProcessGraph::build] two distinct PIDs whose lifetime intervals
    [first_seen, last_seen] overlap both have a process and are on distinct
    lanes; and a lane taken while the free pool is non-empty is the
    smallest free one, which leaves the pool. *)
Theorem C6_lanes (es : list SyscallEntry) (fs ls : list (Z * nat))
  (Hfs : fs ≡ₚ map_to_list (pid_first_seen (first_pass es)))
  (Hls : ls ≡ₚ map_to_list (pid_last_seen (first_pass es))) :
  let fp := first_pass es in
  let G := ProcessGraph_build fs ls es in
  (forall a b fa la fb lb, a <> b ->
     pid_first_seen fp !! a = Some fa -> pid_last_seen fp !! a = Some la ->
     pid_first_seen fp !! b = Some fb -> pid_last_seen fp !! b = Some lb ->
     fa <= lb -> fb <= la ->
     exists ia ib, processes G !! a = Some ia /\ processes G !! b = Some ib /\
                   pcolumn ia <> pcolumn ib) /\
  (forall st p i, free_columns st <> [] ->
     let st' := assign_step (pid_last_seen fp) (fork_relationships fp) st (p, i, false) in
     exists info, a_processes st' !! p = Some info /\
       In (pcolumn info) (free_columns st) /\
       (forall c, In c (free_columns st) -> pcolumn info <= c) /\
       pcolumn info :: free_columns st' ≡ₚ free_columns st).
Proof.
  intros fp G. set (F := pid_first_seen fp). set (L := pid_last_seen fp).
  set (forks := fork_relationships fp).
  assert (Hin := pids_ordered_in F L fs ls Hfs Hls).
  assert (H_fn : forall p i j b, In (p, i, b) (pids_ordered fs ls) -> In (p, j, b) (pids_ordered fs ls) -> i = j).
  { intros p i j b Hi Hj. apply Hin in Hi, Hj. apply (first_pass_functional es p i j b Hi Hj). }
  assert (H_fl : forall p f l, In (p, f, false) (pids_ordered fs ls) -> In (p, l, true) (pids_ordered fs ls) -> f <= l).
  { intros p f l Hf Hl. apply Hin in Hf as [[_ Hf]|[Hf _]]; [|discriminate].
    apply Hin in Hl as [[Hl _]|[_ Hl]]; [discriminate|].
    destruct (first_pass_first_le_last es p f Hf) as (l' & Hl' & Hle). fold fp L in Hl'. congruence. }
  pose proof (pids_ordered_NoDup F L fs ls Hfs Hls) as H_nd.
  pose proof (pids_ordered_sorted fs ls) as H_sorted.
  split.
  - intros a b fa la fb lb Hab Hfa Hla Hfb Hlb Hle1 Hle2.
    pose proof (lane_inv_prefix L forks _ H_nd H_fn (pids_ordered fs ls) [] ltac:(rewrite app_nil_r; reflexivity))
      as (_ & I2 & _).
    assert (Ha : In (a, fa, false) (pids_ordered fs ls)) by (apply Hin; left; auto).
    assert (Hb : In (b, fb, false) (pids_ordered fs ls)) by (apply Hin; left; auto).
    destruct (a_processes (fold_left (assign_step L forks) (pids_ordered fs ls) assign_init) !! a) as [ia|] eqn:Ea;
      [|exfalso; apply (I2 a); [exists fa; exact Ha|exact Ea]].
    destruct (a_processes (fold_left (assign_step L forks) (pids_ordered fs ls) assign_init) !! b) as [ib|] eqn:Eb;
      [|exfalso; apply (I2 b); [exists fb; exact Hb|exact Eb]].
    exists ia, ib. split; [exact Ea|]. split; [exact Eb|].
    apply (lanes_disjoint L forks (pids_ordered fs ls) H_nd H_fn H_sorted H_fl a b fa la fb lb); auto.
    + apply Hin. right. auto.
    + apply Hin. right. auto.
  - intros st p i Hne st'.
    destruct (assign_step_start L forks st p i) as (c & rest & maxc' & info & Ht & Hc & Hp & Hf & _).
    apply take_column_spec in Ht as [HA _]. destruct (HA Hne) as (Hperm & _ & Hmin).
    exists info. subst st'. rewrite Hp, Hf, Hc. split; [apply lookup_insert_eq|].
    split; [apply (Permutation_in _ Hperm); left; reflexivity|]. split; [exact Hmin|exact Hperm].
Qed.

(** Two interleaved processes on distinct lanes. *)
Lemma C6_lanes_witness :
  let es := [SyscallEntry_new 100 [] (txt "clone"); SyscallEntry_new 200 [] (txt "read");
             SyscallEntry_new 100 [] (txt "wait4"); SyscallEntry_new 200 [] (txt "exit")] in
  let fp := first_pass es in
  let fs := map_to_list (pid_first_seen fp) in
  let ls := map_to_list (pid_last_seen fp) in
  pid_first_seen fp !! 100%Z = Some 0 /\ pid_last_seen fp !! 100%Z = Some 2 /\
  pid_first_seen fp !! 200%Z = Some 1 /\ pid_last_seen fp !! 200%Z = Some 3 /\
  exists ia ib, processes (ProcessGraph_build fs ls es) !! 100%Z = Some ia /\
                processes (ProcessGraph_build fs ls es) !! 200%Z = Some ib /\ pcolumn ia <> pcolumn ib.
Proof.
  intros es fp fs ls.
  destruct (C6_lanes es fs ls ltac:(reflexivity) ltac:(reflexivity)) as [H _].
  split; [reflexivity|]. split; [reflexivity|]. split; [reflexivity|]. split; [reflexivity|].
  apply (H 100%Z 200%Z 0 2 1 3); [discriminate|reflexivity|reflexivity|reflexivity|reflexivity|lia|lia].
Defined.

(* ================================================================= *)
(** * Further properties of the code *)

Lemma assign_fold_origin last forks l S p info :
  a_processes (fold_left (assign_step last forks) l S) !! p = Some info ->
  a_processes S !! p = Some info \/
  (In (p, first_entry_idx info, false) l /\ pi_pid info = p /\
   last_entry_idx info = default (first_entry_idx info) (last !! p)).
Proof.
  revert S. induction l as [|x l IH]; intros S H; cbn [fold_left] in H; [left; exact H|].
  destruct (IH _ H) as [H1|(H1 & H2 & H3)]; [|right; split; [right; exact H1|auto]].
  destruct x as [[q i] [|]].
  - destruct (assign_step_end last forks S q i) as (E & _). rewrite E in H1. left. exact H1.
  - simpl in H1. destruct (take_column (free_columns S) (a_max_columns S)) as [[c rest] maxc'].
    simpl in H1. destruct (decide (q = p)) as [<-|Hqp].
    + rewrite lookup_insert_eq in H1. injection H1 as <-. right. simpl.
      split; [left; reflexivity|]. split; [reflexivity|]. destruct (last !! q); reflexivity.
    + rewrite lookup_insert_ne in H1 by exact Hqp. left. exact H1.
Qed.

Lemma assign_fold_max last forks l S :
  a_max_columns (fold_left (assign_step last forks) l S) <= a_max_columns S + count_starts l.
Proof.
  unfold count_starts. revert S. induction l as [|x l IH]; intros S; cbn [fold_left]; simpl; [lia|].
  specialize (IH (assign_step last forks S x)).
  destruct x as [[q i] [|]]; simpl in *.
  - lia.
  - destruct (take_column (free_columns S) (a_max_columns S)) as [[c rest] maxc'] eqn:E.
    simpl in IH. apply take_column_spec in E as [HA HB].
    destruct (free_columns S) as [|f fr].
    + destruct (HB eq_refl) as (_ & _ & ->). lia.
    + destruct (HA ltac:(discriminate)) as (_ & -> & _). lia.
Qed.

Lemma filter_length_perm (f : Event -> bool) l l' :
  Permutation l l' -> length (List.filter f l) = length (List.filter f l').
Proof.
  induction 1 as [|x l l' _ IH|x y l|l l' l'' _ IH1 _ IH2]; simpl.
  - reflexivity.
  - destruct (f x); simpl; lia.
  - destruct (f x), (f y); reflexivity.
  - lia.
Qed.

Lemma count_starts_pids_ordered fs ls : count_starts (pids_ordered fs ls) = length fs.
Proof.
  unfold count_starts. rewrite (filter_length_perm _ _ _ (pids_ordered_perm fs ls)).
  rewrite List.filter_app, length_app.
  assert (E1 : forall l : list (Z * nat), List.filter (fun x : Event => negb (ev_end x))
                 (map (fun '(p, i) => (p, i, false)) l) = map (fun '(p, i) => (p, i, false)) l).
  { induction l as [|[p i] l IH]; simpl; [reflexivity|]. rewrite IH. reflexivity. }
  assert (E2 : forall l : list (Z * nat), List.filter (fun x : Event => negb (ev_end x))
                 (map (fun '(p, i) => (p, i, true)) l) = []).
  { induction l as [|[p i] l IH]; simpl; [reflexivity|]. exact IH. }
  rewrite E1, E2, length_map. simpl. lia.
Qed.

Section BuildProps.
Variables (es : list SyscallEntry) (fs ls : list (Z * nat)).
Hypothesis Hfs : fs ≡ₚ map_to_list (pid_first_seen (first_pass es)).
Hypothesis Hls : ls ≡ₚ map_to_list (pid_last_seen (first_pass es)).

Lemma build_H_fn : forall p i j b, In (p, i, b) (pids_ordered fs ls) -> In (p, j, b) (pids_ordered fs ls) -> i = j.
Proof.
  intros p i j b Hi Hj. apply (pids_ordered_in _ _ fs ls Hfs Hls) in Hi, Hj.
  apply (first_pass_functional es p i j b Hi Hj).
Qed.

End BuildProps.

(** The processes of the graph: one per PID of [pid_first_seen], with its
    lifetime from the first pass and a column below [max_columns]. *)
Theorem build_processes_wf (es : list SyscallEntry) (fs ls : list (Z * nat))
  (Hfs : fs ≡ₚ map_to_list (pid_first_seen (first_pass es)))
  (Hls : ls ≡ₚ map_to_list (pid_last_seen (first_pass es))) (p : Z) :
  let fp := first_pass es in
  let G := ProcessGraph_build fs ls es in
  (is_Some (processes G !! p) <-> is_Some (pid_first_seen fp !! p)) /\
  (forall info, processes G !! p = Some info ->
     pi_pid info = p /\ pcolumn info < max_columns G /\
     pid_first_seen fp !! p = Some (first_entry_idx info) /\
     pid_last_seen fp !! p = Some (last_entry_idx info) /\
     first_entry_idx info <= last_entry_idx info).
Proof.
  intros fp G.
  assert (Hin := pids_ordered_in _ _ fs ls Hfs Hls).
  pose proof (lane_inv_prefix (pid_last_seen fp) (fork_relationships fp) _
                (pids_ordered_NoDup _ _ fs ls Hfs Hls) (build_H_fn es fs ls Hfs Hls)
                (pids_ordered fs ls) [] ltac:(rewrite app_nil_r; reflexivity)) as (I1 & I2 & _).
  assert (Horig : forall info, processes G !! p = Some info ->
            In (p, first_entry_idx info, false) (pids_ordered fs ls) /\ pi_pid info = p /\
            last_entry_idx info = default (first_entry_idx info) (pid_last_seen fp !! p)).
  { intros info H. apply assign_fold_origin in H as [H|H]; [|exact H].
    simpl in H. rewrite lookup_empty in H. discriminate. }
  split.
  - split.
    + intros [info H]. destruct (Horig info H) as (Hi & _ & _).
      apply Hin in Hi as [[_ Hi]|[Hb _]]; [eexists; exact Hi|discriminate].
    + intros [f Hf]. apply not_eq_None_Some. apply (I2 p). exists f. apply Hin. left. auto.
  - intros info H. destruct (Horig info H) as (Hi & Hpid & Hlast).
    apply Hin in Hi as [[_ Hf]|[Hb _]]; [|discriminate].
    destruct (first_pass_first_le_last es p _ Hf) as (l & Hl & Hle).
    fold fp in Hl. rewrite Hl in Hlast. simpl in Hlast.
    split; [exact Hpid|]. split; [apply (I1 p info H)|].
    split; [exact Hf|]. rewrite Hlast. split; [exact Hl|exact Hle].
Qed.

Lemma build_processes_wf_witness :
  let es := [SyscallEntry_new 100 [] (txt "clone"); SyscallEntry_new 200 [] (txt "read");
             SyscallEntry_new 100 [] (txt "wait4")] in
  let fp := first_pass es in
  let fs := map_to_list (pid_first_seen fp) in
  let ls := map_to_list (pid_last_seen fp) in
  exists info, processes (ProcessGraph_build fs ls es) !! 200%Z = Some info /\
    pid_first_seen fp !! 200%Z = Some (first_entry_idx info) /\
    pid_last_seen fp !! 200%Z = Some (last_entry_idx info).
Proof.
  intros es fp fs ls.
  destruct (build_processes_wf es fs ls ltac:(reflexivity) ltac:(reflexivity) 200%Z) as [[_ H1] H2].
  destruct (H1 ltac:(eexists; reflexivity)) as [info Hinfo].
  exists info. split; [exact Hinfo|]. destruct (H2 info Hinfo) as (_ & _ & A & B & _). auto.
Defined.

(** [max_columns] is at most the number of PIDs, so a trace of a single
    process leaves the graph disabled. *)
Theorem build_max_columns (es : list SyscallEntry) (fs ls : list (Z * nat))
  (Hfs : fs ≡ₚ map_to_list (pid_first_seen (first_pass es))) :
  let G := ProcessGraph_build fs ls es in
  max_columns G <= size (pid_first_seen (first_pass es)) /\
  (size (pid_first_seen (first_pass es)) <= 1 -> enabled G = false).
Proof.
  intros G.
  assert (Hm : max_columns G <= size (pid_first_seen (first_pass es))).
  { unfold G, ProcessGraph_build. simpl.
    pose proof (assign_fold_max (pid_last_seen (first_pass es)) (fork_relationships (first_pass es))
                  (pids_ordered fs ls) assign_init) as H.
    rewrite count_starts_pids_ordered in H. simpl in H.
    rewrite (Permutation_length Hfs), length_map_to_list in H. exact H. }
  split; [exact Hm|]. intros Hs. unfold G, ProcessGraph_build in *. simpl in *.
  apply Nat.ltb_ge. lia.
Qed.

Lemma build_max_columns_witness :
  let es := [SyscallEntry_new 7 [] (txt "read"); SyscallEntry_new 7 [] (txt "write")] in
  let fs := map_to_list (pid_first_seen (first_pass es)) in
  let ls := map_to_list (pid_last_seen (first_pass es)) in
  enabled (ProcessGraph_build fs ls es) = false.
Proof.
  intros es fs ls.
  apply (proj2 (build_max_columns es fs ls ltac:(reflexivity))). vm_compute. lia.
Defined.

(** The graph row of an entry: empty when the graph is disabled;
    otherwise one cell per column, coloured by its column, with the [*]
    glyph exactly at the entry's own process column. *)
Theorem render_graph_shape (g : ProcessGraph) (entry_idx : nat) (e : SyscallEntry) :
  let row := render_graph_for_entry g entry_idx e in
  let current_column := match processes g !! pid e with Some i => pcolumn i | None => 0 end in
  (enabled g = false -> row = []) /\
  (enabled g = true -> length row = max_columns g /\
     forall col ch c, row !! col = Some (ch, c) ->
       c = get_color_for_column col /\ (ch = ch_star <-> col = current_column)).
Proof.
  intros row cur. unfold row, render_graph_for_entry. split.
  - intros ->. reflexivity.
  - intros ->. simpl. split; [rewrite length_map, length_seq; reflexivity|].
    intros col ch c H. rewrite list_lookup_fmap in H.
    destruct (seq 0 (max_columns g) !! col) as [x|] eqn:Ex; [|discriminate].
    apply lookup_seq in Ex as [Ex _]. simpl in Ex. subst x.
    injection H as Hch Hc. split; [symmetry; exact Hc|].
    rewrite <- Hch. fold cur.
    destruct (Nat.eqb_spec col cur) as [->|Hne].
    + split; [reflexivity|intros _]. repeat case_match; rewrite ?Nat.eqb_refl; reflexivity.
    + split; [|intros E; contradiction].
      repeat case_match; unfold ch_star, ch_hline, ch_vline, ch_fork, ch_wait, ch_space;
        intros E; try discriminate; apply Nat.eqb_eq in E || idtac; try congruence.
Qed.

Lemma render_graph_shape_witness :
  let es := [SyscallEntry_new 100 [] (txt "clone"); SyscallEntry_new 200 [] (txt "read");
             SyscallEntry_new 100 [] (txt "wait4"); SyscallEntry_new 200 [] (txt "exit")] in
  let fp := first_pass es in
  let G := ProcessGraph_build (map_to_list (pid_first_seen fp)) (map_to_list (pid_last_seen fp)) es in
  length (render_graph_for_entry G 1 (SyscallEntry_new 200 [] (txt "read"))) = 2 /\
  exists c, render_graph_for_entry G 1 (SyscallEntry_new 200 [] (txt "read")) !! 1 = Some (ch_star, c) /\
            c = get_color_for_column 1.
Proof.
  intros es fp G.
  destruct (render_graph_shape G 1 (SyscallEntry_new 200 [] (txt "read"))) as [_ H].
  destruct (H ltac:(vm_compute; reflexivity)) as [Hlen Hcell].
  split; [rewrite Hlen; vm_compute; reflexivity|].
  assert (Hc : render_graph_for_entry G 1 (SyscallEntry_new 200 [] (txt "read")) !! 1 =
               Some (ch_star, get_color_for_column 1)) by (vm_compute; reflexivity).
  exists (get_color_for_column 1). split; [exact Hc|].
  exact (proj1 (Hcell 1 ch_star _ Hc)).
Defined.





Lemma parse_resumed_line_ok p ts t : exists e, parse_resumed_line p ts t = Ok e.
Proof.
  unfold parse_resumed_line. repeat (case_match; try (eexists; reflexivity)); subst; try discriminate.
Qed.

(** [parse_strace_line] fails only with [InvalidSyscall]; an exit line
    (containing [+++]) always gives an [exit] entry with its exit
    information, and a signal line (containing [---]) a [signal] entry. *)
Theorem parse_strace_line_outcomes (line : str) :
  (forall er, parse_strace_line line = Err er -> exists msg, er = InvalidSyscall msg) /\
  (contains (txt "+++") line = true ->
     exists e, parse_strace_line line = Ok e /\ syscall_name e = txt "exit" /\ is_Some (exit_info e)) /\
  (contains (txt "+++") line = false -> contains (txt "---") line = true ->
     exists e, parse_strace_line line = Ok e /\ syscall_name e = txt "signal").
Proof.
  unfold parse_strace_line. split; [|split].
  - intros er. destruct (contains (txt "+++") line) eqn:E1.
    { unfold parse_exit_line. destruct (parse_prefix line) as [r [p ts]].
      destruct (find (txt "+++") line); discriminate. }
    destruct (contains (txt "---") line) eqn:E2.
    { unfold parse_signal_line. destruct (parse_prefix line) as [r [p ts]].
      repeat case_match; discriminate. }
    destruct (parse_prefix line) as [r [p ts]].
    destruct (starts_with (txt "<...") (trim_start r)).
    { destruct (parse_resumed_line_ok p ts r) as [e ->]. discriminate. }
    destruct (parse_syscall_name r) as [[r1 name]|]; [|simpl; intros H; inversion H; eauto].
    destruct (parse_arguments r1) as [[r2 args]|]; [|simpl; intros H; inversion H; eauto].
    destruct (contains (txt "<unfinished") r2); [discriminate|].
    repeat case_match; discriminate.
  - intros H. rewrite H. unfold parse_exit_line. unfold contains in H. destruct (parse_prefix line) as [r [p ts]].
    destruct (find (txt "+++") line); [|discriminate]. eexists. split; [reflexivity|].
    split; [reflexivity|]. simpl. eexists. reflexivity.
  - intros -> ->. unfold parse_signal_line. destruct (parse_prefix line) as [r [p ts]].
    repeat case_match; eexists; (split; [reflexivity|reflexivity]).
Qed.

Lemma parse_strace_line_outcomes_witness :
  exists e, parse_strace_line (txt "+++ exited with 0 +++") = Ok e /\
            syscall_name e = txt "exit" /\ is_Some (exit_info e).
Proof. apply (proj1 (proj2 (parse_strace_line_outcomes (txt "+++ exited with 0 +++")))). reflexivity. Defined.

(* ---- character facts, checked over all 256 characters ---- *)

Ltac ascii_cases c := destruct c as [[] [] [] [] [] [] [] []]; vm_compute; first [reflexivity | discriminate | intros; discriminate].

Lemma digit_not_space c : is_digit c = true -> is_space c = false.
Proof. ascii_cases c. Qed.
Lemma digit_not_ws c : is_digit c = true -> is_whitespace c = false.
Proof. ascii_cases c. Qed.
Lemma name_not_space c : is_name_char c = true -> is_space c = false.
Proof. ascii_cases c. Qed.
Lemma name_not_ws c : is_name_char c = true -> is_whitespace c = false.
Proof. ascii_cases c. Qed.
Lemma digit_name c : is_digit c = true -> is_name_char c = true.
Proof. ascii_cases c. Qed.
Lemma digit_ascii c : is_digit c = true -> (nat_of_ascii c <? 128) = true.
Proof. ascii_cases c. Qed.
Lemma name_ascii c : is_name_char c = true -> (nat_of_ascii c <? 128) = true.
Proof. ascii_cases c. Qed.

(* ---- list lemmas for the nom combinators ---- *)

Lemma forallb_imp (f g : ascii -> bool) l :
  (forall x, f x = true -> g x = true) -> forallb f l = true -> forallb g l = true.
Proof.
  intros Hfg. induction l as [|x l IH]; simpl; [reflexivity|].
  intros H. apply andb_true_iff in H as [H1 H2]. rewrite (Hfg x H1), (IH H2). reflexivity.
Qed.

Lemma take_while_stop f a c r :
  forallb f a = true -> f c = false -> take_while f (a ++ c :: r) = (a, c :: r).
Proof.
  intros Ha Hc. induction a as [|x a IH]; simpl; [rewrite Hc; reflexivity|].
  simpl in Ha. apply andb_true_iff in Ha as [H1 H2]. rewrite H1, (IH H2). reflexivity.
Qed.

Lemma take_while_all f a : forallb f a = true -> take_while f a = (a, []).
Proof.
  intros Ha. induction a as [|x a IH]; simpl; [reflexivity|].
  simpl in Ha. apply andb_true_iff in Ha as [H1 H2]. rewrite H1, (IH H2). reflexivity.
Qed.

Lemma digit1_stop a c r :
  a <> [] -> forallb is_digit a = true -> is_digit c = false -> digit1 (a ++ c :: r) = Some (c :: r, a).
Proof.
  intros Hne Ha Hc. unfold digit1, take_while1. rewrite (take_while_stop _ _ _ _ Ha Hc).
  destruct a; [congruence|reflexivity].
Qed.

Lemma digit1_all a : a <> [] -> forallb is_digit a = true -> digit1 a = Some ([], a).
Proof.
  intros Hne Ha. unfold digit1, take_while1. rewrite (take_while_all _ _ Ha). destruct a; [congruence|reflexivity].
Qed.

Lemma space1_one R :
  match R with [] => true | c :: _ => negb (is_space c) end = true -> space1 (" "%char :: R) = Some R.
Proof.
  intros H. unfold space1, take_while1. destruct R as [|c R]; [reflexivity|].
  simpl. apply negb_true_iff in H. rewrite H. reflexivity.
Qed.

Lemma find_app_skip c p u v :
  forallb (fun x => negb (ascii_eqb c x)) u = true ->
  find (c :: p) (u ++ v) = option_map (Nat.add (length u)) (find (c :: p) v).
Proof.
  intros Hu. induction u as [|x u IH]; simpl.
  - destruct (find (c :: p) v); reflexivity.
  - simpl in Hu. apply andb_true_iff in Hu as [H1 H2]. apply negb_true_iff in H1.
    rewrite H1. simpl. rewrite (IH H2). destruct (find (c :: p) v); reflexivity.
Qed.

Lemma avoids_cons_l y p w : avoids (y :: p) w = true -> avoids p w = true.
Proof.
  unfold avoids. apply forallb_imp. intros x H. simpl in H. apply andb_true_iff in H as [_ H]. exact H.
Qed.

Lemma starts_with_app_false p u w :
  starts_with p u = false -> avoids p w = true -> starts_with p (u ++ w) = false.
Proof.
  revert u. induction p as [|y p IH]; intros u Hu Hw; [discriminate|].
  destruct u as [|x u]; simpl.
  - destruct w as [|x w]; [reflexivity|]. simpl in Hw. apply andb_true_iff in Hw as [H _].
    simpl in H. apply andb_true_iff in H as [H _]. apply negb_true_iff in H. rewrite H. reflexivity.
  - simpl in Hu. destruct (ascii_eqb y x); simpl in *; [|reflexivity].
    apply IH; [exact Hu|]. eapply avoids_cons_l. exact Hw.
Qed.

Lemma find_avoid p w : p <> [] -> avoids p w = true -> find p w = None.
Proof.
  intros Hp Hw. induction w as [|x w IH].
  - destruct p; [congruence|reflexivity].
  - simpl. assert (Hs : starts_with p (x :: w) = false).
    { destruct p as [|y p]; [congruence|]. simpl. simpl in Hw. apply andb_true_iff in Hw as [H _].
      simpl in H. apply andb_true_iff in H as [H _]. apply negb_true_iff in H. rewrite H. reflexivity. }
    rewrite Hs. simpl in Hw. apply andb_true_iff in Hw as [_ Hw]. rewrite (IH Hw). reflexivity.
Qed.

Lemma find_none_app p a w : p <> [] -> find p a = None -> avoids p w = true -> find p (a ++ w) = None.
Proof.
  intros Hp Ha Hw. induction a as [|x a IH]; simpl.
  - apply find_avoid; assumption.
  - simpl in Ha. destruct (starts_with p (x :: a)) eqn:Es; [discriminate|].
    change (x :: a ++ w) with ((x :: a) ++ w). rewrite (starts_with_app_false p (x :: a) w Es Hw). destruct (find p a); [discriminate|].
    rewrite (IH eq_refl). reflexivity.
Qed.

Lemma find_close_stop a r i d :
  forallb no_paren a = true -> find_close (a ++ ")"%char :: r) (Z.succ d) i =
    if (d =? 0)%Z then Some (i + length a) else find_close r d (S (i + length a)).
Proof.
  revert i. induction a as [|x a IH]; intros i Ha; simpl.
  - replace (Z.succ d - 1)%Z with d by lia. rewrite Nat.add_0_r. reflexivity.
  - simpl in Ha. apply andb_true_iff in Ha as [H1 H2]. unfold no_paren in H1.
    apply negb_true_iff, orb_false_iff in H1 as [-> ->]. rewrite (IH (S i) H2).
    replace (S i + length a) with (i + S (length a)) by lia. reflexivity.
Qed.

Lemma digits_ok_spec t : digits_ok t = true -> t <> [] /\ forallb is_digit t = true.
Proof. unfold digits_ok. destruct t; simpl; [discriminate|]. intros H. split; [discriminate|exact H]. Qed.

Lemma digits_head t : digits_ok t = true -> exists c t', t = c :: t' /\ is_digit c = true.
Proof. destruct t as [|c t]; [discriminate|]. unfold digits_ok. simpl. intros H. apply andb_true_iff in H as [H _]. eauto. Qed.

Lemma parse_timestamp_ok h m s R :
  digits_ok h = true -> digits_ok m = true -> digits_ok s = true ->
  parse_timestamp (h ++ ":"%char :: m ++ ":"%char :: s ++ " "%char :: R) =
    Some (" "%char :: R, h ++ ":"%char :: m ++ ":"%char :: s).
Proof.
  intros Hh Hm Hs. apply digits_ok_spec in Hh as [Hh1 Hh2], Hm as [Hm1 Hm2], Hs as [Hs1 Hs2].
  unfold parse_timestamp.
  rewrite (digit1_stop h ":"%char _ Hh1 Hh2 eq_refl). simpl.
  rewrite (digit1_stop m ":"%char _ Hm1 Hm2 eq_refl). simpl.
  rewrite (digit1_stop s " "%char _ Hs1 Hs2 eq_refl). simpl.
  f_equal. f_equal.
  replace (h ++ ":"%char :: m ++ ":"%char :: s ++ " "%char :: R)
    with ((h ++ ":"%char :: m ++ ":"%char :: s) ++ " "%char :: R)
    by (rewrite <- app_assoc; simpl; rewrite <- app_assoc; reflexivity).
  apply recognized_app.
Qed.

Lemma parse_prefix_pid_ts p h m s R :
  digits_ok p = true -> digits_ok h = true -> digits_ok m = true -> digits_ok s = true ->
  match R with [] => true | c :: _ => negb (is_space c) end = true ->
  parse_prefix (p ++ " "%char :: h ++ ":"%char :: m ++ ":"%char :: s ++ " "%char :: R) =
    (R, (pid_of p, h ++ ":"%char :: m ++ ":"%char :: s)).
Proof.
  intros Hp Hh Hm Hs HR. pose proof (digits_ok_spec _ Hp) as [Hp1 Hp2].
  destruct (digits_head _ Hh) as (ch & h' & Eh & Hch).
  unfold parse_prefix, parse_pid_and_timestamp.
  rewrite (digit1_stop p " "%char _ Hp1 Hp2 eq_refl).
  rewrite (space1_one (h ++ _)) by (rewrite Eh; simpl; rewrite (digit_not_space _ Hch); reflexivity).
  rewrite (parse_timestamp_ok _ _ _ _ Hh Hm Hs).
  rewrite (space1_one R HR). reflexivity.
Qed.

(* ---- a complete syscall line ---- *)

Lemma plain_no_plus c : plain c = true -> negb (ascii_eqb "+" c) = true.
Proof. ascii_cases c. Qed.
Lemma plain_no_minus c : plain c = true -> negb (ascii_eqb "-" c) = true.
Proof. ascii_cases c. Qed.
Lemma name_not_lt c : is_name_char c = true -> ascii_eqb "<" c = false.
Proof. ascii_cases c. Qed.
Lemma digit_plain c : is_digit c = true -> plain c = true.
Proof. ascii_cases c. Qed.
Lemma name_plain c : is_name_char c = true -> plain c = true.
Proof. ascii_cases c. Qed.
Lemma digit_avoids_plus c : is_digit c = true -> forallb (fun y => negb (ascii_eqb y c)) (txt "+++") = true.
Proof. ascii_cases c. Qed.
Lemma digit_avoids_minus c : is_digit c = true -> forallb (fun y => negb (ascii_eqb y c)) (txt "---") = true.
Proof. ascii_cases c. Qed.
Lemma digit_avoids_unf c : is_digit c = true -> forallb (fun y => negb (ascii_eqb y c)) (txt "<unfinished") = true.
Proof. ascii_cases c. Qed.
Lemma digit_not_x c : is_digit c = true -> ascii_eqb "x" c = false.
Proof. ascii_cases c. Qed.
Lemma digit_not_minus c : is_digit c = true -> ascii_eqb c "-" = false.
Proof. ascii_cases c. Qed.
Lemma digit_not_one_minus c : is_digit c = true -> ascii_eqb "-" c = false.
Proof. ascii_cases c. Qed.
Lemma digit_not_q c : is_digit c = true -> ascii_eqb "?" c = false.
Proof. ascii_cases c. Qed.
Lemma digit_not_lt c : is_digit c = true -> ascii_eqb c "<" = false.
Proof. ascii_cases c. Qed.

Lemma space0_stop x t : is_space x = false -> space0 (x :: t) = x :: t.
Proof. intros H. unfold space0. simpl. rewrite H. reflexivity. Qed.

Lemma firstn_app_len (a b : str) : firstn (length a) (a ++ b) = a.
Proof. induction a as [|x a IH]; simpl; [reflexivity|]. rewrite IH. reflexivity. Qed.

Lemma skipn_app_len (a b : str) : skipn (length a) (a ++ b) = b.
Proof. induction a as [|x a IH]; simpl; [reflexivity|]. exact IH. Qed.

Lemma skipn_app_len_S (a b : str) x : skipn (length a + 1) (a ++ x :: b) = b.
Proof. induction a as [|y a IH]; simpl; [reflexivity|]. exact IH. Qed.

Lemma parse_arguments_closed args suffix :
  forallb no_paren args = true -> find (txt "<unfinished") args = None ->
  avoids (txt "<unfinished") suffix = true ->
  parse_arguments ("("%char :: args ++ ")"%char :: suffix) = Some (suffix, args).
Proof.
  intros Ha Hu Hs. unfold parse_arguments.
  change (space0 ("("%char :: args ++ ")"%char :: suffix)) with ("("%char :: args ++ ")"%char :: suffix).
  change (char_ "(" ("("%char :: args ++ ")"%char :: suffix)) with (Some (args ++ ")"%char :: suffix)).
  cbv beta iota.
  rewrite (find_none_app (txt "<unfinished") args (")"%char :: suffix) ltac:(discriminate) Hu).
  2:{ unfold avoids in *. simpl. exact Hs. }
  pose proof (find_close_stop args suffix 0 0%Z Ha) as E. change (Z.succ 0) with 1%Z in E.
  rewrite E. simpl. rewrite firstn_app_len, skipn_app_len_S. reflexivity.
Qed.

Lemma char_neq c x t : ascii_eqb x c = false -> char_ c (x :: t) = None.
Proof. intros H. simpl. rewrite H. reflexivity. Qed.

Lemma tag_0x_digits n : digits_ok n = true -> tag (txt "0x") n = None.
Proof.
  intros Hn. destruct (digits_head n Hn) as (c & n' & -> & Hc). unfold tag, txt.
  destruct n' as [|d n'']; cbn [list_ascii_of_string starts_with].
  - rewrite andb_false_r. reflexivity.
  - unfold digits_ok in Hn. simpl in Hn. apply andb_true_iff in Hn as [_ Hn].
    apply andb_true_iff in Hn as [Hd _]. rewrite (digit_not_x d Hd). rewrite andb_false_r. reflexivity.
Qed.

Lemma parse_return_value_digits n :
  digits_ok n = true -> parse_return_value (" "%char :: "="%char :: " "%char :: n) = Some ([], n).
Proof.
  intros Hn. pose proof (tag_0x_digits n Hn) as Ht. pose proof (digits_ok_spec n Hn) as [Hn1 Hn2].
  destruct (digits_head n Hn) as (c & n' & En & Hc).
  unfold parse_return_value. cbv zeta.
  change (space0 (" "%char :: "="%char :: " "%char :: n)) with ("="%char :: " "%char :: n).
  change (char_ "=" ("="%char :: " "%char :: n)) with (Some (" "%char :: n)). cbv iota beta.
  change (space0 (" "%char :: n)) with (space0 n). rewrite En in *.
  rewrite (space0_stop _ _ (digit_not_space c Hc)). rewrite Ht.
  rewrite (char_neq "-" c n' (digit_not_minus c Hc)). rewrite (digit1_all _ Hn1 Hn2).
  unfold recognized. rewrite Nat.sub_0_r, firstn_all. reflexivity.
Qed.

Lemma find_skip_plain_plus p u v : forallb plain u = true ->
  find ("+"%char :: p) (u ++ v) = option_map (Nat.add (length u)) (find ("+"%char :: p) v).
Proof. intros H. apply find_app_skip. eapply forallb_imp; [|exact H]. exact plain_no_plus. Qed.

Lemma find_skip_plain_minus p u v : forallb plain u = true ->
  find ("-"%char :: p) (u ++ v) = option_map (Nat.add (length u)) (find ("-"%char :: p) v).
Proof. intros H. apply find_app_skip. eapply forallb_imp; [|exact H]. exact plain_no_minus. Qed.

Lemma avoids_digits q n :
  (forall c, is_digit c = true -> forallb (fun y => negb (ascii_eqb y c)) q = true) ->
  forallb is_digit n = true -> avoids q n = true.
Proof. intros Hq Hn. unfold avoids. eapply forallb_imp; [|exact Hn]. exact Hq. Qed.

Lemma plain_no_lt c : plain c = true -> negb (ascii_eqb "<" c) = true.
Proof. ascii_cases c. Qed.

(** The common head of a syscall line [PID HH:MM:SS NAME(]: what
    [parse_strace_line] computes before it reaches the arguments. *)
Lemma line_head_facts p h m s name args suffix :
  digits_ok p = true -> digits_ok h = true -> digits_ok m = true -> digits_ok s = true ->
  name <> [] -> forallb is_name_char name = true ->
  find (txt "+++") args = None -> find (txt "---") args = None ->
  avoids (txt "+++") suffix = true -> avoids (txt "---") suffix = true ->
  let line := p ++ " "%char :: h ++ ":"%char :: m ++ ":"%char :: s ++ " "%char :: name ++ "("%char :: args ++ suffix in
  let u := p ++ " "%char :: h ++ ":"%char :: m ++ ":"%char :: s ++ " "%char :: name ++ ["("%char] in
  line = u ++ args ++ suffix /\ forallb plain u = true /\
  contains (txt "+++") line = false /\ contains (txt "---") line = false /\
  parse_prefix line = (name ++ "("%char :: args ++ suffix, (pid_of p, h ++ ":"%char :: m ++ ":"%char :: s)) /\
  starts_with (txt "<...") (trim_start (name ++ "("%char :: args ++ suffix)) = false /\
  parse_syscall_name (name ++ "("%char :: args ++ suffix) = Some ("("%char :: args ++ suffix, name).
Proof.
  intros Hp Hh Hm Hs Hne Hname Hplus Hminus Sp Sm line u.
  pose proof (forallb_imp _ _ _ digit_plain (proj2 (digits_ok_spec _ Hp))) as Pp.
  pose proof (forallb_imp _ _ _ digit_plain (proj2 (digits_ok_spec _ Hh))) as Ph.
  pose proof (forallb_imp _ _ _ digit_plain (proj2 (digits_ok_spec _ Hm))) as Pm.
  pose proof (forallb_imp _ _ _ digit_plain (proj2 (digits_ok_spec _ Hs))) as Ps.
  pose proof (forallb_imp _ _ _ name_plain Hname) as Pn.
  assert (Eline : line = u ++ args ++ suffix).
  { unfold line, u. repeat (rewrite <- app_assoc; simpl). reflexivity. }
  assert (Hu : forallb plain u = true).
  { unfold u. repeat (rewrite forallb_app; cbn [forallb]).
    rewrite Pp, Ph, Pm, Ps, Pn. reflexivity. }
  destruct name as [|c0 name']; [congruence|].
  assert (Hc0 : is_name_char c0 = true) by (simpl in Hname; apply andb_true_iff in Hname as [H _]; exact H).
  split; [exact Eline|]. split; [exact Hu|]. split; [|split; [|split; [|split]]].
  - unfold contains. rewrite Eline. change (txt "+++") with ("+"%char :: txt "++").
    rewrite (find_skip_plain_plus _ _ _ Hu).
    rewrite (find_none_app ("+"%char :: txt "++") args suffix ltac:(discriminate) Hplus Sp). reflexivity.
  - unfold contains. rewrite Eline. change (txt "---") with ("-"%char :: txt "--").
    rewrite (find_skip_plain_minus _ _ _ Hu).
    rewrite (find_none_app ("-"%char :: txt "--") args suffix ltac:(discriminate) Hminus Sm). reflexivity.
  - unfold line. apply (parse_prefix_pid_ts p h m s _ Hp Hh Hm Hs).
    simpl. rewrite (name_not_space _ Hc0). reflexivity.
  - change ((c0 :: name') ++ "("%char :: args ++ suffix) with (c0 :: name' ++ "("%char :: args ++ suffix).
    rewrite (trim_start_stop _ _ (name_not_ws c0 Hc0) (proj1 (Nat.ltb_lt _ _) (name_ascii c0 Hc0))).
    change (txt "<...") with ("<"%char :: txt "..."). cbn [starts_with].
    rewrite (name_not_lt c0 Hc0). reflexivity.
  - unfold parse_syscall_name, take_while1.
    rewrite (take_while_stop _ (c0 :: name') "("%char (args ++ suffix) Hname eq_refl). reflexivity.
Qed.

(** A complete syscall line [PID HH:MM:SS name(args) = N], with
    decimal PID, time fields and return value, a name of name characters
    and ASCII arguments without parentheses or the markers [+++], [---]
    and [<unfinished], parses to the entry with that PID, timestamp, name,
    arguments and return value, and no errno or duration. *)
Theorem parse_strace_line_syscall p h m s name args n :
  digits_ok p = true -> digits_ok h = true -> digits_ok m = true -> digits_ok s = true ->
  name <> [] -> forallb is_name_char name = true ->
  ascii_text args = true -> forallb no_paren args = true ->
  find (txt "+++") args = None -> find (txt "---") args = None -> find (txt "<unfinished") args = None ->
  digits_ok n = true ->
  parse_strace_line (p ++ " "%char :: h ++ ":"%char :: m ++ ":"%char :: s ++ " "%char ::
                     name ++ "("%char :: args ++ ")"%char :: " "%char :: "="%char :: " "%char :: n) =
  Ok (set_outcome (set_arguments (SyscallEntry_new (pid_of p) (h ++ ":"%char :: m ++ ":"%char :: s) name) args)
                  (Some n) None None).
Proof.
  intros Hp Hh Hm Hs Hne Hname _ Hpar Hplus Hminus Hunf Hn.
  pose proof (digits_ok_spec n Hn) as [_ Hn2].
  set (suffix := ")"%char :: " "%char :: "="%char :: " "%char :: n).
  assert (Sp : avoids (txt "+++") suffix = true).
  { unfold suffix. change (avoids (txt "+++") (txt ") =" ++ " "%char :: n) = true).
    unfold avoids. rewrite forallb_app. simpl. apply (avoids_digits _ _ digit_avoids_plus Hn2). }
  assert (Sm : avoids (txt "---") suffix = true).
  { unfold suffix. change (avoids (txt "---") (txt ") =" ++ " "%char :: n) = true).
    unfold avoids. rewrite forallb_app. simpl. apply (avoids_digits _ _ digit_avoids_minus Hn2). }
  destruct (line_head_facts p h m s name args suffix Hp Hh Hm Hs Hne Hname Hplus Hminus Sp Sm)
    as (_ & _ & Cplus & Cminus & Epre & Elt & Ename).
  unfold parse_strace_line. fold suffix. rewrite Cplus, Cminus, Epre. cbv iota beta.
  rewrite Elt, Ename. cbv iota beta.
  assert (Hsfx : avoids (txt "<unfinished") (" "%char :: "="%char :: " "%char :: n) = true).
  { change (" "%char :: "="%char :: " "%char :: n) with (txt " = " ++ n).
    unfold avoids. rewrite forallb_app. apply (avoids_digits _ _ digit_avoids_unf Hn2). }
  unfold suffix. rewrite (parse_arguments_closed args _ Hpar Hunf Hsfx). cbv iota beta.
  assert (Cu : contains (txt "<unfinished") (" "%char :: "="%char :: " "%char :: n) = false).
  { unfold contains. rewrite (find_avoid (txt "<unfinished") _ ltac:(discriminate) Hsfx). reflexivity. }
  rewrite Cu. rewrite (parse_return_value_digits n Hn). cbv iota beta.
  destruct (digits_head n Hn) as (c & n' & En & Hc). rewrite En.
  change (txt "-1") with ("-"%char :: txt "1"). change (txt "?") with ("?"%char :: []).
  cbn [starts_with]. rewrite (digit_not_one_minus c Hc), (digit_not_q c Hc). reflexivity.
Qed.

Lemma parse_strace_line_syscall_witness :
  parse_strace_line (txt "1234 10:20:30 read(3, buf, 1024) = 5") =
  Ok (set_outcome (set_arguments (SyscallEntry_new 1234%Z (txt "10:20:30") (txt "read")) (txt "3, buf, 1024"))
                  (Some (txt "5")) None None).
Proof.
  exact (parse_strace_line_syscall (txt "1234") (txt "10") (txt "20") (txt "30") (txt "read")
           (txt "3, buf, 1024") (txt "5") eq_refl eq_refl eq_refl eq_refl ltac:(discriminate) eq_refl
           eq_refl eq_refl eq_refl eq_refl eq_refl eq_refl).
Defined.

(** A line [PID HH:MM:SS name(args<unfinished ...>], whose arguments
    contain no [<] and neither [+++] nor [---], parses to an unfinished
    entry (not resumed) whose arguments are [args] with the trailing
    commas and spaces removed. *)
Theorem parse_strace_line_unfinished p h m s name args :
  digits_ok p = true -> digits_ok h = true -> digits_ok m = true -> digits_ok s = true ->
  name <> [] -> forallb is_name_char name = true ->
  forallb (fun c => negb (ascii_eqb "<" c)) args = true ->
  find (txt "+++") args = None -> find (txt "---") args = None ->
  parse_strace_line (p ++ " "%char :: h ++ ":"%char :: m ++ ":"%char :: s ++ " "%char ::
                     name ++ "("%char :: args ++ txt "<unfinished ...>") =
  Ok (set_flags (set_arguments (SyscallEntry_new (pid_of p) (h ++ ":"%char :: m ++ ":"%char :: s) name)
                               (trim_end_commas args)) true false).
Proof.
  intros Hp Hh Hm Hs Hne Hname Hlt Hplus Hminus.
  destruct (line_head_facts p h m s name args (txt "<unfinished ...>") Hp Hh Hm Hs Hne Hname Hplus Hminus
              eq_refl eq_refl)
    as (_ & _ & Cplus & Cminus & Epre & Elt & Ename).
  unfold parse_strace_line. rewrite Cplus, Cminus, Epre. cbv iota beta.
  rewrite Elt, Ename. cbv iota beta.
  unfold parse_arguments.
  change (space0 ("("%char :: args ++ txt "<unfinished ...>")) with ("("%char :: args ++ txt "<unfinished ...>").
  change (char_ "(" ("("%char :: args ++ txt "<unfinished ...>")) with (Some (args ++ txt "<unfinished ...>")).
  cbv iota beta.
  change (txt "<unfinished") with ("<"%char :: txt "unfinished").
  rewrite (find_app_skip _ _ args _ Hlt). change (find _ (txt "<unfinished ...>")) with (Some 0). cbn [option_map].
  rewrite Nat.add_0_r, firstn_app_len, skipn_app_len. reflexivity.
Qed.

Lemma parse_strace_line_unfinished_witness :
  parse_strace_line (txt "1234 10:20:30 read(3, <unfinished ...>") =
  Ok (set_flags (set_arguments (SyscallEntry_new 1234%Z (txt "10:20:30") (txt "read")) (txt "3")) true false).
Proof.
  exact (parse_strace_line_unfinished (txt "1234") (txt "10") (txt "20") (txt "30") (txt "read")
           (txt "3, ") eq_refl eq_refl eq_refl eq_refl ltac:(discriminate) eq_refl eq_refl eq_refl eq_refl).
Defined.

(* ---- errno and duration ---- *)

Lemma errno_head_not_lt c : (is_upper c || is_digit c) = true -> ascii_eqb c "<" = false.
Proof. ascii_cases c. Qed.

Lemma parse_errno_no_duration r x : parse_errno r = Some x -> parse_duration r = None.
Proof.
  unfold parse_errno, parse_duration, take_while1.
  destruct (space0 r) as [|c r'] eqn:E; [discriminate|]. simpl.
  destruct (is_upper c || is_digit c) eqn:Hc; [|discriminate].
  rewrite (errno_head_not_lt c Hc). reflexivity.
Qed.

(** When a parsed entry carries an errno, it carries no duration: the
    duration is looked for right after the return value, where the errno
    name stands. *)
Theorem parse_strace_line_errno_no_duration line e :
  parse_strace_line line = Ok e -> errno e <> None -> duration e = None.
Proof.
  unfold parse_strace_line.
  destruct (contains (txt "+++") line).
  { unfold parse_exit_line. destruct (parse_prefix line) as [? [? ?]].
    destruct (find (txt "+++") line); intros H; inversion H; subst; simpl; congruence. }
  destruct (contains (txt "---") line).
  { unfold parse_signal_line. destruct (parse_prefix line) as [? [? ?]].
    destruct (find (txt "---") line); [destruct find|]; intros H; inversion H; subst; simpl; congruence. }
  destruct (parse_prefix line) as [rest [p ts]].
  destruct (starts_with (txt "<...") (trim_start rest)).
  { unfold parse_resumed_line. cbv zeta.
    destruct (find (txt "resumed>") (trim_start rest)) as [pos|]; [|intros H; inversion H; subst; simpl; congruence].
    destruct (find (txt ") = ") _) as [rs|].
    - destruct (parse_return_value _) as [[r rv]|]; [|intros H; inversion H; subst; simpl; congruence].
      destruct (starts_with (txt "-1") rv); [|intros H; inversion H; subst; simpl; congruence].
      destruct (parse_errno r) as [[? x]|] eqn:Er; [|intros H; inversion H; subst; simpl; congruence].
      rewrite (parse_errno_no_duration _ _ Er). intros H; inversion H; subst; reflexivity.
    - destruct (option_map _ _) as [rp|]; [|intros H; inversion H; subst; simpl; congruence].
      destruct (parse_return_value rp) as [[r rv]|]; [|intros H; inversion H; subst; simpl; congruence].
      destruct (starts_with (txt "-1") rv); [|intros H; inversion H; subst; simpl; congruence].
      destruct (parse_errno r) as [[? x]|] eqn:Er; [|intros H; inversion H; subst; simpl; congruence].
      rewrite (parse_errno_no_duration _ _ Er). intros H; inversion H; subst; reflexivity. }
  destruct (parse_syscall_name rest) as [[r1 name]|]; [|discriminate].
  destruct (parse_arguments r1) as [[r2 args]|]; [|discriminate].
  destruct (contains (txt "<unfinished") r2); [intros H; inversion H; subst; simpl; congruence|].
  destruct (parse_return_value r2) as [[r3 v]|].
  - destruct (starts_with (txt "-1") v || starts_with (txt "?") v); [|intros H; inversion H; subst; simpl; congruence].
    destruct (parse_errno r3) as [[? x]|] eqn:Er; [|intros H; inversion H; subst; simpl; congruence].
    rewrite (parse_errno_no_duration _ _ Er). intros H; inversion H; subst; reflexivity.
  - intros H; inversion H; subst; simpl; congruence.
Qed.

Lemma parse_strace_line_errno_no_duration_witness :
  parse_strace_line (txt "1234 10:20:30 open(x) = -1 ENOENT (No such file) <0.000012>") =
    Ok (set_outcome (set_arguments (SyscallEntry_new 1234%Z (txt "10:20:30") (txt "open")) (txt "x"))
          (Some (txt "-1")) (Some {| code := txt "ENOENT"; message := txt "No such file" |}) None) /\
  duration (set_outcome (set_arguments (SyscallEntry_new 1234%Z (txt "10:20:30") (txt "open")) (txt "x"))
          (Some (txt "-1")) (Some {| code := txt "ENOENT"; message := txt "No such file" |}) None) = None.
Proof.
  assert (E : parse_strace_line (txt "1234 10:20:30 open(x) = -1 ENOENT (No such file) <0.000012>") =
    Ok (set_outcome (set_arguments (SyscallEntry_new 1234%Z (txt "10:20:30") (txt "open")) (txt "x"))
          (Some (txt "-1")) (Some {| code := txt "ENOENT"; message := txt "No such file" |}) None))
    by (vm_compute; reflexivity).
  split; [exact E|]. apply (parse_strace_line_errno_no_duration _ _ E). simpl. discriminate.
Defined.

(* ---- exit lines ---- *)

Lemma digits_value_ge acc t : (0 <= acc)%Z -> forallb is_digit t = true -> (acc <= digits_value acc t)%Z.
Proof.
  revert acc. induction t as [|c t IH]; intros acc Ha Ht; simpl; [lia|].
  simpl in Ht. apply andb_true_iff in Ht as [_ Ht].
  specialize (IH (10 * acc + Z.of_nat (digit_val c))%Z ltac:(lia) Ht). lia.
Qed.

Lemma parse_i32_digits d :
  digits_ok d = true -> (digits_value 0 d < 2 ^ 31)%Z -> parse_i32 d = Some (digits_value 0 d).
Proof.
  intros Hd Hv. pose proof (digits_ok_spec d Hd) as [_ Hall].
  pose proof (digits_value_ge 0 d ltac:(lia) Hall) as Hge.
  assert (H1 : (- 2 ^ 31 <=? digits_value 0 d)%Z = true) by (apply Z.leb_le; lia).
  assert (H2 : (digits_value 0 d <? 2 ^ 31)%Z = true) by (apply Z.ltb_lt; lia).
  unfold digits_ok in Hd. destruct d as [|c d']; [discriminate|].
  assert (Hc : is_digit c = true) by (simpl in Hall; apply andb_true_iff in Hall as [H _]; exact H).
  unfold parse_i32. clear Hv Hge Hall.
  destruct c as [[] [] [] [] [] [] [] []]; try discriminate Hc; cbn iota beta zeta; rewrite Hd;
    cbn iota; rewrite H1, H2; reflexivity.
Qed.

Lemma digit_not_w c : is_digit c = true -> negb (ascii_eqb "w" c) = true.
Proof. ascii_cases c. Qed.
Lemma digit_not_k c : is_digit c = true -> negb (ascii_eqb "k" c) = true.
Proof. ascii_cases c. Qed.

Lemma skipn_app_len_plus (a b : str) k : skipn (length a + k) (a ++ b) = skipn k b.
Proof. induction a as [|x a IH]; simpl; [reflexivity|]. exact IH. Qed.

Lemma trim_start_digits d y : digits_ok d = true -> trim_start (d ++ y) = d ++ y.
Proof.
  intros Hd. destruct (digits_head d Hd) as (c & d' & -> & Hc). simpl.
  apply trim_start_stop; [apply digit_not_ws, Hc|apply Nat.ltb_lt, digit_ascii, Hc].
Qed.

Lemma take_word_digits d r : forallb is_digit d = true -> take_word (d ++ " "%char :: r) = d.
Proof.
  induction d as [|c d IH]; intros H; [reflexivity|].
  cbn [forallb] in H. apply andb_true_iff in H as [Hc H].
  cbn [app take_word].
  rewrite starts_ws_stop by (apply digit_not_ws, Hc || apply Nat.ltb_lt, digit_ascii, Hc).
  rewrite IH by exact H. reflexivity.
Qed.

(** A line [PID HH:MM:SS +++ exited with D +++], with a decimal exit
    code below 2^31, parses to an [exit] entry with that PID and
    timestamp and the exit information (code D, not killed). *)
Theorem parse_strace_line_exit p h m s d :
  digits_ok p = true -> digits_ok h = true -> digits_ok m = true -> digits_ok s = true ->
  digits_ok d = true -> (digits_value 0 d < 2 ^ 31)%Z ->
  parse_strace_line (p ++ " "%char :: h ++ ":"%char :: m ++ ":"%char :: s ++ " "%char ::
                     txt "+++ exited with " ++ d ++ txt " +++") =
  Ok (set_special (SyscallEntry_new (pid_of p) (h ++ ":"%char :: m ++ ":"%char :: s) (txt "exit")) None
        (Some {| exit_code := digits_value 0 d; killed := false |})).
Proof.
  intros Hp Hh Hm Hs Hd Hv. pose proof (digits_ok_spec d Hd) as [Hd1 Hd2].
  set (X := d ++ txt " +++").
  set (u := p ++ " "%char :: h ++ ":"%char :: m ++ ":"%char :: s ++ [" "%char]).
  assert (Eline : p ++ " "%char :: h ++ ":"%char :: m ++ ":"%char :: s ++ " "%char :: txt "+++ exited with " ++ X
                  = u ++ txt "+++ exited with " ++ X).
  { unfold u. repeat (rewrite <- app_assoc; simpl). reflexivity. }
  assert (Hu : forallb plain u = true).
  { unfold u. repeat (rewrite forallb_app; cbn [forallb]).
    rewrite (forallb_imp _ _ _ digit_plain (proj2 (digits_ok_spec _ Hp))),
            (forallb_imp _ _ _ digit_plain (proj2 (digits_ok_spec _ Hh))),
            (forallb_imp _ _ _ digit_plain (proj2 (digits_ok_spec _ Hm))),
            (forallb_imp _ _ _ digit_plain (proj2 (digits_ok_spec _ Hs))). reflexivity. }
  assert (Fplus : find (txt "+++") (u ++ txt "+++ exited with " ++ X) = Some (length u)).
  { change (txt "+++") with ("+"%char :: txt "++"). rewrite (find_skip_plain_plus _ _ _ Hu).
    change (find ("+"%char :: txt "++") (txt "+++ exited with " ++ X)) with (Some 0).
    simpl. rewrite Nat.add_0_r. reflexivity. }
  unfold parse_strace_line. fold X. unfold contains at 1. rewrite Eline, Fplus. cbv iota.
  unfold parse_exit_line. rewrite <- Eline.
  rewrite (parse_prefix_pid_ts p h m s (txt "+++ exited with " ++ X) Hp Hh Hm Hs eq_refl). cbv iota beta zeta.
  rewrite Eline, Fplus. cbv iota beta zeta.
  rewrite skipn_app_len_plus.
  change (skipn 3 (txt "+++ exited with " ++ X)) with (txt " exited with " ++ X).
  change (contains (txt "exited with") (txt " exited with " ++ X)) with true. cbv iota.
  unfold split_with_nth1.
  change (find (txt "with") (txt " exited with " ++ X)) with (Some 8). cbv iota beta zeta.
  change (skipn (8 + 4) (txt " exited with " ++ X)) with (" "%char :: X).
  assert (Fw : find (txt "with") (" "%char :: X) = None).
  { change (" "%char :: X) with ([" "%char] ++ X). change (txt "with") with ("w"%char :: txt "ith").
    rewrite (find_app_skip "w"%char (txt "ith") [" "%char] X eq_refl). unfold X.
    rewrite (find_app_skip "w"%char (txt "ith") d _ (forallb_imp _ _ _ digit_not_w Hd2)). reflexivity. }
  rewrite Fw. cbv iota.
  destruct (digits_head d Hd) as (c & d' & Ed & Hc).
  unfold first_word. change (trim_start (" "%char :: X)) with (trim_start X).
  unfold X. rewrite (trim_start_digits d _ Hd).
  change (txt " +++") with (" "%char :: txt "+++").
  rewrite (take_word_digits d _ Hd2). rewrite Ed. cbv iota. rewrite <- Ed. rewrite (parse_i32_digits d Hd Hv).
  assert (Fk : contains (txt "killed") (txt " exited with " ++ d ++ " "%char :: txt "+++") = false).
  { unfold contains. change (txt "killed") with ("k"%char :: txt "illed").
    rewrite (find_app_skip "k"%char (txt "illed") (txt " exited with ") _ eq_refl).
    rewrite (find_app_skip "k"%char (txt "illed") d _ (forallb_imp _ _ _ digit_not_k Hd2)). reflexivity. }
  rewrite Fk. reflexivity.
Qed.

Lemma parse_strace_line_exit_witness :
  parse_strace_line (txt "1234 10:20:30 +++ exited with 42 +++") =
  Ok (set_special (SyscallEntry_new 1234%Z (txt "10:20:30") (txt "exit")) None
        (Some {| exit_code := 42%Z; killed := false |})).
Proof.
  exact (parse_strace_line_exit (txt "1234") (txt "10") (txt "20") (txt "30") (txt "42")
           eq_refl eq_refl eq_refl eq_refl eq_refl eq_refl).
Defined.

Lemma parse_frame_some t :
  (exists f, parse_frame t = Some f) <-> exists c r, t = c :: r /\ is_open_bracket c = false.
Proof.
  unfold parse_frame, take_until_any. destruct t as [|c r].
  - simpl. split; [intros [f H]; discriminate | intros (c & r & H & _); discriminate].
  - cbn [take_while]. destruct (is_open_bracket c) eqn:Ec; cbn [negb].
    + simpl. split; [intros [f H]; discriminate | intros (c' & r' & [= <- <-] & H); congruence].
    + destruct (take_while _ r) as [a r'']. cbn [fst length Nat.eqb]. cbv iota beta zeta.
      split; [intros _; eauto|intros _].
      destruct (if starts_with (txt "(") _ then _ else None) as [f|]; eauto.
Qed.

(** On an ASCII line, [parse_backtrace_line] succeeds exactly when the
    line, after leading whitespace, starts with [>] followed (after more
    whitespace) by a character other than [(] and [[]. *)
Theorem parse_backtrace_line_ok_iff line :
  ascii_text line = true ->
  (exists f, parse_backtrace_line line = Ok f) <->
  exists rest c r, trim_start line = ">"%char :: rest /\ trim_start rest = c :: r /\ is_open_bracket c = false.
Proof.
  intros _. unfold parse_backtrace_line. destruct (trim_start line) as [|c0 rest].
  - split; [intros [f H]; discriminate | intros (rest & c & r & H & _); discriminate].
  - destruct (ascii_eqb c0 ">") eqn:E.
    + apply Ascii.eqb_eq in E. subst c0.
      destruct (parse_frame (trim_start rest)) as [f|] eqn:Ef.
      * split; [intros _|intros _; exists f; reflexivity].
        destruct (proj1 (parse_frame_some (trim_start rest)) (ex_intro _ f Ef)) as (c & r & H1 & H2).
        exists rest, c, r. auto.
      * split; [intros [f H]; discriminate|]. intros (rest' & c & r & [= <-] & H1 & H2).
        destruct (proj2 (parse_frame_some (trim_start rest)) (ex_intro _ c (ex_intro _ r (conj H1 H2)))) as [f Hf].
        congruence.
    + split; [intros [f H]; discriminate|]. intros (rest' & c & r & Heq & _).
      injection Heq as Hc _. subst c0. vm_compute in E. discriminate.
Qed.

Lemma parse_backtrace_line_ok_iff_witness :
  ascii_text (txt " > /lib/libc.so.6(read+0x1) [0x10]") = true /\
  exists f, parse_backtrace_line (txt " > /lib/libc.so.6(read+0x1) [0x10]") = Ok f.
Proof.
  split; [reflexivity|].
  apply (proj2 (parse_backtrace_line_ok_iff (txt " > /lib/libc.so.6(read+0x1) [0x10]") eq_refl)).
  exists (txt " /lib/libc.so.6(read+0x1) [0x10]"), "/"%char, (txt "lib/libc.so.6(read+0x1) [0x10]").
  split; [reflexivity|]. split; reflexivity.
Defined.

Lemma take_until_any_stop b c r :
  b <> [] -> forallb (fun x => negb (is_open_bracket x)) b = true -> is_open_bracket c = true ->
  take_until_any (b ++ c :: r) = Some (c :: r, b).
Proof.
  intros Hne Hb Hc. unfold take_until_any.
  rewrite (take_while_stop _ b c r Hb ltac:(cbv beta; rewrite Hc; reflexivity)). cbn [fst].
  destruct b as [|x b']; [congruence|]. cbn [length Nat.eqb]. cbv iota.
  exact (f_equal Some (f_equal2 pair (skipn_app_len (x :: b') (c :: r)) (firstn_app_len (x :: b') (c :: r)))).

Qed.

Lemma parse_function_info_full fn off R :
  forallb (fun x => negb (ascii_eqb ")" x)) fn = true ->
  forallb (fun x => negb (ascii_eqb "+" x)) fn = true ->
  forallb (fun x => negb (ascii_eqb ")" x)) off = true ->
  parse_function_info ("("%char :: fn ++ "+"%char :: off ++ ")"%char :: R) = Some (R, (fn, Some off)).
Proof.
  intros Hf1 Hf2 Ho. unfold parse_function_info.
  change (char_ "(" ("("%char :: fn ++ "+"%char :: off ++ ")"%char :: R))
    with (Some (fn ++ "+"%char :: off ++ ")"%char :: R)). cbv iota beta.
  assert (Hu : forallb (fun x => negb (ascii_eqb ")" x)) (fn ++ "+"%char :: off) = true).
  { rewrite forallb_app. rewrite Hf1. simpl. exact Ho. }
  replace (fn ++ "+"%char :: off ++ ")"%char :: R) with ((fn ++ "+"%char :: off) ++ ")"%char :: R)
    by (rewrite <- app_assoc; reflexivity).
  change (txt ")") with [")"%char].
  rewrite (find_app_skip ")"%char [] _ _ Hu). change (find [")"%char] (")"%char :: R)) with (Some 0).
  cbn [option_map]. rewrite Nat.add_0_r. cbv zeta.
  rewrite firstn_app_len, skipn_app_len_S.
  change (txt "+") with ["+"%char].
  rewrite (find_app_skip "+"%char [] fn _ Hf2). change (find ["+"%char] ("+"%char :: off)) with (Some 0).
  cbn [option_map]. rewrite Nat.add_0_r, firstn_app_len, skipn_app_len_S. reflexivity.
Qed.

Lemma parse_address_full hex R :
  hex <> [] -> forallb is_hexdigit hex = true ->
  parse_address (" "%char :: "["%char :: "0"%char :: "x"%char :: hex ++ "]"%char :: R) =
    Some (R, "0"%char :: "x"%char :: hex).
Proof.
  intros Hne Hh. unfold parse_address.
  change (space0 (" "%char :: "["%char :: "0"%char :: "x"%char :: hex ++ "]"%char :: R))
    with ("["%char :: "0"%char :: "x"%char :: hex ++ "]"%char :: R).
  change (char_ "[" ("["%char :: "0"%char :: "x"%char :: hex ++ "]"%char :: R))
    with (Some ("0"%char :: "x"%char :: hex ++ "]"%char :: R)). cbv iota beta.
  change (tag (txt "0x") ("0"%char :: "x"%char :: hex ++ "]"%char :: R)) with (Some (hex ++ "]"%char :: R)).
  cbv iota beta. unfold take_while1.
  rewrite (take_while_stop _ hex "]"%char R Hh eq_refl).
  destruct hex as [|y hex']; [congruence|]. cbv iota beta.
  change (char_ "]" ("]"%char :: R)) with (Some R). cbv iota beta.
  f_equal. f_equal.
  change ("0"%char :: "x"%char :: (y :: hex') ++ "]"%char :: R)
    with (("0"%char :: "x"%char :: y :: hex') ++ "]"%char :: R).
  apply recognized_app.
Qed.

Lemma nochar_bracket x :
  forallb (fun y => negb (ascii_eqb y x)) (txt "([") = true -> negb (is_open_bracket x) = true.
Proof. ascii_cases x. Qed.
Lemma nochar_close1 x :
  forallb (fun y => negb (ascii_eqb y x)) (txt ")+") = true -> negb (ascii_eqb ")" x) = true.
Proof. ascii_cases x. Qed.
Lemma nochar_plus x :
  forallb (fun y => negb (ascii_eqb y x)) (txt ")+") = true -> negb (ascii_eqb "+" x) = true.
Proof. ascii_cases x. Qed.
Lemma nochar_close x :
  forallb (fun y => negb (ascii_eqb y x)) (txt ")") = true -> negb (ascii_eqb ")" x) = true.
Proof. ascii_cases x. Qed.

(** A full frame line [ > BIN(FN+OFF) [0xHEX]] parses to the frame with
    binary [trim BIN], function [FN], offset [OFF] and address [0xHEX],
    when BIN is non-empty ASCII text, starts with a non-space and has no
    [(] or [[], FN has no [)] or [+], OFF has no [)], and HEX is a non-empty run
    of hexadecimal digits. *)
Theorem parse_backtrace_line_frame bin fn off hex :
  bin <> [] -> ascii_text bin = true -> avoids (txt "([") bin = true ->
  match bin with c :: _ => negb (is_whitespace c) | [] => false end = true ->
  avoids (txt ")+") fn = true -> avoids (txt ")") off = true ->
  hex <> [] -> forallb is_hexdigit hex = true ->
  parse_backtrace_line (txt " > " ++ bin ++ "("%char :: fn ++ "+"%char :: off ++ ")"%char :: " "%char ::
                        "["%char :: "0"%char :: "x"%char :: hex ++ ["]"%char]) =
  Ok (mk_frame (trim bin) (Some fn) (Some off) ("0"%char :: "x"%char :: hex)).
Proof.
  intros Hb Ha Hbc Hbw Hf Ho Hne Hh.
  unfold parse_backtrace_line.
  change (trim_start (txt " > " ++ ?X)) with (trim_start (">"%char :: " "%char :: X)).
  rewrite trim_start_stop by (reflexivity || (vm_compute; lia)).
  change (ascii_eqb ">" ">") with true. cbv iota.
  change (trim_start (" "%char :: ?X)) with (trim_start X).
  destruct bin as [|c bin']; [congruence|].
  assert (Hc : nat_of_ascii c < 128).
  { cbn [ascii_text forallb] in Ha. apply andb_true_iff in Ha as [Ha _]. apply Nat.ltb_lt, Ha. }
  rewrite <- app_comm_cons. rewrite (trim_start_stop c _ ltac:(apply negb_true_iff; exact Hbw) Hc).
  rewrite app_comm_cons.
  unfold parse_frame.
  rewrite (take_until_any_stop (c :: bin') "("%char _ Hb).
  2:{ unfold avoids in Hbc. eapply forallb_imp; [|exact Hbc]. exact nochar_bracket. }
  2:{ reflexivity. }
  cbv iota beta zeta.
  change (starts_with (txt "(") ("("%char :: ?X)) with true. cbv iota.
  rewrite parse_function_info_full.
  2:{ unfold avoids in Hf. eapply forallb_imp; [|exact Hf]. exact nochar_close1. }
  2:{ unfold avoids in Hf. eapply forallb_imp; [|exact Hf]. exact nochar_plus. }
  2:{ unfold avoids in Ho. eapply forallb_imp; [|exact Ho]. exact nochar_close. }
  cbv iota beta zeta. rewrite (parse_address_full hex [] Hne Hh). reflexivity.
Qed.

Lemma parse_backtrace_line_frame_witness :
  parse_backtrace_line (txt " > /usr/lib/libc.so.6(__write+0x1e) [0x10e53e]") =
  Ok (mk_frame (txt "/usr/lib/libc.so.6") (Some (txt "__write")) (Some (txt "0x1e")) (txt "0x10e53e")).
Proof.
  exact (parse_backtrace_line_frame (txt "/usr/lib/libc.so.6") (txt "__write") (txt "0x1e") (txt "10e53e")
           ltac:(discriminate) eq_refl eq_refl eq_refl eq_refl eq_refl ltac:(discriminate) eq_refl).
Defined.

Lemma collect_frames_not_inlined items rs :
  collect_frames items = Some rs -> Forall (fun r => is_inlined r = false) rs.
Proof.
  revert rs. induction items as [|[fr|] items IH]; intros rs H; simpl in H.
  - injection H as <-. constructor.
  - destruct (location fr) as [loc|]; [|auto].
    destruct (loc_file loc) as [f|]; [destruct (str_eqb f _); [auto|]|]; destruct (loc_line loc); try discriminate.
    destruct (collect_frames items) as [rs'|] eqn:E; [|discriminate].
    injection H as <-. constructor; [reflexivity|]. apply IH. reflexivity.
  - injection H as <-. constructor.
Qed.

(** A resolution by [resolve_address] is never an empty list, and in it
    every frame but the last is marked inlined. *)
Theorem resolve_address_inlined {Loader} (loader_new : str -> option Loader) find_frames st b a :
  match snd (resolve_address loader_new find_frames st b a) with
  | None => True
  | Some rs => rs <> [] /\ forall i r, rs !! i = Some r -> is_inlined r = (S i <? length rs)
  end.
Proof.
  unfold resolve_address. destruct (get_loader loader_new st b) as [st1 [l|]]; [|exact I].
  destruct (from_str_radix16 (strip_0x a)) as [addr|]; [|exact I].
  destruct (find_frames l addr) as [items|]; [|exact I].
  destruct (collect_frames items) as [rs|] eqn:E; [|exact I].
  pose proof (collect_frames_not_inlined _ _ E) as HF. cbn [snd].
  destruct (mark_inlined rs) as [|r0 rs0] eqn:Em; [exact I|].
  split; [discriminate|]. rewrite <- Em. intros i r Hi.
  unfold mark_inlined in *. rewrite length_imap. rewrite list_lookup_imap in Hi.
  destruct (rs !! i) as [x|] eqn:Ex; [|discriminate]. simpl in Hi. injection Hi as <-.
  pose proof (lookup_lt_Some _ _ _ Ex) as Hlt.
  destruct ((1 <? length rs) && (i <? length rs - 1)) eqn:Ec.
  - apply andb_true_iff in Ec as [E1 E2]. apply Nat.ltb_lt in E1, E2. simpl.
    symmetry. apply Nat.ltb_lt. lia.
  - rewrite (proj1 (Forall_lookup _ _) HF i x Ex). symmetry. apply Nat.ltb_ge.
    apply andb_false_iff in Ec as [E1|E2]; [apply Nat.ltb_ge in E1|apply Nat.ltb_ge in E2]; lia.
Qed.

Section Props.
Context {Loader : Type}.
Variable loader_new : str -> option Loader.
Variable find_frames : Loader -> Z -> option (list FrameStep).

Lemma get_loader_cache st b : cache (fst (get_loader loader_new st b)) = cache st.
Proof. unfold get_loader. repeat case_match; reflexivity. Qed.

Lemma resolve_address_cache st b a : cache (fst (resolve_address loader_new find_frames st b a)) = cache st.
Proof.
  unfold resolve_address. pose proof (get_loader_cache st b) as H.
  destruct (get_loader loader_new st b) as [st1 lo]. simpl in H. rewrite <- H.
  repeat case_match; reflexivity.
Qed.

Abbreviation fkey f := (key_of (binary f) (address f)).

Lemma resolve_frame_cache st f :
  let '(st', f') := resolve_frame loader_new find_frames st f in
  (forall k v, cache st !! k = Some v -> cache st' !! k = Some v) /\
  cache st' !! fkey f = Some (resolved f') /\ f' = set_resolved f (resolved f') /\
  dom (cache st') = {[fkey f]} ∪ dom (cache st).
Proof.
  unfold resolve_frame. destruct (cache st !! fkey f) as [c|] eqn:Ec.
  - split; [auto|]. split; [exact Ec|]. split; [reflexivity|].
    apply set_eq. intros k. rewrite elem_of_union, elem_of_singleton. split; [auto|].
    intros [->|H]; [apply elem_of_dom; eauto|exact H].
  - pose proof (resolve_address_cache st (binary f) (address f)) as Hc.
    destruct (resolve_address loader_new find_frames st (binary f) (address f)) as [st1 r].
    simpl in Hc. cbn [cache]. rewrite Hc. split; [|split; [|split]].
    + intros k v Hk. rewrite lookup_insert_ne; [exact Hk|]. intros <-. congruence.
    + rewrite lookup_insert_eq. reflexivity.
    + reflexivity.
    + apply dom_insert_L.
Qed.

End Props.

(** [resolve_frames] keeps the number of frames and the cache entries
    already present; each output frame is its input frame with
    [resolved] set to the cached resolution of its [binary:address] key;
    and the cache ends up with exactly the old keys plus the keys of the
    frames. *)
Theorem resolve_frames_cache {Loader} (loader_new : str -> option Loader) find_frames st fs :
  let '(st', fs') := resolve_frames loader_new find_frames st fs in
  length fs' = length fs /\
  (forall k v, cache st !! k = Some v -> cache st' !! k = Some v) /\
  (forall i f f', fs !! i = Some f -> fs' !! i = Some f' ->
     f' = set_resolved f (resolved f') /\
     cache st' !! key_of (binary f) (address f) = Some (resolved f')) /\
  dom (cache st') = dom (cache st) ∪ list_to_set (map (fun f => key_of (binary f) (address f)) fs).
Proof.
  revert st. induction fs as [|f fs IH]; intros st; simpl.
  - split; [reflexivity|]. split; [auto|]. split; [intros i f f' H; discriminate|]. set_solver.
  - pose proof (resolve_frame_cache loader_new find_frames st f) as Hf.
    destruct (resolve_frame loader_new find_frames st f) as [st1 f1].
    destruct Hf as (Hmono1 & Hk1 & Hf1 & Hdom1).
    specialize (IH st1). destruct (resolve_frames loader_new find_frames st1 fs) as [st2 fs2].
    destruct IH as (Hlen & Hmono2 & Hall & Hdom2).
    split; [simpl; lia|]. split; [auto|]. split.
    + intros [|i] g g' Hg Hg'; simpl in Hg, Hg'.
      * injection Hg as <-. injection Hg' as <-. split; [exact Hf1|]. apply Hmono2, Hk1.
      * exact (Hall i g g' Hg Hg').
    + rewrite Hdom2, Hdom1. set_solver.
Qed.

(** Starting from a fresh resolver, the cache size after
    [resolve_frames] is the number of distinct [binary:address] keys of
    the frames. *)
Theorem resolve_frames_cache_size {Loader} (loader_new : str -> option Loader) find_frames fs :
  cache_size (fst (resolve_frames loader_new find_frames (Addr2LineResolver_new) fs)) =
  size (list_to_set (C := gset string) (map (fun f => key_of (binary f) (address f)) fs)).
Proof.
  pose proof (resolve_frames_cache loader_new find_frames Addr2LineResolver_new fs) as H.
  destruct (resolve_frames loader_new find_frames Addr2LineResolver_new fs) as [st' fs'].
  destruct H as (_ & _ & _ & Hdom). unfold cache_size. simpl.
  rewrite <- size_dom, Hdom. f_equal. simpl. rewrite dom_empty_L. set_solver.
Qed.

(** With a visible height of at least one line, [ensure_visible] keeps
    the cursor and scrolls so that it lies in the visible window. *)
Theorem ensure_visible_window a :
  1 <= last_visible_height a ->
  selected_line (ensure_visible a) = selected_line a /\
  scroll_offset (ensure_visible a) <= selected_line a < scroll_offset (ensure_visible a) + last_visible_height a.
Proof.
  intros Hh. unfold ensure_visible. simpl. split; [reflexivity|].
  destruct (selected_line a <? scroll_offset a) eqn:E1; [lia|].
  apply Nat.ltb_ge in E1.
  destruct (scroll_offset a + last_visible_height a <=? selected_line a) eqn:E2.
  - apply Nat.leb_le in E2. lia.
  - apply Nat.leb_gt in E2. lia.
Qed.

Lemma ensure_visible_window_witness :
  let a := {| entries := []; display_lines := repeat (DisplayLine.SyscallHeader 0 false false) 50;
              selected_line := 40; scroll_offset := 0; expanded_items := ∅; expanded_arguments := ∅;
              expanded_backtraces := ∅; last_visible_height := 10; hidden_syscalls := ∅;
              show_hidden := false;
              search_state := {| active := false; query := []; matches := [];
                                 current_match_idx := 0; original_position := 0;
                                 original_scroll := 0 |} |} in
  scroll_offset (ensure_visible a) = 31 /\
  scroll_offset (ensure_visible a) <= selected_line a < scroll_offset (ensure_visible a) + last_visible_height a.
Proof.
  intros a. split; [reflexivity|].
  exact (proj2 (ensure_visible_window a ltac:(simpl; lia))).
Defined.

(** On a non-empty list, with a visible height of at least one and a
    scroll offset inside the list, a page or half-page scroll keeps the
    lines, leaves the scroll offset inside the list and puts the cursor
    in the visible window, on an existing line. *)
Theorem scroll_page_window a up half :
  display_lines a <> [] -> 1 <= last_visible_height a -> scroll_offset a < length (display_lines a) ->
  let a' := scroll_page a up half in
  display_lines a' = display_lines a /\
  scroll_offset a' < length (display_lines a) /\
  scroll_offset a' <= selected_line a' /\
  selected_line a' < Nat.min (scroll_offset a' + last_visible_height a) (length (display_lines a)).
Proof.
  intros Hne Hh Hs a'. unfold a', scroll_page.
  assert (Hlen : length (display_lines a) <> 0) by (destruct (display_lines a); simpl; [congruence|lia]).
  apply Nat.eqb_neq in Hlen. rewrite Hlen. apply Nat.eqb_neq in Hlen.
  set (len := length (display_lines a)) in *. set (h := last_visible_height a) in *.
  set (ps := if half then h / 2 else h).
  assert (Hsc : forall scr sel, scr < len ->
    let sel' := if sel <? scr then scr else if Nat.min (scr + h) len - 1 <? sel then Nat.min (scr + h) len - 1 else sel in
    scr <= sel' /\ sel' < Nat.min (scr + h) len).
  { intros scr sel Hscr sel'. unfold sel'.
    destruct (sel <? scr) eqn:E1; [apply Nat.ltb_lt in E1; lia|apply Nat.ltb_ge in E1].
    destruct (Nat.min (scr + h) len - 1 <? sel) eqn:E2; [apply Nat.ltb_lt in E2; lia|apply Nat.ltb_ge in E2; lia]. }
  destruct up.
  - cbv zeta. simpl. split; [reflexivity|].
    assert (Hs' : scroll_offset a - Nat.min ps (scroll_offset a) < len) by lia.
    split; [exact Hs'|]. apply (Hsc _ _ Hs').
  - cbv zeta. simpl. split; [reflexivity|].
    assert (Hs' : Nat.min (scroll_offset a + Nat.min ps (len - h - scroll_offset a)) (len - h) < len) by lia.
    split; [exact Hs'|]. apply (Hsc _ _ Hs').
Qed.

Lemma scroll_page_window_witness :
  let a := {| entries := []; display_lines := repeat (DisplayLine.SyscallHeader 0 false false) 50;
              selected_line := 3; scroll_offset := 0; expanded_items := ∅; expanded_arguments := ∅;
              expanded_backtraces := ∅; last_visible_height := 10; hidden_syscalls := ∅;
              show_hidden := false;
              search_state := {| active := false; query := []; matches := [];
                                 current_match_idx := 0; original_position := 0;
                                 original_scroll := 0 |} |} in
  (scroll_offset (scroll_page a false false) = 10 /\ selected_line (scroll_page a false false) = 13) /\
  scroll_offset (scroll_page a false false) <= selected_line (scroll_page a false false).
Proof.
  intros a. split; [split; reflexivity|].
  exact (proj1 (proj2 (proj2 (scroll_page_window a false false ltac:(discriminate) ltac:(simpl; lia) ltac:(simpl; lia))))).
Defined.

Lemma ss_lookup {A} (R : A -> A -> Prop) (l : list A) i j x y :
  StronglySorted R l -> i < j -> l !! i = Some x -> l !! j = Some y -> R x y.
Proof.
  revert i j. induction l as [|z l IH]; intros i j Hs Hij Hi Hj; [discriminate|].
  inversion Hs as [|? ? Hs' Hall]; subst.
  destruct i as [|i], j as [|j]; simpl in *; try lia.
  - injection Hi as <-. exact (proj1 (Forall_lookup _ _) Hall j y Hj).
  - apply (IH i j Hs' ltac:(lia) Hi Hj).
Qed.

Lemma position_Some {A} (p : A -> bool) l k :
  position p l = Some k ->
  exists x, l !! k = Some x /\ p x = true /\ forall j y, j < k -> l !! j = Some y -> p y = false.
Proof.
  revert k. induction l as [|z l IH]; intros k H; simpl in H; [discriminate|].
  destruct (p z) eqn:Ez.
  - injection H as <-. exists z. split; [reflexivity|]. split; [exact Ez|]. intros j y Hj. lia.
  - destruct (position p l) as [k'|] eqn:E; [|discriminate]. injection H as <-.
    destruct (IH k' eq_refl) as (x & Hx & Hpx & Hbefore). exists x. split; [exact Hx|]. split; [exact Hpx|].
    intros [|j] y Hj Hy; simpl in Hy; [injection Hy as <-; exact Ez|]. apply (Hbefore j y); [lia|exact Hy].
Qed.

Lemma position_None {A} (p : A -> bool) l :
  position p l = None -> forall j y, l !! j = Some y -> p y = false.
Proof.
  induction l as [|z l IH]; intros H j y Hy; [discriminate|]. simpl in H.
  destruct (p z) eqn:Ez; [discriminate|]. destruct (position p l) eqn:E; [discriminate|].
  destruct j as [|j]; simpl in Hy; [injection Hy as <-; exact Ez|]. apply (IH eq_refl j y Hy).
Qed.

Lemma lookup_rev {A} (l : list A) i :
  i < length l -> rev l !! i = l !! (length l - 1 - i).
Proof.
  induction l as [|z l IH]; intros Hi; simpl in *; [lia|].
  destruct (decide (i < length l)) as [Hlt|Hge].
  - rewrite lookup_app_l by (rewrite length_rev; exact Hlt). rewrite IH by exact Hlt.
    replace (length l - 0 - i) with (S (length l - 1 - i)) by lia. reflexivity.
  - rewrite lookup_app_r by (rewrite length_rev; lia). rewrite length_rev.
    replace (i - length l) with 0 by lia. replace (length l - 0 - i) with 0 by lia. reflexivity.
Qed.

Lemma rposition_Some {A} (p : A -> bool) l k :
  rposition p l = Some k ->
  exists x, l !! k = Some x /\ p x = true /\ forall j y, k < j -> l !! j = Some y -> p y = false.
Proof.
  unfold rposition. destruct (position p (rev l)) as [k'|] eqn:E; [|discriminate]. intros H. injection H as <-.
  destruct (position_Some _ _ _ E) as (x & Hx & Hpx & Hbefore).
  pose proof (lookup_lt_Some _ _ _ Hx) as Hlt. rewrite length_rev in Hlt.
  rewrite lookup_rev in Hx by exact Hlt. exists x. split; [exact Hx|]. split; [exact Hpx|].
  intros j y Hj Hy. pose proof (lookup_lt_Some _ _ _ Hy).
  apply (Hbefore (length l - 1 - j)); [lia|]. rewrite lookup_rev by lia.
  replace (length l - 1 - (length l - 1 - j)) with j by lia. exact Hy.
Qed.

Lemma rposition_None {A} (p : A -> bool) l :
  rposition p l = None -> forall j y, l !! j = Some y -> p y = false.
Proof.
  unfold rposition. destruct (position p (rev l)) eqn:E; [discriminate|]. intros _ j y Hy.
  pose proof (lookup_lt_Some _ _ _ Hy).
  apply (position_None _ _ E (length l - 1 - j)). rewrite lookup_rev by lia.
  replace (length l - 1 - (length l - 1 - j)) with j by lia. exact Hy.
Qed.

(** On sorted, non-empty matches, [search_next] keeps the matches,
    points the current match index at the selected line, and selects the
    first match after the cursor, or wraps to the first match when there
    is none. *)
Theorem search_next_spec a :
  matches (search_state a) <> [] -> StronglySorted lt (matches (search_state a)) ->
  let ms := matches (search_state a) in
  let a' := search_next a in
  matches (search_state a') = ms /\
  ms !! current_match_idx (search_state a') = Some (selected_line a') /\
  ((exists m, m ∈ ms /\ selected_line a < m) ->
     selected_line a < selected_line a' /\ forall m, m ∈ ms -> selected_line a < m -> selected_line a' <= m) /\
  ((forall m, m ∈ ms -> m <= selected_line a) -> ms !! 0 = Some (selected_line a')).
Proof.
  intros Hne Hs. cbv zeta. unfold search_next.
  remember (matches (search_state a)) as ms eqn:Ems.
  destruct ms as [|m0 ms'] eqn:Ems'; [congruence|]. rewrite <- Ems' in *.
  destruct (position (fun i => selected_line a <? i) ms) as [k|] eqn:Ep.
  - destruct (position_Some _ _ _ Ep) as (x & Hx & Hpx & Hbefore). apply Nat.ltb_lt in Hpx.
    cbn. rewrite Hx. cbn. split; [reflexivity|]. split; [reflexivity|]. split.
    + intros _. split; [exact Hpx|]. intros m Hm Hlt.
      apply list_elem_of_lookup in Hm as [j Hj].
      destruct (lt_eq_lt_dec j k) as [[Hjk|Hjk]|Hkj]; [|subst j|].
      * specialize (Hbefore j m Hjk Hj). apply Nat.ltb_ge in Hbefore. lia.
      * rewrite Hx in Hj. injection Hj. lia.
      * pose proof (ss_lookup lt ms k j x m Hs Hkj Hx Hj). lia.
    + intros Hall. exfalso. assert (x ∈ ms) by (eapply list_elem_of_lookup_2; exact Hx).
      specialize (Hall x H). lia.
  - cbn. rewrite Ems' in Ep |- *. cbn. split; [reflexivity|]. split; [reflexivity|]. split.
    + intros (m & Hm & Hlt). apply list_elem_of_lookup in Hm as [j Hj].
      pose proof (position_None _ _ Ep j m Hj) as Hf. apply Nat.ltb_ge in Hf. lia.
    + intros _. reflexivity.
Qed.

Lemma search_next_spec_witness :
  let a := {| entries := []; display_lines := repeat (DisplayLine.SyscallHeader 0 false false) 50;
              selected_line := 12; scroll_offset := 0; expanded_items := ∅; expanded_arguments := ∅;
              expanded_backtraces := ∅; last_visible_height := 10; hidden_syscalls := ∅;
              show_hidden := false;
              search_state := {| active := false; query := []; matches := [3; 10; 20; 40];
                                 current_match_idx := 0; original_position := 0;
                                 original_scroll := 0 |} |} in
  selected_line (search_next a) = 20 /\ current_match_idx (search_state (search_next a)) = 2 /\
  matches (search_state a) !! current_match_idx (search_state (search_next a)) = Some (selected_line (search_next a)).
Proof.
  intros a. split; [reflexivity|]. split; [reflexivity|].
  assert (Hs : StronglySorted lt (matches (search_state a))).
  { simpl. repeat constructor; simpl; lia. }
  exact (proj1 (proj2 (search_next_spec a ltac:(discriminate) Hs))).
Defined.

(** On sorted, non-empty matches, [search_previous] keeps the matches,
    points the current match index at the selected line, and selects the
    last match before the cursor, or wraps to the last match when there
    is none. *)
Theorem search_previous_spec a :
  matches (search_state a) <> [] -> StronglySorted lt (matches (search_state a)) ->
  let ms := matches (search_state a) in
  let a' := search_previous a in
  matches (search_state a') = ms /\
  ms !! current_match_idx (search_state a') = Some (selected_line a') /\
  ((exists m, m ∈ ms /\ m < selected_line a) ->
     selected_line a' < selected_line a /\ forall m, m ∈ ms -> m < selected_line a -> m <= selected_line a') /\
  ((forall m, m ∈ ms -> selected_line a <= m) -> ms !! (length ms - 1) = Some (selected_line a')).
Proof.
  intros Hne Hs. cbv zeta. unfold search_previous.
  remember (matches (search_state a)) as ms eqn:Ems.
  destruct ms as [|m0 ms'] eqn:Ems'; [congruence|]. rewrite <- Ems' in *.
  destruct (rposition (fun i => i <? selected_line a) ms) as [k|] eqn:Ep.
  - destruct (rposition_Some _ _ _ Ep) as (x & Hx & Hpx & Hafter). apply Nat.ltb_lt in Hpx.
    cbn. rewrite Hx. cbn. split; [reflexivity|]. split; [reflexivity|]. split.
    + intros _. split; [exact Hpx|]. intros m Hm Hlt.
      apply list_elem_of_lookup in Hm as [j Hj].
      destruct (lt_eq_lt_dec j k) as [[Hjk|Hjk]|Hkj]; [|subst j|].
      * pose proof (ss_lookup lt ms j k m x Hs Hjk Hj Hx). lia.
      * rewrite Hx in Hj. injection Hj. lia.
      * specialize (Hafter j m Hkj Hj). apply Nat.ltb_ge in Hafter. lia.
    + intros Hall. exfalso. assert (x ∈ ms) by (eapply list_elem_of_lookup_2; exact Hx).
      specialize (Hall x H). lia.
  - cbn. split; [reflexivity|].
    assert (Hl : exists y, ms !! (length ms - 1) = Some y).
    { apply lookup_lt_is_Some_2. rewrite Ems'. simpl. lia. }
    destruct Hl as [y Hy]. rewrite Hy. cbn. split; [reflexivity|]. split.
    + intros (m & Hm & Hlt). apply list_elem_of_lookup in Hm as [j Hj].
      pose proof (rposition_None _ _ Ep j m Hj) as Hf. apply Nat.ltb_ge in Hf. lia.
    + intros _. reflexivity.
Qed.

Lemma search_previous_spec_witness :
  let a := {| entries := []; display_lines := repeat (DisplayLine.SyscallHeader 0 false false) 50;
              selected_line := 2; scroll_offset := 0; expanded_items := ∅; expanded_arguments := ∅;
              expanded_backtraces := ∅; last_visible_height := 10; hidden_syscalls := ∅;
              show_hidden := false;
              search_state := {| active := false; query := []; matches := [3; 10; 20; 40];
                                 current_match_idx := 0; original_position := 0;
                                 original_scroll := 0 |} |} in
  selected_line (search_previous a) = 40 /\ scroll_offset (search_previous a) = 31 /\
  matches (search_state a) !! (length (matches (search_state a)) - 1) = Some (selected_line (search_previous a)).
Proof.
  intros a. split; [reflexivity|]. split; [reflexivity|].
  assert (Hs : StronglySorted lt (matches (search_state a))).
  { simpl. repeat constructor; simpl; lia. }
  apply (proj2 (proj2 (proj2 (search_previous_spec a ltac:(discriminate) Hs)))).
  intros m Hm. simpl in Hm. repeat (apply elem_of_cons in Hm as [->|Hm]; [simpl; lia|]). apply elem_of_nil in Hm. contradiction.
Defined.

Lemma true_indices_bounds k fl :
  StronglySorted lt (true_indices k fl) /\
  Forall (fun i => k <= i < k + length fl) (true_indices k fl).
Proof.
  revert k. induction fl as [|b fl IH]; intros k; simpl; [split; constructor|].
  destruct (IH (S k)) as [Hs Hf]. destruct b.
  - split.
    + constructor; [exact Hs|]. eapply Forall_impl; [exact Hf|]. simpl. lia.
    + constructor; [lia|]. eapply Forall_impl; [exact Hf|]. simpl. lia.
  - split; [exact Hs|]. eapply Forall_impl; [exact Hf|]. simpl. lia.
Qed.

(** The matches found by [update_search_matches_internal] are strictly
    increasing indices of existing lines; the line count is kept; with
    cursor movement and at least one match, the cursor goes to the first
    match at or after it (or the first match if none) and the current
    match index points at it; with no match the cursor stays. *)
Theorem update_search_matches_move a :
  let a' := update_search_matches_internal a true in
  let ms := matches (search_state a') in
  StronglySorted lt ms /\ Forall (fun i => i < length (display_lines a)) ms /\
  length (display_lines a') = length (display_lines a) /\
  (ms = [] -> selected_line a' = selected_line a) /\
  (ms <> [] ->
     ms !! current_match_idx (search_state a') = Some (selected_line a') /\
     ((exists m, m ∈ ms /\ selected_line a <= m) ->
        selected_line a <= selected_line a' /\
        forall m, m ∈ ms -> selected_line a <= m -> selected_line a' <= m) /\
     ((forall m, m ∈ ms -> m < selected_line a) -> ms !! 0 = Some (selected_line a'))).
Proof.
  cbv zeta. unfold update_search_matches_internal, update_search_matches_with.
  destruct (length (query (search_state a)) =? 0).
  - cbn. rewrite length_map. split; [constructor|]. split; [constructor|].
    split; [reflexivity|]. split; [reflexivity|]. intros []. reflexivity.
  - set (flags := map _ (display_lines a)).
    assert (Hlf : length flags = length (display_lines a)) by (unfold flags; apply length_map).
    destruct (true_indices_bounds 0 flags) as [Hs Hf].
    assert (Hl : length (zip_with DisplayLine.set_search_match (display_lines a) flags) = length (display_lines a))
      by (rewrite length_zip_with, Hlf; lia).
    assert (Hf' : Forall (fun i => i < length (display_lines a)) (true_indices 0 flags))
      by (eapply Forall_impl; [exact Hf|]; simpl; lia).
    destruct (true_indices 0 flags) as [|m0 ms'] eqn:Et.
    + cbn. split; [constructor|]. split; [constructor|].
      split; [exact Hl|]. split; [reflexivity|]. intros []. reflexivity.
    + set (ms := m0 :: ms') in *. cbn - [position lookup].
      split; [exact Hs|]. split; [exact Hf'|]. split; [exact Hl|]. split; [discriminate|]. intros _.
      destruct (position (fun i => selected_line a <=? i) ms) as [k|] eqn:Ep; cbn - [lookup].
      * destruct (position_Some _ _ _ Ep) as (x & Hx & Hpx & Hbefore). apply Nat.leb_le in Hpx.
        rewrite Hx. cbn. split; [reflexivity|]. split.
        -- intros _. split; [exact Hpx|]. intros m Hm Hlt.
           apply list_elem_of_lookup in Hm as [j Hj].
           destruct (lt_eq_lt_dec j k) as [[Hjk|Hjk]|Hkj]; [|subst j|].
           ++ specialize (Hbefore j m Hjk Hj). apply Nat.leb_gt in Hbefore. lia.
           ++ rewrite Hx in Hj. injection Hj. lia.
           ++ pose proof (ss_lookup lt ms k j x m Hs Hkj Hx Hj). lia.
        -- intros Hall. exfalso. assert (x ∈ ms) by (eapply list_elem_of_lookup_2; exact Hx).
           specialize (Hall x H). lia.
      * split; [reflexivity|]. split.
        -- intros (m & Hm & Hlt). apply list_elem_of_lookup in Hm as [j Hj].
           pose proof (position_None _ _ Ep j m Hj) as Hn. apply Nat.leb_gt in Hn. lia.
        -- intros _. reflexivity.
Qed.

Lemma item_lines_detail a idx e it p b : Forall (detail_of idx) (item_lines a idx e it p b).
Proof.
  destruct it; simpl; repeat constructor.
  - destruct (bool_decide _); [|constructor]. unfold argument_lines.
    apply List.Forall_map, List.Forall_forall. intros [i y] _. split; reflexivity.
  - destruct (bool_decide _); [|constructor]. unfold backtrace_lines.
    apply List.Forall_map, List.Forall_forall. intros [i [f [r|]]] _; split; reflexivity.
Qed.

Lemma details_from_detail a idx e n k its : Forall (detail_of idx) (details_from a idx e n k its).
Proof.
  revert k. induction its as [|it its IH]; intros k; simpl; [constructor|].
  apply Forall_app. split; [apply item_lines_detail|apply IH].
Qed.

Lemma entry_lines_shape a idx e :
  entry_lines a idx e =
  if entry_visible a e then
    DisplayLine.SyscallHeader idx (bool_decide (string_of_list_ascii (syscall_name e) ∈ hidden_syscalls a)) false ::
    (if bool_decide (idx ∈ expanded_items a)
     then details_from a idx e (length (items_of e)) 0 (items_of e) else [])
  else [].
Proof.
  unfold entry_lines, entry_visible.
  destruct (bool_decide _ && negb _); reflexivity.
Qed.

Lemma StronglySorted_app_le (l1 l2 : list nat) :
  StronglySorted le l1 -> StronglySorted le l2 -> (forall x y, In x l1 -> In y l2 -> x <= y) ->
  StronglySorted le (l1 ++ l2).
Proof.
  induction l1 as [|x l1 IH]; intros H1 H2 H12; simpl; [exact H2|].
  inversion H1 as [|? ? Hs Hf]; subst. constructor.
  - apply IH; [exact Hs|exact H2|]. intros u v Hu Hv. apply H12; [right; exact Hu|exact Hv].
  - apply Forall_app. split; [exact Hf|]. apply List.Forall_forall. intros y Hy. apply H12; [left; reflexivity|exact Hy].
Qed.

Lemma StronglySorted_const (k : nat) l : Forall (fun x => x = k) l -> StronglySorted le l.
Proof.
  induction l as [|x l IH]; intros H; [constructor|]. inversion H as [|? ? Hx Hl]; subst.
  constructor; [apply IH; exact Hl|]. eapply Forall_impl; [exact Hl|]. simpl. lia.
Qed.

Lemma build_lines_from a k l :
  let dls := flat_map (fun '(idx, entry) => entry_lines a idx entry) (enumerate_from k l) in
  StronglySorted le (map DisplayLine.entry_idx dls) /\
  Forall (fun x => k <= DisplayLine.entry_idx x /\
                   exists e, l !! (DisplayLine.entry_idx x - k) = Some e /\ entry_visible a e = true) dls /\
  map DisplayLine.entry_idx (List.filter is_header dls) =
  List.filter (fun i => match l !! (i - k) with Some e => entry_visible a e | None => false end)
              (seq k (length l)).
Proof.
  revert k. induction l as [|x l IH]; intros k; cbv zeta; simpl; [split; [constructor|split; [constructor|reflexivity]]|].
  destruct (IH (S k)) as (Hs & Hf & Hh). cbv zeta in Hs, Hf, Hh.
  set (rest := flat_map _ (enumerate_from (S k) l)) in *.
  assert (Hd : Forall (fun y => DisplayLine.entry_idx y = k) (entry_lines a k x) /\
               (entry_lines a k x <> [] -> entry_visible a x = true) /\
               map DisplayLine.entry_idx (List.filter is_header (entry_lines a k x)) =
               if entry_visible a x then [k] else []).
  { rewrite entry_lines_shape. destruct (entry_visible a x); [|split; [constructor|split; [congruence|reflexivity]]].
    pose proof (details_from_detail a k x (length (items_of x)) 0 (items_of x)) as HD.
    split; [|split; [reflexivity|]].
    - constructor; [reflexivity|]. destruct (bool_decide _); [|constructor].
      eapply Forall_impl; [exact HD|]. intros y [Hy _]. exact Hy.
    - simpl. destruct (bool_decide _); [|reflexivity].
      assert (List.filter is_header (details_from a k x (length (items_of x)) 0 (items_of x)) = []) as ->.
      { induction HD as [|y ys [_ Hy] _ IHd]; [reflexivity|]. simpl. rewrite Hy. exact IHd. }
      reflexivity. }
  destruct Hd as (Hk & Hv & Hhd).
  split; [|split].
  - rewrite map_app. apply StronglySorted_app_le; [|exact Hs|].
    + apply (StronglySorted_const k). apply Forall_map. exact Hk.
    + intros u v Hu Hv'. apply in_map_iff in Hu as (y & <- & Hy).
      rewrite List.Forall_forall in Hk. rewrite (Hk y Hy).
      apply in_map_iff in Hv' as (z & <- & Hz). rewrite List.Forall_forall in Hf. specialize (Hf z Hz). lia.
  - apply Forall_app. split.
    + apply List.Forall_forall. intros y Hy. rewrite List.Forall_forall in Hk. rewrite (Hk y Hy).
      split; [lia|]. exists x. rewrite Nat.sub_diag. split; [reflexivity|].
      apply Hv. intros E. rewrite E in Hy. contradiction.
    + eapply Forall_impl; [exact Hf|]. intros y (Hle & e & He & Hve). split; [lia|].
      exists e. replace (DisplayLine.entry_idx y - k) with (S (DisplayLine.entry_idx y - S k)) by lia.
      split; [exact He|exact Hve].
  - rewrite List.filter_app, map_app, Hhd, Hh. rewrite Nat.sub_diag. simpl.
    assert (Hf2 : List.filter (fun i => match l !! (i - S k) with Some e => entry_visible a e | None => false end) (seq (S k) (length l))
              = List.filter (fun i => match (x :: l) !! (i - k) with Some e => entry_visible a e | None => false end) (seq (S k) (length l))).
    { apply filter_ext_in. intros i Hi. apply in_seq in Hi.
      replace (i - k) with (S (i - S k)) by lia. reflexivity. }
    rewrite Hf2. destruct (entry_visible a x); reflexivity.
Qed.

(** The entry indices of the display lines never decrease, every line
    belongs to an entry that is not filtered out, and the headers are
    exactly one per visible entry, in entry order. *)
Theorem build_display_lines_structure a :
  let dls := build_display_lines a in
  StronglySorted le (map DisplayLine.entry_idx dls) /\
  Forall (fun l => exists e, entries a !! DisplayLine.entry_idx l = Some e /\ entry_visible a e = true) dls /\
  map DisplayLine.entry_idx (List.filter is_header dls) =
  List.filter (fun i => match entries a !! i with Some e => entry_visible a e | None => false end)
              (seq 0 (length (entries a))).
Proof.
  destruct (build_lines_from a 0 (entries a)) as (Hs & Hf & Hh). cbv zeta in *. unfold build_display_lines.
  split; [exact Hs|]. split.
  - eapply Forall_impl; [exact Hf|]. intros y (_ & e & He & Hv). exists e. rewrite Nat.sub_0_r in He. split; assumption.
  - rewrite Hh. apply filter_ext. intros i. rewrite Nat.sub_0_r. reflexivity.
Qed.

Lemma name_count_cons n e es :
  name_count n (e :: es) =
  (if Stdlib.Strings.String.eqb (string_of_list_ascii (syscall_name e)) n then 1 else 0) + name_count n es.
Proof. unfold name_count. simpl. destruct (Stdlib.Strings.String.eqb _ n); reflexivity. Qed.

Lemma syscall_counts_fold n m es :
  n <> EmptyString ->
  foldl count_step m es !! n =
  if name_count n es =? 0 then m !! n else Some (default 0 (m !! n) + name_count n es).
Proof.
  intros Hn. revert m. induction es as [|e es IH]; intros m; [reflexivity|].
  cbn [foldl]. rewrite IH, name_count_cons. unfold count_step.
  set (L := name_count n es). clearbody L.
  destruct (length (syscall_name e) =? 0) eqn:El.
  - destruct (syscall_name e) eqn:Ename; [|discriminate].
    assert (H0 : Stdlib.Strings.String.eqb (string_of_list_ascii []) n = false)
      by (apply Stdlib.Strings.String.eqb_neq; simpl; congruence).
    rewrite H0. reflexivity.
  - destruct (Stdlib.Strings.String.eqb_spec (string_of_list_ascii (syscall_name e)) n) as [Heq|Hne].
    + rewrite <- Heq, lookup_insert_eq.
      destruct (L =? 0) eqn:E; simpl; [apply Nat.eqb_eq in E; rewrite E|]; f_equal; lia.
    + rewrite lookup_insert_ne by exact Hne. reflexivity.
Qed.

Lemma syscall_counts_empty m es :
  foldl count_step m es !! EmptyString = m !! EmptyString.
Proof.
  revert m. induction es as [|e es IH]; intros m; simpl; [reflexivity|]. unfold count_step at 2.
  destruct (syscall_name e) as [|c r]; simpl; rewrite IH; [reflexivity|].
  rewrite lookup_insert_ne by discriminate. reflexivity.
Qed.

Lemma name_le_total : Total name_le.
Proof. intros x y. unfold name_le. apply Stdlib.Strings.String.leb_total. Qed.

Lemma sorted_le_strict (l : list (string * nat)) :
  Sorted name_le l -> NoDup l.*1 ->
  Sorted (fun x y => Stdlib.Strings.String.ltb x.1 y.1 = true) l.
Proof.
  induction 1 as [|x l Hs IH Hhd]; intros Hnd; constructor.
  - apply IH. simpl in Hnd. apply NoDup_cons in Hnd as [_ Hnd]. exact Hnd.
  - destruct Hhd as [|y l' Hxy]; constructor.
    simpl in Hnd. apply NoDup_cons in Hnd as [Hni _].
    unfold name_le, Stdlib.Strings.String.leb in Hxy. unfold Stdlib.Strings.String.ltb.
    destruct (Stdlib.Strings.String.compare x.1 y.1) eqn:E; try reflexivity; try discriminate.
    apply Stdlib.Strings.String.compare_eq_iff in E. exfalso. apply Hni. rewrite E. simpl. left.
Qed.

(** The filter-modal list of [App::new] is strictly sorted by name, and
    holds exactly the non-empty syscall names of the entries, each with
    the number of entries bearing it. *)
Theorem syscall_list_spec es :
  let sl := syscall_list es in
  Sorted (fun x y => Stdlib.Strings.String.ltb x.1 y.1 = true) sl /\
  (forall n c, (n, c) ∈ sl <-> n <> EmptyString /\ 0 < c /\ c = name_count n es).
Proof.
  cbv zeta. unfold syscall_list. split.
  - apply sorted_le_strict.
    + apply Sorted_merge_sort. exact name_le_total.
    + rewrite (merge_sort_Permutation name_le (map_to_list (syscall_counts es))).
      apply NoDup_fst_map_to_list.
  - intros n c. rewrite (merge_sort_Permutation name_le (map_to_list (syscall_counts es))).
    rewrite elem_of_map_to_list. unfold syscall_counts.
    destruct (decide (n = EmptyString)) as [->|Hn].
    + rewrite syscall_counts_empty, lookup_empty. split; [discriminate|]. intros [H _]. congruence.
    + rewrite (syscall_counts_fold n ∅ es Hn), lookup_empty. simpl.
      destruct (name_count n es =? 0) eqn:E.
      * apply Nat.eqb_eq in E. split; [discriminate|]. intros (_ & Hc & ->). lia.
      * apply Nat.eqb_neq in E. split.
        -- intros H. injection H as <-. split; [exact Hn|]. split; [lia|reflexivity].
        -- intros (_ & _ & ->). reflexivity.
Qed.
